(** * Two-player grid snake: game service and matchmaking

    A shallow embedding of [services/gameService.ts],
    [services/matchmakingService.ts] and [types/game.ts], and the
    properties of the tick engine, the match registry and the pairing
    queue proved about it.

    Conventions of the embedding:
    - JS numbers that hold grid coordinates are integers ([Z]);
    - the module-level [activeGames] registry is a [gmap string GameState];
    - [GameState.players] is a JS [Map], whose iteration order is the
      insertion order: it is an association list with the [Map]
      operations [get], [set], [delete], [values], [size];
    - objects mutated in place (a player's snake, the apple list of a
      game) are written back into the enclosing value, the loop of [tick]
      walks the players by index, so that every iteration reads what the
      earlier iterations wrote, as the in-place mutation of the source;
    - [Math.random] and [uuidv4] are oracles: an infinite sequence of
      results, with the number of calls made so far kept in the state. *)

From stdpp Require Import gmap strings list fin_maps.

(** ** A JS [Map] keyed by strings, in insertion order *)

Module JsMap.

Abbreviation t V := (list (string * V)).

Definition empty {V : Type} : t V := [].

Definition get {V : Type} (k : string) (m : t V) : option V :=
  snd <$> List.find (fun e => bool_decide (fst e = k)) m.

(** [Map.prototype.set]: an existing key keeps its place. *)
Fixpoint set {V : Type} (k : string) (v : V) (m : t V) : t V :=
  match m with
  | [] => [(k, v)]
  | (k', v') :: m' =>
      if decide (k' = k) then (k, v) :: m' else (k', v') :: set k v m'
  end.

Definition delete {V : Type} (k : string) (m : t V) : t V :=
  List.filter (fun e => negb (bool_decide (fst e = k))) m.

Definition keys {V : Type} (m : t V) : list string := fst <$> m.

Definition values {V : Type} (m : t V) : list V := snd <$> m.

Definition size {V : Type} (m : t V) : nat := length m.

End JsMap.

(** ** types/game.ts *)

Record Position : Type := mkPosition { x : Z; y : Z }.

Inductive Direction : Type := UP | DOWN | LEFT | RIGHT.

(** [SnakeSegment] and [Apple] extend [Position] with nothing. *)
Abbreviation SnakeSegment := Position.
Abbreviation Apple := Position.

Record Snake : Type := mkSnake {
  segments : list SnakeSegment;
  direction : Direction;
  nextDirection : Direction;
  isAlive : bool
}.

(** The field [id] of the source is [player_id] here, and [game_id] in
    [GameState]: two records cannot share a projection name. *)
Record Player : Type := mkPlayer {
  player_id : string;
  socketId : string;
  username : string;
  snake : Snake;
  isReady : bool
}.

Inductive GameStatus : Type := WAITING | READY | PLAYING | FINISHED.

Record GridSize : Type := mkGridSize { width : Z; height : Z }.

Record GameState : Type := mkGameState {
  game_id : string;
  players : JsMap.t Player;
  apples : list Apple;
  gridSize : GridSize;
  status : GameStatus;
  tickRate : Z;
  winnerId : option string
}.

Global Instance Position_eq_dec : EqDecision Position.
Proof. solve_decision. Defined.
Global Instance Direction_eq_dec : EqDecision Direction.
Proof. solve_decision. Defined.
Global Instance GameStatus_eq_dec : EqDecision GameStatus.
Proof. solve_decision. Defined.

(** ** services/gameService.ts *)

Module GameService.

Definition GRID_WIDTH : Z := 20.
Definition GRID_HEIGHT : Z := 20.
Definition TICK_RATE : Z := 200.
Definition INITIAL_SNAKE_LENGTH : nat := 4.

(** The module state: the registry, and how many times [Math.random]
    has been called. *)
Record Store : Type := mkStore {
  activeGames : gmap string GameState;
  randomCalls : nat
}.

(** *** Field assignments *)

Definition set_isAlive (b : bool) (s : Snake) : Snake :=
  mkSnake (segments s) (direction s) (nextDirection s) b.

Definition set_direction (d : Direction) (s : Snake) : Snake :=
  mkSnake (segments s) d (nextDirection s) (isAlive s).

Definition set_nextDirection (d : Direction) (s : Snake) : Snake :=
  mkSnake (segments s) (direction s) d (isAlive s).

Definition set_segments (l : list SnakeSegment) (s : Snake) : Snake :=
  mkSnake l (direction s) (nextDirection s) (isAlive s).

Definition set_snake (s : Snake) (p : Player) : Player :=
  mkPlayer (player_id p) (socketId p) (username p) s (isReady p).

Definition set_players (ps : JsMap.t Player) (g : GameState) : GameState :=
  mkGameState (game_id g) ps (apples g) (gridSize g) (status g)
              (tickRate g) (winnerId g).

Definition set_apples (l : list Apple) (g : GameState) : GameState :=
  mkGameState (game_id g) (players g) l (gridSize g) (status g)
              (tickRate g) (winnerId g).

Definition set_status (s : GameStatus) (g : GameState) : GameState :=
  mkGameState (game_id g) (players g) (apples g) (gridSize g) s
              (tickRate g) (winnerId g).

Definition set_winnerId (w : string) (g : GameState) : GameState :=
  mkGameState (game_id g) (players g) (apples g) (gridSize g) (status g)
              (tickRate g) (Some w).

Definition set_activeGames (m : gmap string GameState) (st : Store) : Store :=
  mkStore m (randomCalls st).

(** The [i]-th player of the iteration order has its snake replaced by
    [f] of it: what an assignment to a field of [player.snake] does to
    the game that holds the player. *)
Definition update_snake (i : nat) (f : Snake -> Snake) (g : GameState)
  : GameState :=
  set_players
    (alter (fun e => (fst e, set_snake (f (snake (snd e))) (snd e))) i
           (players g))
    g.

(** *** Registry *)

Definition createGame (gameId : string) (st : Store) : GameState * Store :=
  let game :=
    {| game_id := gameId;
       players := JsMap.empty;
       apples := [];
       gridSize := {| width := GRID_WIDTH; height := GRID_HEIGHT |};
       status := WAITING;
       tickRate := TICK_RATE;
       winnerId := None |} in
  (game, set_activeGames (<[gameId := game]> (activeGames st)) st).

Definition getGame (gameId : string) (st : Store) : option GameState :=
  activeGames st !! gameId.

Definition deleteGame (gameId : string) (st : Store) : Store :=
  set_activeGames (delete gameId (activeGames st)) st.

(** The [for] loop of [createInitialSnake]: [i] runs from [0] below
    [INITIAL_SNAKE_LENGTH], pushing [mk i]. *)
Definition initial_segments (mk : Z -> SnakeSegment) : list SnakeSegment :=
  (fun i => mk (Z.of_nat i)) <$> seq 0 INITIAL_SNAKE_LENGTH.

Definition createInitialSnake (playerNumber : nat) : Snake :=
  match playerNumber with
  | 0 =>
      let startX := (GRID_WIDTH / 4)%Z in
      let startY := (GRID_HEIGHT / 4)%Z in
      {| segments := initial_segments (fun i => mkPosition (startX - i) startY);
         direction := RIGHT;
         nextDirection := RIGHT;
         isAlive := true |}
  | _ =>
      let startX := (GRID_WIDTH * 3 / 4)%Z in
      let startY := (GRID_HEIGHT * 3 / 4)%Z in
      {| segments := initial_segments (fun i => mkPosition (startX + i) startY);
         direction := LEFT;
         nextDirection := LEFT;
         isAlive := true |}
  end.

Definition addPlayer (gameId playerId sockId : string)
    (uname : option string) (st : Store) : option Player * Store :=
  match activeGames st !! gameId with
  | None => (None, st)
  | Some game =>
      if bool_decide (2 ≤ JsMap.size (players game)) then (None, st)
      else
        let playerNumber := JsMap.size (players game) in
        let snake := createInitialSnake playerNumber in
        let player :=
          {| player_id := playerId;
             socketId := sockId;
             username := default ""%string uname;
             snake := snake;
             isReady := false |} in
        let game' := set_players (JsMap.set playerId player (players game)) game in
        (Some player, set_activeGames (<[gameId := game']> (activeGames st)) st)
  end.

Definition removePlayer (gameId playerId : string) (st : Store) : Store :=
  match activeGames st !! gameId with
  | None => st
  | Some game =>
      let game' := set_players (JsMap.delete playerId (players game)) game in
      let st' := set_activeGames (<[gameId := game']> (activeGames st)) st in
      if bool_decide (JsMap.size (players game') = 0) then deleteGame gameId st'
      else st'
  end.

(** *** Geometry *)

Definition isOppositeDirection (dir1 dir2 : Direction) : bool :=
  (bool_decide (dir1 = UP) && bool_decide (dir2 = DOWN))
  || (bool_decide (dir1 = DOWN) && bool_decide (dir2 = UP))
  || (bool_decide (dir1 = LEFT) && bool_decide (dir2 = RIGHT))
  || (bool_decide (dir1 = RIGHT) && bool_decide (dir2 = LEFT)).

Definition getNextPosition (pos : Position) (dir : Direction) : Position :=
  match dir with
  | UP => {| x := x pos; y := y pos - 1 |}
  | DOWN => {| x := x pos; y := y pos + 1 |}
  | LEFT => {| x := x pos - 1; y := y pos |}
  | RIGHT => {| x := x pos + 1; y := y pos |}
  end.

Definition isOutOfBounds (pos : Position) (grid : GridSize) : bool :=
  bool_decide (x pos < 0)%Z || bool_decide (width grid ≤ x pos)%Z
  || bool_decide (y pos < 0)%Z || bool_decide (height grid ≤ y pos)%Z.

Definition same_cell (a b : Position) : bool :=
  bool_decide (x a = x b) && bool_decide (y a = y b).

Definition collidesWithSnake (pos : Position) (segs : list SnakeSegment) : bool :=
  existsb (fun segment => same_cell segment pos) segs.

(** [Array.prototype.findIndex], with [None] for [-1]. *)
Fixpoint findIndex {A : Type} (f : A -> bool) (l : list A) : option nat :=
  match l with
  | [] => None
  | a :: l' => if f a then Some 0 else S <$> findIndex f l'
  end.

(** [unshift(newHead)] and [pop()] on the segment array. *)
Definition unshift (newHead : SnakeSegment) (s : Snake) : Snake :=
  set_segments (newHead :: segments s) s.

Definition pop (s : Snake) : Snake :=
  set_segments (removelast (segments s)) s.

(** [snake.direction = snake.nextDirection]. *)
Definition applyQueuedDirection (s : Snake) : Snake :=
  set_direction (nextDirection s) s.

(** *** Direction changes *)

Definition changeDirection (gameId playerId : string)
    (newDirection : Direction) (st : Store) : Store :=
  match activeGames st !! gameId with
  | None => st
  | Some game =>
      if negb (bool_decide (status game = PLAYING)) then st
      else
        match JsMap.get playerId (players game) with
        | None => st
        | Some player =>
            if negb (isAlive (snake player)) then st
            else if isOppositeDirection (direction (snake player)) newDirection
            then st
            else
              let player' :=
                set_snake (set_nextDirection newDirection (snake player)) player in
              let game' :=
                set_players (JsMap.set playerId player' (players game)) game in
              set_activeGames (<[gameId := game']> (activeGames st)) st
        end
  end.

(** *** Apples and the tick, over the random oracle *)

Section WithRandom.

(** [Math.random ()] returns a multiple of [2^-53] in the unit
    interval; [random k] is the numerator of the result of the call
    number [k] of the run. *)
Variable random : nat -> Z.

(** [Math.floor (Math.random () * n)] at call number [k], in exact
    arithmetic. The code multiplies doubles and rounds the product
    before the floor, so that at a draw whose exact product lies just
    below an integer it can return that integer where this function
    returns the one before; the result is in [0, n) either way. *)
Definition random_floor (k : nat) (n : Z) : Z :=
  (((random k `mod` 2 ^ 53) * n) `div` 2 ^ 53)%Z.

(** The key [`${x},${y}`] of a cell in [occupiedPositions]: the pair
    of coordinates, which the string determines. *)
Definition cell_key (p : Position) : Z * Z := (x p, y p).

Definition occupiedPositions (game : GameState) : gset (Z * Z) :=
  list_to_set
    (cell_key <$> concat ((fun p => segments (snake p))
                            <$> JsMap.values (players game)))
  ∪ list_to_set (cell_key <$> apples game).

(** The [while (attempts < maxAttempts)] loop, [remaining] being
    [maxAttempts - attempts]; every turn calls [Math.random] twice. *)
Fixpoint spawn_loop (remaining : nat) (occupied : gset (Z * Z))
    (grid : GridSize) (n : nat) : option Apple * nat :=
  match remaining with
  | 0 => (None, n)
  | S remaining' =>
      let x := random_floor n (width grid) in
      let y := random_floor (S n) (height grid) in
      if bool_decide ((x, y) ∈ occupied)
      then spawn_loop remaining' occupied grid (S (S n))
      else (Some (mkPosition x y), S (S n))
  end.

Definition maxAttempts : nat := 100.

(** The body of [spawnApple] on the game found in the registry. *)
Definition spawnAppleIn (game : GameState) (n : nat) : GameState * nat :=
  match spawn_loop maxAttempts (occupiedPositions game) (gridSize game) n with
  | (Some apple, n') => (set_apples (apples game ++ [apple]) game, n')
  | (None, n') => (game, n')
  end.

Definition spawnApple (gameId : string) (st : Store) : Store :=
  match activeGames st !! gameId with
  | None => st
  | Some game =>
      let '(game', n') := spawnAppleIn game (randomCalls st) in
      mkStore (<[gameId := game']> (activeGames st)) n'
  end.

Definition startGame (gameId : string) (st : Store) : Store :=
  match activeGames st !! gameId with
  | None => st
  | Some game =>
      if negb (bool_decide (status game = WAITING)) then st
      else
        let st1 :=
          set_activeGames
            (<[gameId := set_status PLAYING game]> (activeGames st)) st in
        spawnApple gameId (spawnApple gameId st1)
  end.

(** The inner loop of [tick] over the other players: [true] when it
    ends by marking the player dead. *)
Definition hitsOtherPlayer (player : Player) (newHead : Position)
    (all : list Player) : bool :=
  existsb
    (fun otherPlayer =>
       negb (bool_decide (player_id otherPlayer = player_id player))
       && isAlive (snake otherPlayer)
       && collidesWithSnake newHead (segments (snake otherPlayer)))
    all.

(** One turn of the loop [for (const player of game.players.values())]
    of [tick], for the player at place [i] of the iteration order, on
    the game as the earlier turns left it. [spawnApple (gameId)] looks
    the game up in the registry again and finds the object that [tick]
    is mutating, so the turn runs [spawnAppleIn] on the game. *)
Definition tick_player (i : nat) (s : GameState * nat) : GameState * nat :=
  let '(game, n) := s in
  match JsMap.values (players game) !! i with
  | None => s
  | Some player =>
      if negb (isAlive (snake player)) then s
      else
        let game := update_snake i applyQueuedDirection game in
        match segments (snake player) with
        | [] => (game, n)
        | head :: _ =>
            let newHead :=
              getNextPosition head (nextDirection (snake player)) in
            if isOutOfBounds newHead (gridSize game)
            then (update_snake i (set_isAlive false) game, n)
            else if collidesWithSnake newHead (segments (snake player))
            then (update_snake i (set_isAlive false) game, n)
            else if hitsOtherPlayer player newHead
                      (JsMap.values (players game))
            then (update_snake i (set_isAlive false) game, n)
            else
              match findIndex (fun apple => same_cell apple newHead)
                              (apples game) with
              | Some appleIndex =>
                  let game :=
                    set_apples (delete appleIndex (apples game)) game in
                  let '(game, n) := spawnAppleIn game n in
                  (update_snake i (unshift newHead) game, n)
              | None =>
                  (update_snake i (fun sn => pop (unshift newHead sn)) game, n)
              end
        end
  end.

(** The state of the match when the loop of [tick] reaches the player
    at place [i]: the players before [i] have had their turn. *)
Definition tick_upto (i : nat) (s : GameState * nat) : GameState * nat :=
  foldl (fun s j => tick_player j s) s (seq 0 i).

Definition alivePlayers (game : GameState) : list Player :=
  List.filter (fun p => isAlive (snake p)) (JsMap.values (players game)).

(** The end of [tick]: is the game over? *)
Definition checkGameOver (game : GameState) : GameState :=
  match alivePlayers game with
  | [] => set_status FINISHED game
  | [p] => set_status FINISHED (set_winnerId (player_id p) game)
  | _ => game
  end.

(** [tick] on a game that is [PLAYING]. *)
Definition tick_game (s : GameState * nat) : GameState * nat :=
  let '(game, n) := tick_upto (JsMap.size (players (fst s))) s in
  (checkGameOver game, n).

Definition tick (gameId : string) (st : Store) : bool * Store :=
  match activeGames st !! gameId with
  | None => (false, st)
  | Some game =>
      if negb (bool_decide (status game = PLAYING)) then (false, st)
      else
        let '(game', n') := tick_game (game, randomCalls st) in
        (true, mkStore (<[gameId := game']> (activeGames st)) n')
  end.

End WithRandom.

End GameService.

(** ** services/matchmakingService.ts *)

Module MatchmakingService.

(** An entry of the [waitingPlayers] queue. *)
Record WaitingPlayer : Type := mkWaitingPlayer {
  playerId : string;
  socketId : string;
  username : string
}.

(** The module state: the queue, how many times [uuidv4] has been
    called, and the state of the game service that [findMatch] calls. *)
Record State : Type := mkState {
  waitingPlayers : list WaitingPlayer;
  uuidCalls : nat;
  games : GameService.Store
}.

(** The first lines of [findMatch], and the whole of [leaveQueue]:
    [findIndex] of an entry of the player and, when there is one,
    [splice (index, 1)]. *)
Definition removeEntry (pid : string) (queue : list WaitingPlayer)
  : list WaitingPlayer :=
  match GameService.findIndex (fun p => bool_decide (playerId p = pid)) queue with
  | Some existingIndex => delete existingIndex queue
  | None => queue
  end.

Section WithUuid.

(** [uuidv4 k] is the identifier that the call number [k] returns. *)
Variable uuidv4 : nat -> string.

Definition findMatch (pid sid : string) (uname : option string) (st : State)
  : option string * State :=
  let queue := removeEntry pid (waitingPlayers st) in
  match queue with
  | opponent :: queue' =>
      let gameId := uuidv4 (uuidCalls st) in
      let '(_, gs) := GameService.createGame gameId (games st) in
      let '(_, gs) :=
        GameService.addPlayer gameId (playerId opponent) (socketId opponent)
                              (Some (username opponent)) gs in
      let '(_, gs) := GameService.addPlayer gameId pid sid uname gs in
      (Some gameId, mkState queue' (S (uuidCalls st)) gs)
  | [] =>
      let entry :=
        {| playerId := pid; socketId := sid;
           username := default ""%string uname |} in
      (None, mkState (queue ++ [entry]) (uuidCalls st) (games st))
  end.

End WithUuid.

Definition leaveQueue (pid : string) (st : State) : State :=
  mkState (removeEntry pid (waitingPlayers st)) (uuidCalls st) (games st).

Definition getQueueSize (st : State) : nat := length (waitingPlayers st).

Definition isInQueue (pid : string) (st : State) : bool :=
  existsb (fun p => bool_decide (playerId p = pid)) (waitingPlayers st).

(** The states of the module that a run can reach: the queue starts
    empty, and only [findMatch] and [leaveQueue] touch it; the game
    service is also called from elsewhere. *)
Inductive reachable (uuidv4 : nat -> string) : State -> Prop :=
| reachable_init gs :
    reachable uuidv4 (mkState [] 0 gs)
| reachable_findMatch st pid sid uname :
    reachable uuidv4 st ->
    reachable uuidv4 (snd (findMatch uuidv4 pid sid uname st))
| reachable_leaveQueue st pid :
    reachable uuidv4 st ->
    reachable uuidv4 (leaveQueue pid st)
| reachable_games st gs :
    reachable uuidv4 st ->
    reachable uuidv4 (mkState (waitingPlayers st) (uuidCalls st) gs).

End MatchmakingService.

(** ** Notions used to state the properties *)

Import GameService.

(** The exact opposite of a direction. *)
Definition opposite (d : Direction) : Direction :=
  match d with
  | UP => DOWN
  | DOWN => UP
  | LEFT => RIGHT
  | RIGHT => LEFT
  end.

(** The buffered direction of a player of a match of the registry. *)
Definition nextDirectionOf (gameId pid : string) (st : Store)
  : option Direction :=
  game ← activeGames st !! gameId;
  player ← JsMap.get pid (players game);
  Some (nextDirection (snake player)).

(** The match that [createGame] allocates. *)
Definition freshGame (gameId : string) : GameState :=
  {| game_id := gameId;
     players := [];
     apples := [];
     gridSize := {| width := 20; height := 20 |};
     status := WAITING;
     tickRate := 200;
     winnerId := None |}.

(** The cell that the head of a snake moves to in its next turn: one step
    from the head in the buffered direction. *)
Definition newHeadOf (p : Player) : option Position :=
  match segments (snake p) with
  | [] => None
  | head :: _ => Some (getNextPosition head (nextDirection (snake p)))
  end.

(** What ends the turn of a living snake by its death: the new head is
    off the grid, on a segment of the snake, or on a segment of a living
    snake of another player of [g]. *)
Definition blocked (g : GameState) (p : Player) (newHead : Position) : bool :=
  isOutOfBounds newHead (gridSize g)
  || collidesWithSnake newHead (segments (snake p))
  || hitsOtherPlayer p newHead (JsMap.values (players g)).

(** The cells that a player occupies as long as its snake is alive. *)
Definition alive_segments (p : Player) : list Position :=
  if isAlive (snake p) then segments (snake p) else [].

(** No cell holds two segments of living snakes: the segments of the
    living snakes, one snake after the other, have no duplicate. *)
Definition no_overlap (g : GameState) : Prop :=
  NoDup (concat (alive_segments <$> JsMap.values (players g))).

(** The players of a match have distinct identifiers. *)
Definition distinct_ids (g : GameState) : Prop :=
  NoDup (player_id <$> JsMap.values (players g)).

(** Player [p] sits at place [i] of the match [g], in the order of the
    player map, and its snake is alive. *)
Definition alive_at (g : GameState) (i : nat) (p : Player) : Prop :=
  JsMap.values (players g) !! i = Some p ∧ isAlive (snake p) = true.

(** The snake of player [p] after its turn in the loop of [tick], [g]
    being the match as the turn finds it. *)
Inductive turn_outcome (g : GameState) (p : Player) : Snake -> Prop :=
| outcome_dead :
    isAlive (snake p) = false ->
    turn_outcome g p (snake p)
| outcome_headless :
    isAlive (snake p) = true ->
    newHeadOf p = None ->
    turn_outcome g p (applyQueuedDirection (snake p))
| outcome_blocked h :
    isAlive (snake p) = true ->
    newHeadOf p = Some h ->
    blocked g p h = true ->
    turn_outcome g p (set_isAlive false (applyQueuedDirection (snake p)))
| outcome_eats h :
    isAlive (snake p) = true ->
    newHeadOf p = Some h ->
    blocked g p h = false ->
    h ∈ apples g ->
    turn_outcome g p (unshift h (applyQueuedDirection (snake p)))
| outcome_moves h :
    isAlive (snake p) = true ->
    newHeadOf p = Some h ->
    blocked g p h = false ->
    h ∉ apples g ->
    turn_outcome g p (pop (unshift h (applyQueuedDirection (snake p)))).

(** The collision rule that reads the opponents as they were before the
    tick, for the match [gameId] of [st]: a living snake with a head is
    dead after the tick exactly when the cell that its head moves to was
    a segment, before the tick, of the living snake of another player. *)
Definition pre_tick_collision_rule (random : nat -> Z) (gameId : string)
    (st : Store) : Prop :=
  ∀ game game' i p p' h,
    activeGames st !! gameId = Some game ->
    status game = PLAYING ->
    activeGames (snd (tick random gameId st)) !! gameId = Some game' ->
    JsMap.values (players game) !! i = Some p ->
    JsMap.values (players game') !! i = Some p' ->
    isAlive (snake p) = true ->
    newHeadOf p = Some h ->
    (isAlive (snake p') = false
     ↔ ∃ j q, j ≠ i
              ∧ JsMap.values (players game) !! j = Some q
              ∧ isAlive (snake q) = true
              ∧ h ∈ segments (snake q)).

(** The match that [findMatch] forms: the waiting [opponent] is the
    first player, the player who asks is the second. *)
Definition pairedGame (gameId : string)
    (opponent : MatchmakingService.WaitingPlayer)
    (pid sid : string) (uname : option string) : GameState :=
  {| game_id := gameId;
     players :=
       [(MatchmakingService.playerId opponent,
         {| player_id := MatchmakingService.playerId opponent;
            socketId := MatchmakingService.socketId opponent;
            username := MatchmakingService.username opponent;
            snake := createInitialSnake 0;
            isReady := false |});
        (pid,
         {| player_id := pid;
            socketId := sid;
            username := default ""%string uname;
            snake := createInitialSnake 1;
            isReady := false |})];
     apples := [];
     gridSize := {| width := 20; height := 20 |};
     status := WAITING;
     tickRate := 200;
     winnerId := None |}.

(** The player identifiers of the entries of a queue. *)
Definition queue_ids (queue : list MatchmakingService.WaitingPlayer)
  : list string :=
  MatchmakingService.playerId <$> queue.

(** A match of the registry is well formed: the keys of its player map
    are distinct, every player is stored under its identifier, and a
    winner is recorded only in a match that is [FINISHED]. *)
Definition game_wf (g : GameState) : Prop :=
  NoDup (JsMap.keys (players g))
  ∧ Forall (fun e => player_id (snd e) = fst e) (players g)
  ∧ (status g ≠ FINISHED -> winnerId g = None).

Definition registry_wf (st : Store) : Prop :=
  ∀ gameId g, activeGames st !! gameId = Some g -> game_wf g.

(** ** Notions used to state further properties *)

(** The cell is inside the grid. *)
Definition in_grid (grid : GridSize) (p : Position) : Prop :=
  isOutOfBounds p grid = false.

(** Every segment is one step away from the segment that follows it. *)
Definition chain (l : list Position) : Prop :=
  ∀ i a b, l !! i = Some a -> l !! S i = Some b ->
           ∃ d, a = getNextPosition b d.

(** The head is one step from the segment behind it, in the direction
    of the snake. *)
Definition aligned (sn : Snake) : Prop :=
  match segments sn with
  | h :: n :: _ => h = getNextPosition n (direction sn)
  | _ => True
  end.

(** The shape of a snake on a grid. *)
Definition snake_inv (grid : GridSize) (sn : Snake) : Prop :=
  4 ≤ length (segments sn)
  ∧ NoDup (segments sn)
  ∧ Forall (in_grid grid) (segments sn)
  ∧ chain (segments sn)
  ∧ (isAlive sn = true ->
       aligned sn ∧ nextDirection sn ≠ opposite (direction sn)).

(** What every match of the registry keeps, whatever its status: at
    most two players, the 20 by 20 grid, at most two apples, on distinct
    cells of the grid, and snakes of the shape above. *)
Definition game_core (g : GameState) : Prop :=
  JsMap.size (players g) ≤ 2
  ∧ gridSize g = {| width := 20; height := 20 |}
  ∧ NoDup (apples g)
  ∧ length (apples g) ≤ 2
  ∧ Forall (in_grid (gridSize g)) (apples g)
  ∧ Forall (fun p => snake_inv (gridSize g) (snake p)) (JsMap.values (players g)).

Definition game_inv (g : GameState) : Prop :=
  game_core g
  ∧ status g ≠ READY
  ∧ (status g = WAITING -> apples g = []).

Definition registry_inv (st : Store) : Prop :=
  ∀ gameId g, activeGames st !! gameId = Some g -> game_inv g.

(** The states of the game service that a run can reach: the registry
    starts empty, and changes by the operations of the service. *)
Inductive registry_reachable (random : nat -> Z) : Store -> Prop :=
| reachable_empty :
    registry_reachable random (mkStore ∅ 0)
| reachable_createGame st gameId :
    registry_reachable random st ->
    registry_reachable random (snd (createGame gameId st))
| reachable_deleteGame st gameId :
    registry_reachable random st ->
    registry_reachable random (deleteGame gameId st)
| reachable_addPlayer st gameId pid sid uname :
    registry_reachable random st ->
    registry_reachable random (snd (addPlayer gameId pid sid uname st))
| reachable_removePlayer st gameId pid :
    registry_reachable random st ->
    registry_reachable random (removePlayer gameId pid st)
| reachable_startGame st gameId :
    registry_reachable random st ->
    registry_reachable random (startGame random gameId st)
| reachable_changeDirection st gameId pid d :
    registry_reachable random st ->
    registry_reachable random (changeDirection gameId pid d st)
| reachable_tick st gameId :
    registry_reachable random st ->
    registry_reachable random (snd (tick random gameId st)).

(** How far a match is in its life. *)
Definition status_rank (s : GameStatus) : nat :=
  match s with
  | WAITING => 0
  | READY => 1
  | PLAYING => 2
  | FINISHED => 3
  end.

(** One call of an operation of the game service. *)
Inductive registry_step (random : nat -> Z) : Store -> Store -> Prop :=
| step_createGame st gameId :
    registry_step random st (snd (createGame gameId st))
| step_deleteGame st gameId :
    registry_step random st (deleteGame gameId st)
| step_addPlayer st gameId pid sid uname :
    registry_step random st (snd (addPlayer gameId pid sid uname st))
| step_removePlayer st gameId pid :
    registry_step random st (removePlayer gameId pid st)
| step_startGame st gameId :
    registry_step random st (startGame random gameId st)
| step_changeDirection st gameId pid d :
    registry_step random st (changeDirection gameId pid d st)
| step_tick st gameId :
    registry_step random st (snd (tick random gameId st)).

(** ** Example states *)

Module Examples.

Local Open Scope string_scope.

(** The numerator of the fraction [a / b] of the unit interval. *)
Definition fraction (a b : Z) : Z := ((a * 2 ^ 53) `div` b)%Z.

(** The oracle whose first results are those of [l], and [0] after. *)
Definition random_seq (l : list Z) : nat -> Z := fun k => nth k l 0%Z.

(** The two players of a match, as [addPlayer] makes them. *)
Definition playerA : Player :=
  {| player_id := "A"; socketId := "socket-a"; username := "";
     snake := createInitialSnake 0; isReady := false |}.

Definition playerB : Player :=
  {| player_id := "B"; socketId := "socket-b"; username := "bob";
     snake := createInitialSnake 1; isReady := false |}.

(** The registry after [createGame] and the arrival of [A] then [B]. *)
Definition store_lobby : Store :=
  snd (addPlayer "g" "B" "socket-b" (Some "bob")
         (snd (addPlayer "g" "A" "socket-a" None
                 (snd (createGame "g" (mkStore ∅ 0)))))).

(** [Math.random] returning 13/40 and 11/40, then 21/40 twice, then
    13/40 and 11/40 again: the cells (6,5), (10,10) and (6,5) of the
    grid. *)
Definition random_6_5 : nat -> Z :=
  random_seq [fraction 13 40; fraction 11 40; fraction 21 40; fraction 21 40;
              fraction 13 40; fraction 11 40].

(** The match started with that oracle: the snake of [A] lies from
    (5,5) to (2,5) and heads right, the first apple is at (6,5). *)
Definition store_started : Store := startGame random_6_5 "g" store_lobby.

Definition game_started : GameState :=
  {| game_id := "g";
     players := [("A", playerA); ("B", playerB)];
     apples := [mkPosition 6 5; mkPosition 10 10];
     gridSize := {| width := 20; height := 20 |};
     status := PLAYING;
     tickRate := 200;
     winnerId := None |}.

(** The same start, [Math.random] then returning 29/40 and 31/40: the
    cell (14,15), next to the head of [B]. *)
Definition random_14_15 : nat -> Z :=
  random_seq [fraction 13 40; fraction 11 40; fraction 21 40; fraction 21 40;
              fraction 29 40; fraction 31 40].

(** [tick] called [n] times. *)
Fixpoint ticks (random : nat -> Z) (n : nat) (gameId : string) (st : Store)
  : Store :=
  match n with
  | 0 => st
  | S n' => ticks random n' gameId (snd (tick random gameId st))
  end.

(** [Math.random] returning 0 three times, then 3/40: the cells (0,0)
    and (0,1). *)
Definition random_corner : nat -> Z :=
  random_seq [0; 0; 0; fraction 3 40]%Z.

(** The match started with the apples in the corner, and played for
    eleven ticks, [B] turning up after the second: [A] heads right
    along the row [y = 5], and the head of [B], which heads up along
    the column [x = 13], is just below the tail of [A]. *)
Definition store_crossing : Store :=
  ticks random_corner 9 "g"
    (changeDirection "g" "B" UP
       (ticks random_corner 2 "g" (startGame random_corner "g" store_lobby))).

Definition playerA_crossing : Player :=
  {| player_id := "A"; socketId := "socket-a"; username := "";
     snake :=
       {| segments := [mkPosition 16 5; mkPosition 15 5; mkPosition 14 5;
                       mkPosition 13 5];
          direction := RIGHT; nextDirection := RIGHT; isAlive := true |};
     isReady := false |}.

Definition playerB_crossing : Player :=
  {| player_id := "B"; socketId := "socket-b"; username := "bob";
     snake :=
       {| segments := [mkPosition 13 6; mkPosition 13 7; mkPosition 13 8;
                       mkPosition 13 9];
          direction := UP; nextDirection := UP; isAlive := true |};
     isReady := false |}.

Definition game_crossing : GameState :=
  {| game_id := "g";
     players := [("A", playerA_crossing); ("B", playerB_crossing)];
     apples := [mkPosition 0 0; mkPosition 0 1];
     gridSize := {| width := 20; height := 20 |};
     status := PLAYING;
     tickRate := 200;
     winnerId := None |}.

(** [A] heads up from the top row, and leaves the grid. *)
Definition playerA_at_wall : Player :=
  {| player_id := "A"; socketId := "socket-a"; username := "";
     snake :=
       {| segments := [mkPosition 5 0; mkPosition 5 1; mkPosition 5 2;
                       mkPosition 5 3];
          direction := UP; nextDirection := UP; isAlive := true |};
     isReady := false |}.

Definition game_at_wall : GameState :=
  {| game_id := "g";
     players := [("A", playerA_at_wall); ("B", playerB)];
     apples := [mkPosition 6 5; mkPosition 10 10];
     gridSize := {| width := 20; height := 20 |};
     status := PLAYING;
     tickRate := 200;
     winnerId := None |}.

Definition store_at_wall : Store :=
  {| activeGames := {["g" := game_at_wall]}; randomCalls := 0 |}.

(** That match after a tick: [A] is dead where it was, [B] has moved one
    cell to the left and has won. *)
Definition playerA_after_wall : Player :=
  {| player_id := "A"; socketId := "socket-a"; username := "";
     snake :=
       {| segments := [mkPosition 5 0; mkPosition 5 1; mkPosition 5 2;
                       mkPosition 5 3];
          direction := UP; nextDirection := UP; isAlive := false |};
     isReady := false |}.

Definition playerB_after_wall : Player :=
  {| player_id := "B"; socketId := "socket-b"; username := "bob";
     snake :=
       {| segments := [mkPosition 14 15; mkPosition 15 15; mkPosition 16 15;
                       mkPosition 17 15];
          direction := LEFT; nextDirection := LEFT; isAlive := true |};
     isReady := false |}.

Definition game_after_wall : GameState :=
  {| game_id := "g";
     players := [("A", playerA_after_wall); ("B", playerB_after_wall)];
     apples := [mkPosition 6 5; mkPosition 10 10];
     gridSize := {| width := 20; height := 20 |};
     status := FINISHED;
     tickRate := 200;
     winnerId := Some "B" |}.

(** The registry with a match that waits for its players to be ready. *)
Definition store_waiting : Store :=
  {| activeGames := {["g" := set_status WAITING game_started]};
     randomCalls := 0 |}.

(** The queue with [A] then [B] waiting. *)
Definition entryA : MatchmakingService.WaitingPlayer :=
  MatchmakingService.mkWaitingPlayer "A" "socket-a" "".

Definition entryB : MatchmakingService.WaitingPlayer :=
  MatchmakingService.mkWaitingPlayer "B" "socket-b" "bob".

Definition queue_A_B : MatchmakingService.State :=
  MatchmakingService.mkState [entryA; entryB] 0 (mkStore ∅ 0).

Definition uuid_seq : nat -> string :=
  fun k => match k with 0 => "match-0" | _ => "match-n" end.

(** The module at load time, and after a first request of [A]. *)
Definition matchmaking_init : MatchmakingService.State :=
  MatchmakingService.mkState [] 0 (mkStore ∅ 0).

Definition matchmaking_A_waits : MatchmakingService.State :=
  snd (MatchmakingService.findMatch uuid_seq "A" "socket-a" None matchmaking_init).

End Examples.

(** ** More example states *)

Module MoreExamples.

Import Examples.

Local Open Scope string_scope.

(** The match with its first player only. *)
Definition game_one : GameState :=
  {| game_id := "g";
     players := [("A", playerA)];
     apples := [];
     gridSize := {| width := 20; height := 20 |};
     status := WAITING;
     tickRate := 200;
     winnerId := None |}.

Definition store_one : Store :=
  snd (addPlayer "g" "A" "socket-a" None (snd (createGame "g" (mkStore ∅ 0)))).

(** The match of [store_lobby], with its two players, not started. *)
Definition game_lobby : GameState :=
  {| game_id := "g";
     players := [("A", playerA); ("B", playerB)];
     apples := [];
     gridSize := {| width := 20; height := 20 |};
     status := WAITING;
     tickRate := 200;
     winnerId := None |}.

(** Every cell of the 20 by 20 grid. *)
Definition all_cells : list Position :=
  flat_map
    (fun cx => (fun cy => mkPosition (Z.of_nat cx) (Z.of_nat cy)) <$> seq 0 20)
    (seq 0 20).

(** A match with an apple on every cell. *)
Definition game_full : GameState :=
  {| game_id := "g";
     players := [];
     apples := all_cells;
     gridSize := {| width := 20; height := 20 |};
     status := PLAYING;
     tickRate := 200;
     winnerId := None |}.

Definition store_full : Store :=
  {| activeGames := {["g" := game_full]}; randomCalls := 0 |}.

End MoreExamples.

(** ** Basic facts *)

Lemma same_cell_true (a b : Position) : same_cell a b = true ↔ a = b.
Proof.
  unfold same_cell. rewrite andb_true_iff, !bool_decide_eq_true.
  destruct a, b; simpl. split.
  - intros [-> ->]. reflexivity.
  - intros [= -> ->]. done.
Qed.

Lemma collidesWithSnake_true (pos : Position) (segs : list SnakeSegment) :
  collidesWithSnake pos segs = true ↔ pos ∈ segs.
Proof.
  unfold collidesWithSnake. rewrite existsb_exists. split.
  - intros (c & Hin & Hc). apply same_cell_true in Hc. subst c.
    by apply list_elem_of_In.
  - intros Hin. exists pos. split.
    + by apply list_elem_of_In.
    + by apply same_cell_true.
Qed.

Lemma collidesWithSnake_false (pos : Position) (segs : list SnakeSegment) :
  collidesWithSnake pos segs = false ↔ pos ∉ segs.
Proof.
  rewrite <- collidesWithSnake_true. destruct (collidesWithSnake pos segs); naive_solver.
Qed.

Lemma isOppositeDirection_opposite (d : Direction) :
  isOppositeDirection d (opposite d) = true.
Proof. by destruct d. Qed.

Lemma isOppositeDirection_true (d1 d2 : Direction) :
  isOppositeDirection d1 d2 = true ↔ d2 = opposite d1.
Proof. destruct d1, d2; by vm_compute. Qed.

(** ** The registry ignores a tick on a match that is not being played *)

Section Tick.

Variable random : nat -> Z.

(** C9. For every match identifier, [tick] returns [false] and leaves
    the whole state of the game service as it was when the registry has
    no match of that identifier, or has one whose status is not
    [PLAYING]. *)
Theorem tick_not_playing (gameId : string) (st : Store) :
  (activeGames st !! gameId = None
   ∨ ∃ game, activeGames st !! gameId = Some game ∧ status game ≠ PLAYING) ->
  tick random gameId st = (false, st).
Proof.
  unfold tick. intros [-> | (game & -> & Hstatus)]; [done|].
  by rewrite bool_decide_eq_false_2.
Qed.

Lemma tick_playing (gameId : string) (st : Store) (game : GameState) :
  activeGames st !! gameId = Some game ->
  status game = PLAYING ->
  tick random gameId st =
    (true,
     mkStore (<[gameId := fst (tick_game random (game, randomCalls st))]>
                (activeGames st))
             (snd (tick_game random (game, randomCalls st)))).
Proof.
  intros Hgame Hstatus. unfold tick. rewrite Hgame.
  rewrite bool_decide_eq_true_2 by done. simpl.
  by destruct (tick_game random (game, randomCalls st)).
Qed.

End Tick.

(** ** Direction changes *)

(** C5. In a match that is [PLAYING], a living snake asked to turn to the
    exact opposite of its current direction keeps its buffered
    [nextDirection]: the request is dropped, and the state is the one
    before the call. *)
Theorem changeDirection_reversal_dropped
    (gameId pid : string) (st : Store) (game : GameState) (player : Player)
    (d : Direction) :
  activeGames st !! gameId = Some game ->
  status game = PLAYING ->
  JsMap.get pid (players game) = Some player ->
  isAlive (snake player) = true ->
  d = opposite (direction (snake player)) ->
  nextDirectionOf gameId pid (changeDirection gameId pid d st)
    = Some (nextDirection (snake player))
  ∧ changeDirection gameId pid d st = st.
Proof.
  intros Hgame Hstatus Hplayer Halive ->.
  assert (Hsame : changeDirection gameId pid
                    (opposite (direction (snake player))) st = st).
  { unfold changeDirection. rewrite Hgame, Hplayer, Halive.
    rewrite bool_decide_eq_true_2 by done. simpl.
    by rewrite isOppositeDirection_opposite. }
  split; [|done].
  rewrite Hsame. unfold nextDirectionOf. rewrite Hgame. simpl.
  by rewrite Hplayer.
Qed.

(** ** Creating a match *)

(** C7, as the code has it. [createGame] never fails: it returns a fresh
    match in [WAITING], with no player and no apple, and stores it under
    the identifier, in place of the match that the registry had there;
    the other entries of the registry are kept. *)
Theorem createGame_overwrites (gameId : string) (st : Store) :
  fst (createGame gameId st) = freshGame gameId
  ∧ activeGames (snd (createGame gameId st)) !! gameId = Some (freshGame gameId)
  ∧ (∀ other, other ≠ gameId ->
       activeGames (snd (createGame gameId st)) !! other
       = activeGames st !! other)
  ∧ randomCalls (snd (createGame gameId st)) = randomCalls st.
Proof.
  unfold createGame, freshGame. simpl. split_and!; [done| |  |done].
  - by rewrite lookup_insert_eq.
  - intros other Hne. by rewrite lookup_insert_ne.
Qed.

(** ** One turn of the loop of [tick] *)

Lemma values_update_snake (i : nat) (f : Snake -> Snake) (g : GameState) :
  JsMap.values (players (update_snake i f g))
  = alter (fun p => set_snake (f (snake p)) p) i (JsMap.values (players g)).
Proof.
  unfold update_snake, JsMap.values. cbn [players set_players].
  apply list_fmap_alter, Forall_true. done.
Qed.

Lemma keys_update_snake (i : nat) (f : Snake -> Snake) (g : GameState) :
  JsMap.keys (players (update_snake i f g)) = JsMap.keys (players g).
Proof.
  unfold update_snake, JsMap.keys. cbn [players set_players].
  rewrite (list_fmap_alter fst _ (fun k => k)) by by apply Forall_true.
  by apply list_alter_id.
Qed.

Lemma ids_update_snake (i : nat) (f : Snake -> Snake) (g : GameState) :
  player_id <$> JsMap.values (players (update_snake i f g))
  = player_id <$> JsMap.values (players g).
Proof.
  rewrite values_update_snake.
  rewrite (list_fmap_alter player_id _ (fun k => k)) by by apply Forall_true.
  by apply list_alter_id.
Qed.

Lemma existsb_alter {A : Type} (f : A -> bool) (h : A -> A) (i : nat) (l : list A) :
  (∀ a, f (h a) = f a) -> existsb f (alter h i l) = existsb f l.
Proof.
  intros Hh. revert i.
  induction l as [|a l IH]; intros [|i]; csimpl; by rewrite ?Hh, ?IH.
Qed.

Lemma hitsOtherPlayer_applyQueuedDirection
    (p : Player) (h : Position) (i : nat) (g : GameState) :
  hitsOtherPlayer p h (JsMap.values (players (update_snake i applyQueuedDirection g)))
  = hitsOtherPlayer p h (JsMap.values (players g)).
Proof.
  rewrite values_update_snake. unfold hitsOtherPlayer.
  by apply existsb_alter.
Qed.

Lemma hitsOtherPlayer_true (p : Player) (h : Position) (l : list Player) :
  hitsOtherPlayer p h l = true
  ↔ ∃ q, q ∈ l ∧ player_id q ≠ player_id p ∧ isAlive (snake q) = true
         ∧ h ∈ segments (snake q).
Proof.
  unfold hitsOtherPlayer. rewrite existsb_exists. split.
  - intros (q & Hin & Hq). apply andb_true_iff in Hq as [Hq Hhit].
    apply andb_true_iff in Hq as [Hid Halive].
    apply negb_true_iff, bool_decide_eq_false in Hid.
    exists q. split_and!; try done.
    + by apply list_elem_of_In.
    + by apply collidesWithSnake_true.
  - intros (q & Hin & Hid & Halive & Hhit). exists q. split.
    + by apply list_elem_of_In.
    + rewrite Halive, bool_decide_eq_false_2 by done. simpl.
      by apply collidesWithSnake_true.
Qed.

Lemma findIndex_Some {A : Type} (f : A -> bool) (l : list A) (k : nat) :
  findIndex f l = Some k -> ∃ a, l !! k = Some a ∧ f a = true.
Proof.
  revert k. induction l as [|a l IH]; intros k; simpl; [done|].
  destruct (f a) eqn:Hfa.
  - intros [= <-]. eauto.
  - destruct (findIndex f l) as [k'|]; simpl; intros [= <-]. by apply IH.
Qed.

Lemma findIndex_None {A : Type} (f : A -> bool) (l : list A) :
  findIndex f l = None ↔ ∀ a, a ∈ l -> f a = false.
Proof.
  induction l as [|a l IH]; simpl.
  - split; [|done]. intros _ a Ha. by apply elem_of_nil in Ha.
  - destruct (f a) eqn:Hfa.
    + split; [done|]. intros Hall. rewrite Hall in Hfa; [done|]. by left.
    + destruct (findIndex f l) as [k'|]; simpl.
      * split; [done|]. intros Hall.
        assert (Some k' = None) as Hno; [|done].
        apply IH. intros b Hb. apply Hall. by right.
      * split; [|done]. intros _ b Hb. apply elem_of_cons in Hb as [->|Hb]; [done|].
        by apply IH.
Qed.

(** The apple array has an apple at the cell exactly when [findIndex]
    finds one. *)
Lemma findIndex_apple (h : Position) (l : list Apple) :
  is_Some (findIndex (fun apple => same_cell apple h) l) ↔ h ∈ l.
Proof.
  split.
  - intros [k Hk]. apply findIndex_Some in Hk as (a & Ha & Hsame).
    apply same_cell_true in Hsame. subst a. by eapply list_elem_of_lookup_2.
  - intros Hin. destruct (findIndex _ l) as [k|] eqn:Hk; [eauto|].
    rewrite findIndex_None in Hk. specialize (Hk h Hin).
    by rewrite (proj2 (same_cell_true h h)) in Hk.
Qed.

Section Turn.

Variable random : nat -> Z.

(** *** What [spawnApple] changes *)

Lemma spawnAppleIn_players (g : GameState) (n : nat) :
  players (fst (spawnAppleIn random g n)) = players g
  ∧ gridSize (fst (spawnAppleIn random g n)) = gridSize g
  ∧ status (fst (spawnAppleIn random g n)) = status g
  ∧ winnerId (fst (spawnAppleIn random g n)) = winnerId g.
Proof.
  unfold spawnAppleIn.
  by destruct (spawn_loop _ _ _ _ _) as [[apple|] n'].
Qed.

(** *** The cases of a turn *)

Lemma tick_player_absent (i : nat) (g : GameState) (n : nat) :
  JsMap.values (players g) !! i = None ->
  tick_player random i (g, n) = (g, n).
Proof. intros Hp. unfold tick_player. by rewrite Hp. Qed.

Lemma tick_player_dead (i : nat) (g : GameState) (n : nat) (p : Player) :
  JsMap.values (players g) !! i = Some p ->
  isAlive (snake p) = false ->
  tick_player random i (g, n) = (g, n).
Proof. intros Hp Ha. unfold tick_player. by rewrite Hp, Ha. Qed.

Lemma tick_player_headless (i : nat) (g : GameState) (n : nat) (p : Player) :
  JsMap.values (players g) !! i = Some p ->
  isAlive (snake p) = true ->
  newHeadOf p = None ->
  tick_player random i (g, n) = (update_snake i applyQueuedDirection g, n).
Proof.
  intros Hp Ha Hh. unfold tick_player. rewrite Hp, Ha. simpl.
  unfold newHeadOf in Hh. by destruct (segments (snake p)).
Qed.

Lemma tick_player_blocked (i : nat) (g : GameState) (n : nat) (p : Player)
    (h : Position) :
  JsMap.values (players g) !! i = Some p ->
  isAlive (snake p) = true ->
  newHeadOf p = Some h ->
  blocked g p h = true ->
  tick_player random i (g, n)
  = (update_snake i (set_isAlive false) (update_snake i applyQueuedDirection g), n).
Proof.
  intros Hp Ha Hh Hb. unfold tick_player. rewrite Hp, Ha. cbn [negb].
  unfold newHeadOf in Hh. destruct (segments (snake p)) as [|head tl] eqn:Hs; [done|].
  injection Hh as Hh. cbv zeta. rewrite Hh, hitsOtherPlayer_applyQueuedDirection.
  unfold blocked in Hb. rewrite Hs in Hb.
  change (gridSize (update_snake i applyQueuedDirection g)) with (gridSize g).
  destruct (isOutOfBounds h (gridSize g)); [done|].
  destruct (collidesWithSnake h (head :: tl)); [done|].
  simpl in Hb. by rewrite Hb.
Qed.

Lemma tick_player_eats (i : nat) (g : GameState) (n : nat) (p : Player)
    (h : Position) (appleIndex : nat) :
  JsMap.values (players g) !! i = Some p ->
  isAlive (snake p) = true ->
  newHeadOf p = Some h ->
  blocked g p h = false ->
  findIndex (fun apple => same_cell apple h) (apples g) = Some appleIndex ->
  tick_player random i (g, n)
  = (update_snake i (unshift h)
       (fst (spawnAppleIn random
               (set_apples (delete appleIndex (apples g))
                           (update_snake i applyQueuedDirection g)) n)),
     snd (spawnAppleIn random
            (set_apples (delete appleIndex (apples g))
                        (update_snake i applyQueuedDirection g)) n)).
Proof.
  intros Hp Ha Hh Hb Hf. unfold tick_player. rewrite Hp, Ha. cbn [negb].
  unfold newHeadOf in Hh. destruct (segments (snake p)) as [|head tl] eqn:Hs; [done|].
  injection Hh as Hh. cbv zeta. rewrite Hh, hitsOtherPlayer_applyQueuedDirection.
  unfold blocked in Hb. rewrite Hs in Hb.
  apply orb_false_iff in Hb as [Hb Hb3]. apply orb_false_iff in Hb as [Hb1 Hb2].
  change (gridSize (update_snake i applyQueuedDirection g)) with (gridSize g).
  change (apples (update_snake i applyQueuedDirection g)) with (apples g).
  rewrite Hb1, Hb2, Hb3, Hf.
  by destruct (spawnAppleIn _ _ _).
Qed.

Lemma tick_player_moves (i : nat) (g : GameState) (n : nat) (p : Player)
    (h : Position) :
  JsMap.values (players g) !! i = Some p ->
  isAlive (snake p) = true ->
  newHeadOf p = Some h ->
  blocked g p h = false ->
  findIndex (fun apple => same_cell apple h) (apples g) = None ->
  tick_player random i (g, n)
  = (update_snake i (fun sn => pop (unshift h sn))
       (update_snake i applyQueuedDirection g), n).
Proof.
  intros Hp Ha Hh Hb Hf. unfold tick_player. rewrite Hp, Ha. cbn [negb].
  unfold newHeadOf in Hh. destruct (segments (snake p)) as [|head tl] eqn:Hs; [done|].
  injection Hh as Hh. cbv zeta. rewrite Hh, hitsOtherPlayer_applyQueuedDirection.
  unfold blocked in Hb. rewrite Hs in Hb.
  apply orb_false_iff in Hb as [Hb Hb3]. apply orb_false_iff in Hb as [Hb1 Hb2].
  change (gridSize (update_snake i applyQueuedDirection g)) with (gridSize g).
  change (apples (update_snake i applyQueuedDirection g)) with (apples g).
  by rewrite Hb1, Hb2, Hb3, Hf.
Qed.

End Turn.

(** Case analysis on the turn of the player at place [i] of [g]: the goal
    is split along the six ways that a turn can go, and [tick_player] is
    rewritten to what it returns in each. *)
Ltac turn_cases random i g n :=
  let p := fresh "p" in
  let h := fresh "h" in
  let k := fresh "appleIndex" in
  let Hp := fresh "Hp" in
  let Ha := fresh "Halive" in
  let Hh := fresh "Hhead" in
  let Hb := fresh "Hblocked" in
  let Hf := fresh "Hfind" in
  destruct (JsMap.values (players g) !! i) as [p|] eqn:Hp;
  [ destruct (isAlive (snake p)) eqn:Ha;
    [ destruct (newHeadOf p) as [h|] eqn:Hh;
      [ destruct (blocked g p h) eqn:Hb;
        [ rewrite (tick_player_blocked random i g n p h Hp Ha Hh Hb)
        | destruct (findIndex (fun apple => same_cell apple h) (apples g))
            as [k|] eqn:Hf;
          [ rewrite (tick_player_eats random i g n p h k Hp Ha Hh Hb Hf)
          | rewrite (tick_player_moves random i g n p h Hp Ha Hh Hb Hf) ] ]
      | rewrite (tick_player_headless random i g n p Hp Ha Hh) ]
    | rewrite (tick_player_dead random i g n p Hp Ha) ]
  | rewrite (tick_player_absent random i g n Hp) ].

(** ** What a turn changes *)

Lemma set_snake_same (p : Player) : set_snake (snake p) p = p.
Proof. by destruct p. Qed.

Lemma lookup_update_snake_eq (i : nat) (f : Snake -> Snake) (g : GameState) (p : Player) :
  JsMap.values (players g) !! i = Some p ->
  JsMap.values (players (update_snake i f g)) !! i = Some (set_snake (f (snake p)) p).
Proof.
  intros Hp. rewrite values_update_snake, list_lookup_alter_eq. by rewrite Hp.
Qed.

Lemma lookup_update_snake_ne (i j : nat) (f : Snake -> Snake) (g : GameState) :
  i ≠ j ->
  JsMap.values (players (update_snake i f g)) !! j = JsMap.values (players g) !! j.
Proof.
  intros Hne. rewrite values_update_snake. by apply list_lookup_alter_ne.
Qed.

Section TurnEffect.

Variable random : nat -> Z.

(** A turn keeps the grid, the status and the winner of the match, and
    the identifiers of the players. *)
Lemma tick_player_frame (i : nat) (s : GameState * nat) :
  gridSize (fst (tick_player random i s)) = gridSize (fst s)
  ∧ status (fst (tick_player random i s)) = status (fst s)
  ∧ winnerId (fst (tick_player random i s)) = winnerId (fst s)
  ∧ player_id <$> JsMap.values (players (fst (tick_player random i s)))
    = player_id <$> JsMap.values (players (fst s)).
Proof.
  destruct s as [g n]. turn_cases random i g n; cbn [fst];
    rewrite ?ids_update_snake; try done.
  set (g1 := set_apples _ _).
  destruct (spawnAppleIn_players random g1 n) as (Hpl & Hgrid & Hst & Hw).
  split_and!.
  - exact Hgrid.
  - exact Hst.
  - exact Hw.
  - rewrite Hpl. apply (ids_update_snake i applyQueuedDirection g).
Qed.

(** A turn leaves the other players as they are. *)
Lemma tick_player_other (i j : nat) (s : GameState * nat) :
  i ≠ j ->
  JsMap.values (players (fst (tick_player random i s))) !! j
  = JsMap.values (players (fst s)) !! j.
Proof.
  intros Hne. destruct s as [g n]. turn_cases random i g n; cbn [fst];
    rewrite ?lookup_update_snake_ne by done; try done.
  rewrite (proj1 (spawnAppleIn_players random _ n)).
  by apply (lookup_update_snake_ne i j applyQueuedDirection g).
Qed.

(** The player whose turn it is comes out with the snake that
    [turn_outcome] describes. *)
Lemma tick_player_self (i : nat) (g : GameState) (n : nat) (q : Player) :
  JsMap.values (players g) !! i = Some q ->
  ∃ sn, JsMap.values (players (fst (tick_player random i (g, n)))) !! i
        = Some (set_snake sn q)
        ∧ turn_outcome g q sn.
Proof.
  turn_cases random i g n; intros [= <-]; cbn [fst].
  - exists (set_isAlive false (applyQueuedDirection (snake p))).
    split; [|by eapply outcome_blocked].
    by rewrite (lookup_update_snake_eq _ _ _ _
                  (lookup_update_snake_eq _ applyQueuedDirection _ _ Hp)).
  - exists (unshift h (applyQueuedDirection (snake p))). split.
    + apply (lookup_update_snake_eq i (unshift h) _
               (set_snake (applyQueuedDirection (snake p)) p)).
      rewrite (proj1 (spawnAppleIn_players random _ n)).
      by apply (lookup_update_snake_eq i applyQueuedDirection g).
    + eapply outcome_eats; try done. apply findIndex_apple. eauto.
  - exists (pop (unshift h (applyQueuedDirection (snake p)))). split.
    + by rewrite (lookup_update_snake_eq _ _ _ _
                    (lookup_update_snake_eq _ applyQueuedDirection _ _ Hp)).
    + eapply outcome_moves; try done. intros Hin.
      apply findIndex_apple in Hin as [k Hk]. congruence.
  - exists (applyQueuedDirection (snake p)).
    split; [by apply lookup_update_snake_eq|]. by apply outcome_headless.
  - exists (snake p). rewrite set_snake_same. split; [done|]. by apply outcome_dead.
Qed.

(** *** The loop *)

Lemma tick_upto_0 (s : GameState * nat) : tick_upto random 0 s = s.
Proof. done. Qed.

Lemma tick_upto_S (i : nat) (s : GameState * nat) :
  tick_upto random (S i) s = tick_player random i (tick_upto random i s).
Proof. unfold tick_upto. by rewrite seq_S, foldl_app. Qed.

Lemma tick_upto_frame (i : nat) (s : GameState * nat) :
  gridSize (fst (tick_upto random i s)) = gridSize (fst s)
  ∧ status (fst (tick_upto random i s)) = status (fst s)
  ∧ winnerId (fst (tick_upto random i s)) = winnerId (fst s)
  ∧ player_id <$> JsMap.values (players (fst (tick_upto random i s)))
    = player_id <$> JsMap.values (players (fst s)).
Proof.
  induction i as [|i (IH1 & IH2 & IH3 & IH4)]; [done|].
  rewrite tick_upto_S.
  destruct (tick_player_frame i (tick_upto random i s)) as (H1 & H2 & H3 & H4).
  split_and!; congruence.
Qed.

(** The players that the loop has not reached are as before the tick. *)
Lemma tick_upto_later (i j : nat) (s : GameState * nat) :
  i ≤ j ->
  JsMap.values (players (fst (tick_upto random i s))) !! j
  = JsMap.values (players (fst s)) !! j.
Proof.
  induction i as [|i IH]; intros Hle; [done|].
  rewrite tick_upto_S, tick_player_other by lia. apply IH. lia.
Qed.

(** The players that the loop has passed stay as their turn left them. *)
Lemma tick_upto_settled (i k : nat) (s : GameState * nat) :
  i < k ->
  JsMap.values (players (fst (tick_upto random k s))) !! i
  = JsMap.values (players (fst (tick_player random i (tick_upto random i s)))) !! i.
Proof.
  induction k as [|k IH]; intros Hlt; [lia|].
  rewrite tick_upto_S. destruct (decide (i = k)) as [->|Hne]; [done|].
  rewrite tick_player_other by done. apply IH. lia.
Qed.

Lemma checkGameOver_players (g : GameState) :
  players (checkGameOver g) = players g
  ∧ apples (checkGameOver g) = apples g
  ∧ gridSize (checkGameOver g) = gridSize g.
Proof. unfold checkGameOver. by destruct (alivePlayers g) as [|? [|? ?]]. Qed.

Lemma tick_game_players (g : GameState) (n : nat) :
  players (fst (tick_game random (g, n)))
  = players (fst (tick_upto random (JsMap.size (players g)) (g, n))).
Proof.
  unfold tick_game. cbn [fst].
  destruct (tick_upto random _ _) as [g' n']. cbn [fst].
  apply checkGameOver_players.
Qed.

(** After the tick, every player has the snake with which its own turn
    left it, the turn having found the match as the turns of the
    players before it left it. *)
Lemma tick_game_player (i : nat) (g : GameState) (n : nat) (p : Player) :
  JsMap.values (players g) !! i = Some p ->
  ∃ sn, JsMap.values (players (fst (tick_game random (g, n)))) !! i
        = Some (set_snake sn p)
        ∧ turn_outcome (fst (tick_upto random i (g, n))) p sn.
Proof.
  intros Hp. rewrite tick_game_players.
  assert (i < JsMap.size (players g)) as Hlt.
  { apply lookup_lt_Some in Hp. unfold JsMap.values in Hp.
    by rewrite length_fmap in Hp. }
  rewrite tick_upto_settled by done.
  pose proof (tick_upto_later i i (g, n) (le_n i)) as Hmid.
  cbn [fst] in Hmid. rewrite Hp in Hmid.
  destruct (tick_upto random i (g, n)) as [mid m]. cbn [fst] in *.
  by apply tick_player_self.
Qed.

End TurnEffect.

(** ** Lists of lists without duplicates *)

Lemma elem_of_concat {A : Type} (c : A) (ls : list (list A)) :
  c ∈ concat ls ↔ ∃ i l, ls !! i = Some l ∧ c ∈ l.
Proof.
  rewrite list_elem_of_In, in_concat. split.
  - intros (l & Hl & Hc). apply list_elem_of_In, list_elem_of_lookup in Hl as [i Hi].
    exists i, l. split; [done|]. by apply list_elem_of_In.
  - intros (i & l & Hi & Hc). exists l. split.
    + apply list_elem_of_In. by eapply list_elem_of_lookup_2.
    + by apply list_elem_of_In.
Qed.

(** The concatenation has no duplicate exactly when no list has one and
    no two lists share an element. *)
Lemma NoDup_concat {A : Type} (ls : list (list A)) :
  NoDup (concat ls)
  ↔ (∀ i l, ls !! i = Some l -> NoDup l)
    ∧ (∀ i j l1 l2 c, i ≠ j -> ls !! i = Some l1 -> ls !! j = Some l2 ->
         c ∈ l1 -> c ∉ l2).
Proof.
  induction ls as [|l ls IH]; simpl.
  - split; [|intros; apply NoDup_nil_2]. intros _. split; intros; simplify_eq.
  - rewrite NoDup_app, IH. split.
    + intros (Hl & Hdisj & Hself & Hcross). split.
      * intros [|i] l'; simpl; [by intros [= <-]|]. apply Hself.
      * intros [|i] [|j] l1 l2 c Hne; simpl; try done.
        -- intros [= <-] Hj Hc1 Hc2. apply (Hdisj c Hc1).
           apply elem_of_concat. eauto.
        -- intros Hi [= <-] Hc1 Hc2. apply (Hdisj c Hc2).
           apply elem_of_concat. eauto.
        -- apply Hcross. congruence.
    + intros (Hself & Hcross). split_and!.
      * by apply (Hself 0).
      * intros c Hc1 Hc2. apply elem_of_concat in Hc2 as (j & l2 & Hj & Hc2).
        by apply (Hcross 0 (S j) l l2 c).
      * intros i l'. apply (Hself (S i)).
      * intros i j l1 l2 c Hne. apply (Hcross (S i) (S j)). congruence.
Qed.

Lemma removelast_sublist {A : Type} (l : list A) : removelast l `sublist_of` l.
Proof.
  induction l as [|a [|b l] IH]; simpl.
  - constructor.
  - by apply sublist_cons, sublist_nil_l.
  - by apply sublist_skip.
Qed.

(** ** Segments do not overlap *)

(** [no_overlap], player by player. *)
Lemma no_overlap_lookup (g : GameState) :
  no_overlap g
  ↔ (∀ i p, JsMap.values (players g) !! i = Some p -> NoDup (alive_segments p))
    ∧ (∀ i j p q c, i ≠ j ->
         JsMap.values (players g) !! i = Some p ->
         JsMap.values (players g) !! j = Some q ->
         c ∈ alive_segments p -> c ∉ alive_segments q).
Proof.
  unfold no_overlap. rewrite NoDup_concat. split.
  - intros (Hself & Hcross). split.
    + intros i p Hp. apply (Hself i). by rewrite list_lookup_fmap, Hp.
    + intros i j p q c Hne Hp Hq. apply (Hcross i j); [done| |].
      * by rewrite list_lookup_fmap, Hp.
      * by rewrite list_lookup_fmap, Hq.
  - intros (Hself & Hcross). split.
    + intros i l Hl. apply list_lookup_fmap_Some in Hl as (p & -> & Hp). eauto.
    + intros i j l1 l2 c Hne Hl1 Hl2.
      apply list_lookup_fmap_Some in Hl1 as (p & -> & Hp).
      apply list_lookup_fmap_Some in Hl2 as (q & -> & Hq). eauto.
Qed.

Lemma alive_segments_set_snake (sn : Snake) (p : Player) :
  alive_segments (set_snake sn p) = if isAlive sn then segments sn else [].
Proof. done. Qed.

(** The cells of a snake after its turn: its old cells, or a new head
    that is on none of its segments and on no living snake of another
    player. *)
Lemma turn_outcome_cells (g : GameState) (p : Player) (sn : Snake) :
  turn_outcome g p sn ->
  NoDup (alive_segments p) ->
  NoDup (alive_segments (set_snake sn p))
  ∧ ∀ c, c ∈ alive_segments (set_snake sn p) ->
         c ∈ alive_segments p
         ∨ hitsOtherPlayer p c (JsMap.values (players g)) = false.
Proof.
  intros Hturn Hnodup.
  assert (∀ h, isAlive (snake p) = true -> blocked g p h = false ->
     NoDup (segments (snake p))
     ∧ (h ∉ segments (snake p))
     ∧ hitsOtherPlayer p h (JsMap.values (players g)) = false) as Hfree.
  { intros h Ha Hb. unfold alive_segments in Hnodup. rewrite Ha in Hnodup.
    unfold blocked in Hb.
    apply orb_false_iff in Hb as [Hb Hb3]. apply orb_false_iff in Hb as [_ Hb2].
    by apply collidesWithSnake_false in Hb2. }
  assert (isAlive (snake p) = true -> alive_segments p = segments (snake p))
    as Hcells.
  { intros Ha. unfold alive_segments. by rewrite Ha. }
  destruct Hturn as [Ha | Ha Hh | h Ha Hh Hb | h Ha Hh Hb Happle | h Ha Hh Hb Happle].
  - rewrite set_snake_same. split; [done|]. intros c Hc. by left.
  - rewrite alive_segments_set_snake. cbn. rewrite Ha. unfold newHeadOf in Hh.
    destruct (segments (snake p)); [|done]. split; [apply NoDup_nil_2|].
    intros c Hc. by apply elem_of_nil in Hc.
  - rewrite alive_segments_set_snake. cbn.
    split; [apply NoDup_nil_2|]. intros c Hc. by apply elem_of_nil in Hc.
  - rewrite alive_segments_set_snake. cbn. rewrite Ha, Hcells by done.
    destruct (Hfree h Ha Hb) as (Hnd & Hnotin & Hhit). split.
    + by apply NoDup_cons_2.
    + intros c [->|Hc]%elem_of_cons; [by right|by left].
  - rewrite alive_segments_set_snake.
    cbn [isAlive segments pop unshift set_segments applyQueuedDirection
         set_direction].
    rewrite Ha, Hcells by done.
    destruct (Hfree h Ha Hb) as (Hnd & Hnotin & Hhit).
    assert (removelast (h :: segments (snake p))
              `sublist_of` (h :: segments (snake p)))
      as Hsub by apply removelast_sublist.
    split.
    + eapply sublist_NoDup; [|done]. by apply NoDup_cons_2.
    + intros c Hc. apply (elem_of_sublist _ _ _ Hc) in Hsub.
      apply elem_of_cons in Hsub as [->|Hc']; [by right|by left].
Qed.

Section NoOverlap.

Variable random : nat -> Z.

(** Every turn of the loop keeps the segments of the living snakes
    apart. *)
Lemma tick_player_no_overlap (i : nat) (s : GameState * nat) :
  distinct_ids (fst s) ->
  no_overlap (fst s) ->
  no_overlap (fst (tick_player random i s)).
Proof.
  destruct s as [g n]. cbn [fst]. intros Hids Hno.
  destruct (JsMap.values (players g) !! i) as [p|] eqn:Hp;
    [|by rewrite tick_player_absent].
  destruct (tick_player_self random i g n p Hp) as (sn & Hp' & Hturn).
  pose proof (fun j => tick_player_other random i j (g, n)) as Hother.
  cbn [fst] in Hother.
  set (g' := fst (tick_player random i (g, n))) in *.
  apply no_overlap_lookup in Hno as (Hself & Hcross).
  destruct (turn_outcome_cells g p sn Hturn (Hself i p Hp)) as (Hnodup & Hcells).
  assert (∀ j q c, i ≠ j -> JsMap.values (players g) !! j = Some q ->
            c ∈ alive_segments (set_snake sn p) -> c ∉ alive_segments q)
    as Hfresh.
  { intros j q c Hne Hq Hc. destruct (Hcells c Hc) as [Hold|Hhit].
    - by apply (Hcross i j p q c).
    - unfold alive_segments. destruct (isAlive (snake q)) eqn:Hqa;
        [|by apply not_elem_of_nil].
      intros Hcq.
      assert (hitsOtherPlayer p c (JsMap.values (players g)) = true) as Htrue;
        [|congruence].
      apply hitsOtherPlayer_true. exists q. split_and!; try done.
      + by eapply list_elem_of_lookup_2.
      + intros Hid. apply Hne.
        apply (NoDup_lookup _ i j (player_id p) Hids);
          rewrite list_lookup_fmap; [by rewrite Hp|rewrite Hq; simpl; congruence]. }
  apply no_overlap_lookup. split.
  - intros j q Hq. destruct (decide (i = j)) as [<-|Hne].
    + rewrite Hp' in Hq. by injection Hq as <-.
    + rewrite Hother in Hq by done. by apply (Hself j).
  - intros j k q r c Hjk Hq Hr.
    destruct (decide (i = j)) as [<-|Hij]; destruct (decide (i = k)) as [<-|Hik];
      try done.
    + rewrite Hp' in Hq. injection Hq as <-. rewrite Hother in Hr by done.
      by apply Hfresh with k.
    + rewrite Hp' in Hr. injection Hr as <-. rewrite Hother in Hq by done.
      intros Hc Hc'. by apply (Hfresh j q c).
    + rewrite Hother in Hq, Hr by done. by apply (Hcross j k).
Qed.

Lemma tick_upto_no_overlap (i : nat) (s : GameState * nat) :
  distinct_ids (fst s) ->
  no_overlap (fst s) ->
  no_overlap (fst (tick_upto random i s)).
Proof.
  intros Hids Hno. induction i as [|i IH]; [done|].
  rewrite tick_upto_S. apply tick_player_no_overlap; [|done].
  unfold distinct_ids. by rewrite (proj2 (proj2 (proj2 (tick_upto_frame random i s)))).
Qed.

(** C4. A tick keeps the invariant that no cell holds two segments of
    living snakes: when the players of a match that is [PLAYING] have
    distinct identifiers and the segments of its living snakes, taken
    together, have no duplicate, so it is of the match after [tick]. *)
Theorem tick_preserves_no_overlap (gameId : string) (st : Store) (game : GameState) :
  activeGames st !! gameId = Some game ->
  status game = PLAYING ->
  distinct_ids game ->
  no_overlap game ->
  ∃ st' game',
    tick random gameId st = (true, st')
    ∧ activeGames st' !! gameId = Some game'
    ∧ distinct_ids game'
    ∧ no_overlap game'.
Proof.
  intros Hgame Hstatus Hids Hno.
  rewrite (tick_playing random gameId st game Hgame Hstatus).
  eexists _, _. split; [done|]. cbn [activeGames].
  split; [by rewrite lookup_insert_eq|].
  unfold distinct_ids, no_overlap.
  rewrite tick_game_players.
  split.
  - by rewrite (proj2 (proj2 (proj2 (tick_upto_frame random _ (game, randomCalls st))))).
  - by apply (tick_upto_no_overlap _ (game, randomCalls st)).
Qed.

End NoOverlap.

(** ** The end of a tick *)

Section Termination.

Variable random : nat -> Z.

(** What [filter] keeps of a list, read place by place. *)
Lemma filter_nil_lookup {A} (f : A -> bool) (l : list A) (i : nat) (a : A) :
  List.filter f l = [] -> l !! i = Some a -> f a = false.
Proof.
  intros Hnil Hi. destruct (f a) eqn:Hf; [|done].
  assert (In a (List.filter f l)) as Hin.
  { apply filter_In. split; [|done].
    apply list_elem_of_In. by eapply list_elem_of_lookup_2. }
  rewrite Hnil in Hin. destruct Hin.
Qed.

Lemma filter_lookup_length {A} (f : A -> bool) (l : list A) (i j : nat) (a b : A) :
  i ≠ j -> l !! i = Some a -> l !! j = Some b -> f a = true -> f b = true ->
  2 ≤ length (List.filter f l).
Proof.
  assert (∀ (l0 : list A) k c, l0 !! k = Some c -> f c = true ->
            1 ≤ length (List.filter f l0)) as Hone.
  { intros l0 k c Hk Hc.
    assert (In c (List.filter f l0)) as Hin.
    { apply filter_In. split; [|done].
      apply list_elem_of_In. by eapply list_elem_of_lookup_2. }
    destruct (List.filter f l0); [destruct Hin|cbn; lia]. }
  revert i j. induction l as [|x l IH]; intros i j Hne Hi Hj Ha Hb; [done|].
  destruct i as [|i], j as [|j]; [done| | |].
  - cbn in Hi, Hj. simplify_eq. cbn [List.filter]. rewrite Ha. cbn.
    pose proof (Hone l j b Hj Hb). lia.
  - cbn in Hi, Hj. simplify_eq. cbn [List.filter]. rewrite Hb. cbn.
    pose proof (Hone l i a Hi Ha). lia.
  - cbn in Hi, Hj. assert (i ≠ j) as Hne' by lia.
    pose proof (IH i j Hne' Hi Hj Ha Hb) as Hlen.
    cbn [List.filter]. destruct (f x); cbn; lia.
Qed.

Lemma filter_cons_lookup {A} (f : A -> bool) (l : list A) (a : A) (r : list A) :
  List.filter f l = a :: r -> ∃ i, l !! i = Some a ∧ f a = true.
Proof.
  intros Hfilter.
  assert (In a (List.filter f l)) as Hin by (rewrite Hfilter; by left).
  apply filter_In in Hin as [Hin Hf].
  apply list_elem_of_In, list_elem_of_lookup_1 in Hin as [i Hi]. eauto.
Qed.

Lemma filter_two_lookup {A} (f : A -> bool) (l : list A) (a b : A) (r : list A) :
  List.filter f l = a :: b :: r ->
  ∃ i j, i ≠ j ∧ l !! i = Some a ∧ l !! j = Some b ∧ f a = true ∧ f b = true.
Proof.
  induction l as [|x l IH]; [done|]. cbn [List.filter].
  destruct (f x) eqn:Hx.
  - intros Heq. injection Heq as -> Hrest.
    destruct (filter_cons_lookup f l b r Hrest) as (j & Hj & Hb).
    exists 0, (S j). by split_and!.
  - intros Heq. destruct (IH Heq) as (i & j & Hne & Hi & Hj & Ha & Hb).
    exists (S i), (S j). split_and!; try done. lia.
Qed.

(** C2. After the turns of a tick of a match that is [PLAYING] and has
    no winner yet, the snakes being read in the match as the tick leaves
    it: with no snake alive the match is [FINISHED] and still has no
    winner; with the snake of one player alive and no other the match is
    [FINISHED] and [winnerId] is the identifier of that player; with the
    snakes of two players alive it stays [PLAYING] without a winner. *)
Theorem tick_termination (gameId : string) (st : Store) (game : GameState) :
  activeGames st !! gameId = Some game ->
  status game = PLAYING ->
  winnerId game = None ->
  ∃ st' game',
    tick random gameId st = (true, st')
    ∧ activeGames st' !! gameId = Some game'
    ∧ ((∀ i p, JsMap.values (players game') !! i = Some p ->
               isAlive (snake p) = false) ->
         status game' = FINISHED ∧ winnerId game' = None)
    ∧ (∀ i p, alive_at game' i p ->
         (∀ j q, alive_at game' j q -> j = i) ->
         status game' = FINISHED ∧ winnerId game' = Some (player_id p))
    ∧ (∀ i j p q, i ≠ j -> alive_at game' i p -> alive_at game' j q ->
         status game' = PLAYING ∧ winnerId game' = None).
Proof.
  intros Hgame Hstatus Hwinner.
  rewrite (tick_playing random gameId st game Hgame Hstatus).
  eexists _, _. split; [done|]. cbn [activeGames].
  split; [by rewrite lookup_insert_eq|].
  unfold tick_game. cbn [fst].
  destruct (tick_upto_frame random (JsMap.size (players game))
              (game, randomCalls st)) as (_ & Hst & Hw & _).
  destruct (tick_upto random _ _) as [g' n']. cbn [fst] in *.
  rewrite Hstatus in Hst. rewrite Hwinner in Hw.
  unfold alive_at. rewrite (proj1 (checkGameOver_players g')).
  unfold checkGameOver, alivePlayers.
  set (alive := fun p : Player => isAlive (snake p)).
  destruct (List.filter alive (JsMap.values (players g')))
    as [|a [|b r]] eqn:Hfilter; cbn [status winnerId set_status set_winnerId].
  - split_and!; [done| |].
    + intros i p [Hi Hp] _.
      pose proof (filter_nil_lookup alive _ i p Hfilter Hi) as Hdead.
      unfold alive in Hdead. congruence.
    + intros i j p q _ [Hi Hp] _.
      pose proof (filter_nil_lookup alive _ i p Hfilter Hi) as Hdead.
      unfold alive in Hdead. congruence.
  - destruct (filter_cons_lookup alive _ a [] Hfilter) as (k & Hk & Ha).
    split_and!.
    + intros Hall. specialize (Hall k a Hk). unfold alive in Ha. congruence.
    + intros i p [Hi Hp] Honly.
      assert (k = i) as -> by (apply (Honly k a); by split).
      rewrite Hk in Hi. by simplify_eq.
    + intros i j p q Hne [Hi Hp] [Hj Hq].
      pose proof (filter_lookup_length alive _ i j p q Hne Hi Hj Hp Hq) as Hlen.
      rewrite Hfilter in Hlen. cbn in Hlen. lia.
  - destruct (filter_two_lookup alive _ a b r Hfilter)
      as (i0 & j0 & Hne0 & Hi0 & Hj0 & Ha & Hb).
    split_and!.
    + intros Hall. specialize (Hall i0 a Hi0). unfold alive in Ha. congruence.
    + intros i p _ Honly.
      assert (i0 = i) by (apply (Honly i0 a); by split).
      assert (j0 = i) by (apply (Honly j0 b); by split).
      congruence.
    + done.
Qed.

End Termination.

(** ** Collisions and growth, player by player *)

Lemma length_removelast_cons {A : Type} (a : A) (l : list A) :
  length (removelast (a :: l)) = length l.
Proof.
  revert a. induction l as [|b l IH]; intros a; [done|].
  change (S (length (removelast (b :: l))) = S (length l)).
  by rewrite IH.
Qed.

Lemma blocked_true (g : GameState) (p : Player) (h : Position) :
  blocked g p h = true
  ↔ isOutOfBounds h (gridSize g) = true
    ∨ h ∈ segments (snake p)
    ∨ ∃ q, q ∈ JsMap.values (players g) ∧ player_id q ≠ player_id p
           ∧ isAlive (snake q) = true ∧ h ∈ segments (snake q).
Proof.
  unfold blocked.
  rewrite !orb_true_iff, collidesWithSnake_true, hitsOtherPlayer_true.
  tauto.
Qed.

Section Players.

Variable random : nat -> Z.

(** The match when the loop of a tick reaches the player at place [i]:
    the players from [i] on are as before the tick, the players before
    [i] are as they are after it. *)
Lemma tick_upto_players (i : nat) (g : GameState) (n : nat) :
  i < JsMap.size (players g) ->
  (∀ j, i ≤ j ->
     JsMap.values (players (fst (tick_upto random i (g, n)))) !! j
     = JsMap.values (players g) !! j)
  ∧ (∀ j, j < i ->
     JsMap.values (players (fst (tick_upto random i (g, n)))) !! j
     = JsMap.values (players (fst (tick_game random (g, n)))) !! j).
Proof.
  intros Hlt. split.
  - intros j Hle. by apply (tick_upto_later random i j (g, n)).
  - intros j Hj. rewrite tick_game_players.
    rewrite !tick_upto_settled by lia. done.
Qed.

(** C1, as the code has it. In a tick of a match that is [PLAYING], a
    living snake with a head is dead after the tick exactly when the
    cell [h] that its head moves to is off the grid, or is one of its
    own segments, or is a segment of a living snake of another player
    in the match as the loop finds it at the turn of the snake. In
    that match the players whose turn comes later are as before the
    tick, and the players whose turn came earlier are as after the
    tick: only the snake that moves first is checked against the
    segments that its opponent had before the tick. *)
Theorem tick_collision_in_turn_order
    (gameId : string) (st : Store) (game : GameState)
    (i : nat) (p : Player) (h : Position) :
  activeGames st !! gameId = Some game ->
  status game = PLAYING ->
  JsMap.values (players game) !! i = Some p ->
  isAlive (snake p) = true ->
  newHeadOf p = Some h ->
  ∃ st' game' p',
    tick random gameId st = (true, st')
    ∧ activeGames st' !! gameId = Some game'
    ∧ JsMap.values (players game') !! i = Some p'
    ∧ (isAlive (snake p') = false
       ↔ isOutOfBounds h (gridSize game) = true
         ∨ h ∈ segments (snake p)
         ∨ ∃ q, q ∈ JsMap.values
                      (players (fst (tick_upto random i (game, randomCalls st))))
                ∧ player_id q ≠ player_id p
                ∧ isAlive (snake q) = true
                ∧ h ∈ segments (snake q))
    ∧ (∀ j, i ≤ j ->
         JsMap.values (players (fst (tick_upto random i (game, randomCalls st)))) !! j
         = JsMap.values (players game) !! j)
    ∧ (∀ j, j < i ->
         JsMap.values (players (fst (tick_upto random i (game, randomCalls st)))) !! j
         = JsMap.values (players game') !! j).
Proof.
  intros Hgame Hstatus Hp Halive Hhead.
  rewrite (tick_playing random gameId st game Hgame Hstatus).
  destruct (tick_game_player random i game (randomCalls st) p Hp)
    as (sn & Hp' & Hturn).
  assert (i < JsMap.size (players game)) as Hlt.
  { apply lookup_lt_Some in Hp. unfold JsMap.values in Hp.
    by rewrite length_fmap in Hp. }
  destruct (tick_upto_players i game (randomCalls st) Hlt) as (Hlater & Hearlier).
  eexists _, _, _. split; [done|]. cbn [activeGames].
  split; [by rewrite lookup_insert_eq|]. split; [exact Hp'|].
  split; [|done].
  pose proof (proj1 (tick_upto_frame random i (game, randomCalls st))) as Hgrid.
  cbn [fst] in Hgrid. rewrite <- Hgrid, <- blocked_true. cbn [snake set_snake].
  destruct Hturn as [Ha | Ha Hh | h' Ha Hh Hb | h' Ha Hh Hb _ | h' Ha Hh Hb _];
    simplify_eq; cbn; rewrite ?Hb; try done; try congruence.
  all: rewrite Halive; split; congruence.
Qed.

(** C3. In a tick of a match that is [PLAYING], a snake that is alive
    before the tick and after it has one segment more when the cell
    that its head moves to holds an apple, and as many segments as
    before otherwise. The apples are those of the match when the loop
    reaches the snake: the apples before the tick for the snake that
    moves first, and for a later one the apples as the snakes before it
    left them. *)
Theorem tick_segment_count
    (gameId : string) (st : Store) (game : GameState) (i : nat) (p : Player) :
  activeGames st !! gameId = Some game ->
  status game = PLAYING ->
  JsMap.values (players game) !! i = Some p ->
  isAlive (snake p) = true ->
  ∃ st' game' p',
    tick random gameId st = (true, st')
    ∧ activeGames st' !! gameId = Some game'
    ∧ JsMap.values (players game') !! i = Some p'
    ∧ player_id p' = player_id p
    ∧ (isAlive (snake p') = true ->
       (∀ h, newHeadOf p = Some h ->
             h ∈ apples (fst (tick_upto random i (game, randomCalls st))) ->
             length (segments (snake p')) = S (length (segments (snake p))))
       ∧ ((∀ h, newHeadOf p = Some h ->
                h ∉ apples (fst (tick_upto random i (game, randomCalls st)))) ->
          length (segments (snake p')) = length (segments (snake p)))).
Proof.
  intros Hgame Hstatus Hp Halive.
  rewrite (tick_playing random gameId st game Hgame Hstatus).
  destruct (tick_game_player random i game (randomCalls st) p Hp)
    as (sn & Hp' & Hturn).
  eexists _, _, _. split; [done|]. cbn [activeGames].
  split; [by rewrite lookup_insert_eq|]. split; [exact Hp'|].
  split; [done|]. cbn [snake set_snake]. intros Halive'.
  destruct Hturn as [Ha | Ha Hh | h' Ha Hh Hb | h' Ha Hh Hb Happle | h' Ha Hh Hb Happle].
  - congruence.
  - split; [intros h Hh'; congruence|done].
  - done.
  - split; [done|]. intros Hnone. by destruct (Hnone h' Hh).
  - split.
    + intros h Hh' Hin. by simplify_eq.
    + intros _. apply length_removelast_cons.
Qed.

End Players.

(** ** Apples *)

Lemma cell_key_inj (a b : Position) : cell_key a = cell_key b -> a = b.
Proof. destruct a, b. by intros [= -> ->]. Qed.

(** A cell that [occupiedPositions] does not hold is the cell of no apple
    and of no segment of any snake of the match. *)
Lemma occupiedPositions_free (g : GameState) (a : Position) :
  cell_key a ∉ occupiedPositions g ->
  (a ∉ apples g)
  ∧ ∀ p, p ∈ JsMap.values (players g) -> a ∉ segments (snake p).
Proof.
  unfold occupiedPositions. rewrite not_elem_of_union, !elem_of_list_to_set.
  intros [Hseg Happle]. split.
  - intros Hin. apply Happle, list_elem_of_fmap. eauto.
  - intros p Hp Hin. apply Hseg, list_elem_of_fmap. exists a. split; [done|].
    apply list_elem_of_In, in_concat. exists (segments (snake p)). split.
    + apply list_elem_of_In, list_elem_of_fmap. eauto.
    + by apply list_elem_of_In.
Qed.

Section Apples.

Variable random : nat -> Z.

Lemma spawn_loop_free (remaining : nat) (occupied : gset (Z * Z))
    (grid : GridSize) (n n' : nat) (a : Apple) :
  spawn_loop random remaining occupied grid n = (Some a, n') ->
  cell_key a ∉ occupied.
Proof.
  revert n. induction remaining as [|r IH]; intros n; simpl; [done|].
  case_bool_decide as Hocc; [apply IH|]. by intros [= <- _].
Qed.

(** [spawnApple] adds no apple, or one at the end of the list, on a
    cell that holds no apple and no segment when it is called. *)
Lemma spawnAppleIn_apples (g : GameState) (n : nat) :
  apples (fst (spawnAppleIn random g n)) = apples g
  ∨ ∃ a, apples (fst (spawnAppleIn random g n)) = apples g ++ [a]
         ∧ (a ∉ apples g)
         ∧ ∀ p, p ∈ JsMap.values (players g) -> a ∉ segments (snake p).
Proof.
  unfold spawnAppleIn.
  destruct (spawn_loop _ _ _ _ _) as [[a|] n'] eqn:Hloop; [|by left].
  right. exists a. split; [done|].
  by eapply occupiedPositions_free, spawn_loop_free.
Qed.

(** The apples after the turn of a snake that eats: the eaten apple is
    taken out of the list and at most one apple is added at its end, so
    that the list is as long as before, or one shorter when no free
    cell was drawn. *)
Lemma tick_player_eats_apples (i : nat) (g : GameState) (n : nat) (p : Player)
    (h : Position) (appleIndex : nat) :
  JsMap.values (players g) !! i = Some p ->
  isAlive (snake p) = true ->
  newHeadOf p = Some h ->
  blocked g p h = false ->
  findIndex (fun apple => same_cell apple h) (apples g) = Some appleIndex ->
  apples g !! appleIndex = Some h
  ∧ (apples (fst (tick_player random i (g, n))) = delete appleIndex (apples g)
     ∨ ∃ a, apples (fst (tick_player random i (g, n)))
            = delete appleIndex (apples g) ++ [a]).
Proof.
  intros Hp Ha Hh Hb Hf.
  rewrite (tick_player_eats random i g n p h appleIndex Hp Ha Hh Hb Hf).
  split.
  - apply findIndex_Some in Hf as (a & Hlookup & Hsame).
    apply same_cell_true in Hsame. by subst a.
  - cbn [fst]. set (g1 := set_apples _ _).
    change (apples (update_snake i (unshift h) (fst (spawnAppleIn random g1 n))))
      with (apples (fst (spawnAppleIn random g1 n))).
    destruct (spawnAppleIn_apples g1 n) as [->|(a & -> & _)]; [by left|].
    right. by exists a.
Qed.

End Apples.

(** ** The pairing queue *)

Lemma NoDup_delete_lookup {A : Type} (l : list A) (k : nat) (a : A) :
  NoDup l -> l !! k = Some a -> a ∉ delete k l.
Proof.
  intros Hnd. revert k. induction Hnd as [|b l Hb Hnd IH]; intros [|k]; simpl; try done.
  - by intros [= <-].
  - intros Hk [->|Ha]%elem_of_cons.
    + apply Hb. by eapply list_elem_of_lookup_2.
    + by apply (IH k).
Qed.

Lemma removeEntry_sublist (pid : string)
    (queue : list MatchmakingService.WaitingPlayer) :
  MatchmakingService.removeEntry pid queue `sublist_of` queue.
Proof.
  unfold MatchmakingService.removeEntry.
  destruct (findIndex _ queue); [apply sublist_delete|done].
Qed.

Lemma removeEntry_absent (pid : string)
    (queue : list MatchmakingService.WaitingPlayer) :
  pid ∉ queue_ids queue ->
  MatchmakingService.removeEntry pid queue = queue.
Proof.
  intros Hno. unfold MatchmakingService.removeEntry.
  destruct (findIndex _ queue) as [k|] eqn:Hk; [|done].
  apply findIndex_Some in Hk as (e & He & Hpid).
  apply bool_decide_eq_true in Hpid. destruct Hno.
  apply list_elem_of_fmap. exists e. split; [done|].
  by eapply list_elem_of_lookup_2.
Qed.

(** With one entry a player at most, no entry of the player is left once
    [removeEntry] has run. *)
Lemma removeEntry_removes (pid : string)
    (queue : list MatchmakingService.WaitingPlayer) :
  NoDup (queue_ids queue) ->
  pid ∉ queue_ids (MatchmakingService.removeEntry pid queue).
Proof.
  intros Hnd. unfold MatchmakingService.removeEntry.
  destruct (findIndex _ queue) as [k|] eqn:Hk.
  - apply findIndex_Some in Hk as (e & He & Hpid).
    apply bool_decide_eq_true in Hpid. unfold queue_ids.
    rewrite list_fmap_delete. apply NoDup_delete_lookup; [done|].
    by rewrite list_lookup_fmap, He, <- Hpid.
  - rewrite findIndex_None in Hk. intros Hin.
    apply list_elem_of_fmap in Hin as (e & -> & He).
    specialize (Hk e He). by apply bool_decide_eq_false in Hk.
Qed.

Lemma removeEntry_NoDup (pid : string)
    (queue : list MatchmakingService.WaitingPlayer) :
  NoDup (queue_ids queue) ->
  NoDup (queue_ids (MatchmakingService.removeEntry pid queue)).
Proof.
  intros Hnd. eapply sublist_NoDup; [done|].
  apply fmap_sublist, removeEntry_sublist.
Qed.

Lemma addPlayer_joins (gameId pid sid : string) (uname : option string)
    (st : Store) (game : GameState) :
  activeGames st !! gameId = Some game ->
  JsMap.size (players game) < 2 ->
  addPlayer gameId pid sid uname st
  = (Some (mkPlayer pid sid (default ""%string uname)
             (createInitialSnake (JsMap.size (players game))) false),
     set_activeGames
       (<[gameId :=
            set_players
              (JsMap.set pid
                 (mkPlayer pid sid (default ""%string uname)
                    (createInitialSnake (JsMap.size (players game))) false)
                 (players game))
              game]> (activeGames st))
       st).
Proof.
  intros Hgame Hsize. unfold addPlayer. rewrite Hgame.
  by rewrite bool_decide_eq_false_2 by lia.
Qed.

Section Pairing.

Variable uuidv4 : nat -> string.

(** [findMatch] with somebody else waiting. *)
Lemma findMatch_pairs (pid sid : string) (uname : option string)
    (st : MatchmakingService.State)
    (opponent : MatchmakingService.WaitingPlayer)
    (rest : list MatchmakingService.WaitingPlayer) :
  MatchmakingService.removeEntry pid (MatchmakingService.waitingPlayers st)
  = opponent :: rest ->
  MatchmakingService.playerId opponent ≠ pid ->
  MatchmakingService.findMatch uuidv4 pid sid uname st
  = (Some (uuidv4 (MatchmakingService.uuidCalls st)),
     MatchmakingService.mkState rest
       (S (MatchmakingService.uuidCalls st))
       (mkStore
          (<[uuidv4 (MatchmakingService.uuidCalls st) :=
               pairedGame (uuidv4 (MatchmakingService.uuidCalls st))
                          opponent pid sid uname]>
             (activeGames (MatchmakingService.games st)))
          (randomCalls (MatchmakingService.games st)))).
Proof.
  intros Hqueue Hne. unfold MatchmakingService.findMatch. rewrite Hqueue.
  unfold createGame. cbv beta iota zeta.
  erewrite addPlayer_joins; [|apply lookup_insert_eq|cbn; lia].
  erewrite addPlayer_joins; [|apply lookup_insert_eq|cbn; lia].
  unfold set_activeGames. cbn [activeGames randomCalls].
  rewrite !insert_insert_eq. do 4 f_equal.
  unfold pairedGame, set_players. cbn.
  by rewrite decide_False by done.
Qed.

(** [findMatch] with nobody else waiting. *)
Lemma findMatch_waits (pid sid : string) (uname : option string)
    (st : MatchmakingService.State) :
  MatchmakingService.removeEntry pid (MatchmakingService.waitingPlayers st) = [] ->
  MatchmakingService.findMatch uuidv4 pid sid uname st
  = (None,
     MatchmakingService.mkState
       [MatchmakingService.mkWaitingPlayer pid sid (default ""%string uname)]
       (MatchmakingService.uuidCalls st)
       (MatchmakingService.games st)).
Proof.
  intros Hqueue. unfold MatchmakingService.findMatch. by rewrite Hqueue.
Qed.

Lemma findMatch_NoDup (pid sid : string) (uname : option string)
    (st : MatchmakingService.State) :
  NoDup (queue_ids (MatchmakingService.waitingPlayers st)) ->
  NoDup (queue_ids (MatchmakingService.waitingPlayers
                      (snd (MatchmakingService.findMatch uuidv4 pid sid uname st)))).
Proof.
  intros Hnd.
  pose proof (removeEntry_NoDup pid _ Hnd) as Hnd'.
  pose proof (removeEntry_removes pid _ Hnd) as Hout.
  destruct (MatchmakingService.removeEntry pid
              (MatchmakingService.waitingPlayers st)) as [|opponent rest] eqn:Hq.
  - rewrite findMatch_waits by done. cbn. apply NoDup_singleton.
  - rewrite (findMatch_pairs pid sid uname st opponent rest Hq).
    + cbn. by apply NoDup_cons in Hnd' as [_ ?].
    + intros Heq. apply Hout. rewrite <- Heq. cbn. by left.
Qed.

Lemma reachable_NoDup (st : MatchmakingService.State) :
  MatchmakingService.reachable uuidv4 st ->
  NoDup (queue_ids (MatchmakingService.waitingPlayers st)).
Proof.
  induction 1 as [gs | st pid sid uname _ IH | st pid _ IH | st gs _ IH].
  - apply NoDup_nil_2.
  - by apply findMatch_NoDup.
  - by apply removeEntry_NoDup.
  - done.
Qed.

(** C6. With the entries [A] then [B] waiting and a request of a
    player with no entry in the queue, [findMatch] returns the
    identifier of a new match, of which the first player is [A] and the
    second is the player who asks, and leaves [B] alone in the queue. *)
Theorem findMatch_pairs_oldest (pid sid : string) (uname : option string)
    (st : MatchmakingService.State) (A B : MatchmakingService.WaitingPlayer) :
  MatchmakingService.waitingPlayers st = [A; B] ->
  MatchmakingService.playerId A ≠ pid ->
  MatchmakingService.playerId B ≠ pid ->
  ∃ st' game p0 p1,
    MatchmakingService.findMatch uuidv4 pid sid uname st
    = (Some (uuidv4 (MatchmakingService.uuidCalls st)), st')
    ∧ MatchmakingService.waitingPlayers st' = [B]
    ∧ activeGames (MatchmakingService.games st')
        !! uuidv4 (MatchmakingService.uuidCalls st) = Some game
    ∧ status game = WAITING
    ∧ players game = [(MatchmakingService.playerId A, p0); (pid, p1)]
    ∧ player_id p0 = MatchmakingService.playerId A
    ∧ socketId p0 = MatchmakingService.socketId A
    ∧ snake p0 = createInitialSnake 0
    ∧ player_id p1 = pid
    ∧ socketId p1 = sid
    ∧ snake p1 = createInitialSnake 1.
Proof.
  intros Hqueue HA HB.
  assert (MatchmakingService.removeEntry pid
            (MatchmakingService.waitingPlayers st) = [A; B]) as Hq.
  { rewrite Hqueue. apply removeEntry_absent. cbn.
    intros [?|[?|?%elem_of_nil]%elem_of_cons]%elem_of_cons; congruence. }
  rewrite (findMatch_pairs pid sid uname st A [B] Hq HA).
  eexists _, _, _, _. split; [done|]. cbn. split; [done|].
  rewrite lookup_insert_eq. split; [done|]. done.
Qed.

(** C10. In every state that the module can reach, no two entries of
    the queue are of the same player; a call of [findMatch] has no
    entry of the player who asks left in the queue when it looks for
    an opponent; and the match that it forms has two players, with
    distinct identifiers, the second being the player who asks. *)
Theorem findMatch_never_pairs_with_self (st : MatchmakingService.State) :
  MatchmakingService.reachable uuidv4 st ->
  NoDup (queue_ids (MatchmakingService.waitingPlayers st))
  ∧ ∀ pid sid uname,
      (pid ∉ queue_ids (MatchmakingService.removeEntry pid
                         (MatchmakingService.waitingPlayers st)))
      ∧ ∀ gameId st',
          MatchmakingService.findMatch uuidv4 pid sid uname st
          = (Some gameId, st') ->
          ∃ game p0 p1,
            activeGames (MatchmakingService.games st') !! gameId = Some game
            ∧ JsMap.values (players game) = [p0; p1]
            ∧ player_id p1 = pid
            ∧ player_id p0 ≠ player_id p1.
Proof.
  intros Hreach. pose proof (reachable_NoDup st Hreach) as Hnd.
  split; [done|]. intros pid sid uname.
  pose proof (removeEntry_removes pid _ Hnd) as Hout.
  split; [done|]. intros gameId st' Hfind.
  destruct (MatchmakingService.removeEntry pid
              (MatchmakingService.waitingPlayers st)) as [|opponent rest] eqn:Hq.
  - by rewrite findMatch_waits in Hfind.
  - assert (MatchmakingService.playerId opponent ≠ pid) as Hne.
    { intros Heq. apply Hout. rewrite <- Heq. cbn. by left. }
    rewrite (findMatch_pairs pid sid uname st opponent rest Hq Hne) in Hfind.
    injection Hfind as <- <-. eexists _, _, _. cbn.
    rewrite lookup_insert_eq. split; [done|]. cbn. done.
Qed.

End Pairing.

(** ** The registry stays well formed *)

Lemma game_wf_distinct_ids (g : GameState) : game_wf g -> distinct_ids g.
Proof.
  intros (Hkeys & Hids & _). unfold distinct_ids, JsMap.values.
  rewrite <- list_fmap_compose.
  replace ((player_id ∘ snd) <$> players g) with (JsMap.keys (players g)); [done|].
  unfold JsMap.keys. apply Forall_fmap_ext_1.
  eapply Forall_impl; [exact Hids|]. intros e He. by rewrite <- He.
Qed.

Lemma keys_set {V : Type} (k : string) (v : V) (m : JsMap.t V) :
  JsMap.keys (JsMap.set k v m)
  = if bool_decide (k ∈ JsMap.keys m) then JsMap.keys m else JsMap.keys m ++ [k].
Proof.
  induction m as [|[k' v'] m IH]; [done|]. simpl JsMap.set.
  change (JsMap.keys ((k', v') :: m)) with (k' :: JsMap.keys m).
  destruct (decide (k' = k)) as [->|Hne].
  - rewrite bool_decide_eq_true_2; [done|]. by left.
  - change (k' :: JsMap.keys (JsMap.set k v m)
            = if bool_decide (k ∈ k' :: JsMap.keys m)
              then k' :: JsMap.keys m else (k' :: JsMap.keys m) ++ [k]).
    rewrite IH. destruct (bool_decide (k ∈ JsMap.keys m)) eqn:Hin.
    + apply bool_decide_eq_true in Hin.
      rewrite bool_decide_eq_true_2; [done|]. by right.
    + apply bool_decide_eq_false in Hin.
      rewrite bool_decide_eq_false_2; [done|].
      intros [?|?]%elem_of_cons; congruence.
Qed.

Lemma set_NoDup_keys {V : Type} (k : string) (v : V) (m : JsMap.t V) :
  NoDup (JsMap.keys m) -> NoDup (JsMap.keys (JsMap.set k v m)).
Proof.
  intros Hnd. rewrite keys_set. case_bool_decide as Hin; [done|].
  apply NoDup_app. split_and!; [done| |apply NoDup_singleton].
  intros k' Hk' ->%list_elem_of_singleton. done.
Qed.

Lemma set_Forall {V : Type} (P : string * V -> Prop) (k : string) (v : V)
    (m : JsMap.t V) :
  P (k, v) -> Forall P m -> Forall P (JsMap.set k v m).
Proof.
  intros Hkv. induction 1 as [|[k' v'] m Hx Hm IH]; simpl.
  - by apply Forall_singleton.
  - destruct (decide (k' = k)); by apply Forall_cons.
Qed.

Lemma delete_wf {V : Type} (P : string * V -> Prop) (k : string) (m : JsMap.t V) :
  NoDup (JsMap.keys m) -> Forall P m ->
  NoDup (JsMap.keys (JsMap.delete k m)) ∧ Forall P (JsMap.delete k m).
Proof.
  intros Hnd Hall.
  assert (JsMap.delete k m `sublist_of` m) as Hsub.
  { unfold JsMap.delete. clear. induction m as [|e m IH]; simpl; [done|].
    destruct (negb _); [by apply sublist_skip|by apply sublist_cons]. }
  split.
  - eapply sublist_NoDup; [done|]. by apply fmap_sublist.
  - apply Forall_forall. intros e He.
    apply (proj1 (Forall_forall _ _) Hall). by eapply elem_of_sublist.
Qed.

Lemma update_snake_wf (i : nat) (f : Snake -> Snake) (g : GameState) :
  game_wf g -> game_wf (update_snake i f g).
Proof.
  intros (Hkeys & Hids & Hwin). split_and!; [|..|done].
  - by rewrite keys_update_snake.
  - unfold update_snake. cbn [players set_players].
    apply Forall_alter; [done|]. by intros [k p].
Qed.

(** What a field of a match that is neither its player map, its status
    nor its winner holds does not matter. *)
Lemma game_wf_ext (g g' : GameState) :
  players g' = players g -> status g' = status g -> winnerId g' = winnerId g ->
  game_wf g -> game_wf g'.
Proof. unfold game_wf. by intros -> -> ->. Qed.

Lemma registry_wf_insert (gameId : string) (g : GameState) (st : Store) (n : nat) :
  registry_wf st -> game_wf g ->
  registry_wf (mkStore (<[gameId := g]> (activeGames st)) n).
Proof.
  intros Hst Hg id g'. cbn [activeGames]. rewrite lookup_insert.
  case_decide; [by intros [= <-]|]. apply Hst.
Qed.

Lemma registry_wf_delete (gameId : string) (st : Store) (n : nat) :
  registry_wf st -> registry_wf (mkStore (delete gameId (activeGames st)) n).
Proof.
  intros Hst id g'. cbn [activeGames]. rewrite lookup_delete.
  case_decide; [done|]. apply Hst.
Qed.

Lemma registry_wf_empty (n : nat) : registry_wf (mkStore ∅ n).
Proof. intros id g. cbn [activeGames]. by rewrite lookup_empty. Qed.

Lemma createGame_wf (gameId : string) (st : Store) :
  registry_wf st -> registry_wf (snd (createGame gameId st)).
Proof.
  intros Hst. apply registry_wf_insert; [done|].
  split_and!; cbn; [apply NoDup_nil_2|apply Forall_nil_2|done].
Qed.

Lemma deleteGame_wf (gameId : string) (st : Store) :
  registry_wf st -> registry_wf (deleteGame gameId st).
Proof. apply registry_wf_delete. Qed.

Lemma addPlayer_wf (gameId pid sid : string) (uname : option string) (st : Store) :
  registry_wf st -> registry_wf (snd (addPlayer gameId pid sid uname st)).
Proof.
  intros Hst. unfold addPlayer.
  destruct (activeGames st !! gameId) as [g|] eqn:Hg; [|done].
  case_bool_decide; [done|]. apply registry_wf_insert; [done|].
  destruct (Hst gameId g Hg) as (Hkeys & Hids & Hwin).
  split_and!; cbn [players set_players status winnerId]; [| |done].
  - by apply set_NoDup_keys.
  - by apply set_Forall.
Qed.

Lemma removePlayer_wf (gameId pid : string) (st : Store) :
  registry_wf st -> registry_wf (removePlayer gameId pid st).
Proof.
  intros Hst. unfold removePlayer.
  destruct (activeGames st !! gameId) as [g|] eqn:Hg; [|done].
  destruct (Hst gameId g Hg) as (Hkeys & Hids & Hwin).
  destruct (delete_wf _ pid (players g) Hkeys Hids) as (Hkeys' & Hids').
  assert (registry_wf
            (set_activeGames
               (<[gameId := set_players (JsMap.delete pid (players g)) g]>
                  (activeGames st)) st)) as Hst'.
  { by apply registry_wf_insert. }
  case_bool_decide; [by apply registry_wf_delete|done].
Qed.

Lemma changeDirection_wf (gameId pid : string) (d : Direction) (st : Store) :
  registry_wf st -> registry_wf (changeDirection gameId pid d st).
Proof.
  intros Hst. unfold changeDirection.
  destruct (activeGames st !! gameId) as [g|] eqn:Hg; [|done].
  destruct (negb _); [done|].
  destruct (JsMap.get pid (players g)) as [p|] eqn:Hp; [|done].
  destruct (negb _); [done|]. destruct (isOppositeDirection _ _); [done|].
  apply registry_wf_insert; [done|].
  destruct (Hst gameId g Hg) as (Hkeys & Hids & Hwin).
  split_and!; cbn [players set_players status winnerId]; [| |done].
  - by apply set_NoDup_keys.
  - apply set_Forall; [|done]. cbn.
    unfold JsMap.get in Hp. destruct (find _ (players g)) as [[k q]|] eqn:Hfind;
      [|done].
    injection Hp as ->. apply find_some in Hfind as [Hin Hk].
    apply bool_decide_eq_true in Hk. cbn in Hk. subst k.
    apply list_elem_of_In in Hin.
    by apply (proj1 (Forall_forall _ _) Hids _ Hin).
Qed.

Section WellFormed.

Variable random : nat -> Z.

Lemma spawnApple_wf (gameId : string) (st : Store) :
  registry_wf st -> registry_wf (spawnApple random gameId st).
Proof.
  intros Hst. unfold spawnApple.
  destruct (activeGames st !! gameId) as [g|] eqn:Hg; [|done].
  destruct (spawnAppleIn_players random g (randomCalls st)) as (Hpl & _ & Hs & Hw).
  destruct (spawnAppleIn random g (randomCalls st)) as [g' n'].
  apply registry_wf_insert; [done|]. by apply (game_wf_ext g), (Hst gameId).
Qed.

Lemma startGame_wf (gameId : string) (st : Store) :
  registry_wf st -> registry_wf (startGame random gameId st).
Proof.
  intros Hst. unfold startGame.
  destruct (activeGames st !! gameId) as [g|] eqn:Hg; [|done].
  case_bool_decide as Hstatus; [|done]. cbn [negb].
  do 2 apply spawnApple_wf. apply registry_wf_insert; [done|].
  destruct (Hst gameId g Hg) as (Hkeys & Hids & Hwin).
  split_and!; [done|done|]. intros _. apply Hwin. by rewrite Hstatus.
Qed.

Lemma tick_player_wf (i : nat) (s : GameState * nat) :
  game_wf (fst s) -> game_wf (fst (tick_player random i s)).
Proof.
  destruct s as [g n]. cbn [fst]. intros Hg.
  turn_cases random i g n; cbn [fst]; try done;
    repeat apply update_snake_wf; try done.
  set (g1 := set_apples _ _).
  destruct (spawnAppleIn_players random g1 n) as (Hpl & _ & Hs & Hw).
  apply (game_wf_ext (update_snake i applyQueuedDirection g)); try done.
  by apply update_snake_wf.
Qed.

Lemma tick_wf (gameId : string) (st : Store) :
  registry_wf st -> registry_wf (snd (tick random gameId st)).
Proof.
  intros Hst. unfold tick.
  destruct (activeGames st !! gameId) as [g|] eqn:Hg; [|done].
  case_bool_decide as Hstatus; [|done]. cbn [negb].
  unfold tick_game. cbn [fst].
  assert (game_wf (fst (tick_upto random (JsMap.size (players g))
                          (g, randomCalls st)))) as Hwf.
  { induction (JsMap.size (players g)) as [|k IH]; [by apply (Hst gameId)|].
    rewrite tick_upto_S. by apply tick_player_wf. }
  destruct (tick_upto random _ _) as [g' n']. cbn [fst snd] in *.
  apply registry_wf_insert; [done|].
  destruct Hwf as (Hkeys & Hids & Hwin).
  unfold checkGameOver. destruct (alivePlayers g') as [|p [|q l]]; done.
Qed.

End WellFormed.

(** The match that [findMatch] forms is well formed, and its two snakes
    do not overlap. *)
Lemma pairedGame_wf (gameId : string) (opponent : MatchmakingService.WaitingPlayer)
    (pid sid : string) (uname : option string) :
  MatchmakingService.playerId opponent ≠ pid ->
  game_wf (pairedGame gameId opponent pid sid uname)
  ∧ no_overlap (pairedGame gameId opponent pid sid uname).
Proof.
  intros Hne. split.
  - split_and!; cbn; [|by repeat constructor|done].
    apply NoDup_cons. split; [|apply NoDup_singleton].
    by intros Heq%list_elem_of_singleton.
  - unfold no_overlap. compute_done.
Qed.

(** ** The player map *)

Lemma get_set_eq {V : Type} (k : string) (v : V) (m : JsMap.t V) :
  JsMap.get k (JsMap.set k v m) = Some v.
Proof.
  unfold JsMap.get. induction m as [|[k' v'] m IH]; simpl.
  - by rewrite bool_decide_eq_true_2.
  - destruct (decide (k' = k)) as [->|Hne]; simpl.
    + by rewrite bool_decide_eq_true_2.
    + by rewrite bool_decide_eq_false_2.
Qed.

Lemma get_set_ne {V : Type} (k k' : string) (v : V) (m : JsMap.t V) :
  k' ≠ k -> JsMap.get k' (JsMap.set k v m) = JsMap.get k' m.
Proof.
  intros Hne. unfold JsMap.get. induction m as [|[k0 v0] m IH]; simpl.
  - by rewrite bool_decide_eq_false_2.
  - destruct (decide (k0 = k)) as [->|Hne0]; simpl.
    + by rewrite !bool_decide_eq_false_2 by done.
    + destruct (bool_decide (k0 = k')); [done|]. apply IH.
Qed.

Lemma get_delete_eq {V : Type} (k : string) (m : JsMap.t V) :
  JsMap.get k (JsMap.delete k m) = None.
Proof.
  unfold JsMap.get, JsMap.delete. induction m as [|[k' v'] m IH]; simpl; [done|].
  destruct (bool_decide (k' = k)) eqn:Hk; simpl; [done|]. by rewrite Hk.
Qed.

Lemma get_delete_ne {V : Type} (k k' : string) (m : JsMap.t V) :
  k' ≠ k -> JsMap.get k' (JsMap.delete k m) = JsMap.get k' m.
Proof.
  intros Hne. unfold JsMap.get, JsMap.delete.
  induction m as [|[k0 v0] m IH]; simpl; [done|].
  destruct (bool_decide (k0 = k)) eqn:Hk; simpl.
  - apply bool_decide_eq_true in Hk. subst k0.
    by rewrite bool_decide_eq_false_2 by done.
  - destruct (bool_decide (k0 = k')); [done|]. apply IH.
Qed.

Lemma get_None {V : Type} (k : string) (m : JsMap.t V) :
  JsMap.get k m = None ↔ k ∉ JsMap.keys m.
Proof.
  unfold JsMap.get, JsMap.keys. induction m as [|[k' v'] m IH]; simpl.
  - split; [|done]. intros _. apply not_elem_of_nil.
  - rewrite not_elem_of_cons. case_bool_decide as Hk; simpl.
    + split; [done|]. by intros [? _].
    + rewrite IH. split; [intros ?; split; [congruence|done]|by intros [_ ?]].
Qed.

Lemma size_set {V : Type} (k : string) (v : V) (m : JsMap.t V) :
  JsMap.size (JsMap.set k v m)
  = if bool_decide (k ∈ JsMap.keys m) then JsMap.size m else S (JsMap.size m).
Proof.
  unfold JsMap.size. rewrite <- !(length_fmap fst).
  change (fst <$> JsMap.set k v m) with (JsMap.keys (JsMap.set k v m)).
  rewrite keys_set. change (fst <$> m) with (JsMap.keys m).
  case_bool_decide; [done|]. rewrite length_app. simpl. lia.
Qed.

Lemma delete_delete {V : Type} (k : string) (m : JsMap.t V) :
  JsMap.delete k (JsMap.delete k m) = JsMap.delete k m.
Proof.
  unfold JsMap.delete. induction m as [|[k' v'] m IH]; simpl; [done|].
  destruct (bool_decide (k' = k)) eqn:Hk; simpl; [done|].
  by rewrite Hk, IH.
Qed.

Lemma set_set {V : Type} (k : string) (v w : V) (m : JsMap.t V) :
  JsMap.set k w (JsMap.set k v m) = JsMap.set k w m.
Proof.
  induction m as [|[k' v'] m IH]; simpl.
  - by rewrite decide_True.
  - destruct (decide (k' = k)) as [->|Hne]; simpl.
    + by rewrite decide_True.
    + by rewrite decide_False, IH.
Qed.

(** ** Joining and leaving a match *)

(** X1. [addPlayer] on a match that the registry does not have, or that
    has two players already, returns [null] and changes nothing. *)
Theorem addPlayer_rejected (gameId pid sid : string) (uname : option string)
    (st : Store) :
  (activeGames st !! gameId = None
   ∨ ∃ game, activeGames st !! gameId = Some game
             ∧ 2 ≤ JsMap.size (players game)) ->
  addPlayer gameId pid sid uname st = (None, st).
Proof.
  unfold addPlayer. intros [-> | (game & -> & Hfull)]; [done|].
  by rewrite bool_decide_eq_true_2.
Qed.

(** X2. [addPlayer] on a match with fewer than two players returns the
    new player, whose snake is the initial snake of its seat (the number
    of players before it), not ready, with the empty name when none is
    given. The match of the registry then has the player under its
    identifier and the other players as before; the status, the apples,
    the other matches and the random oracle are untouched. The status of
    the match is not looked at. *)
Theorem addPlayer_joined (gameId pid sid : string) (uname : option string)
    (st : Store) (game : GameState) :
  activeGames st !! gameId = Some game ->
  JsMap.size (players game) < 2 ->
  ∃ player game',
    addPlayer gameId pid sid uname st
    = (Some player,
       mkStore (<[gameId := game']> (activeGames st)) (randomCalls st))
    ∧ player = mkPlayer pid sid (default ""%string uname)
                 (createInitialSnake (JsMap.size (players game))) false
    ∧ JsMap.get pid (players game') = Some player
    ∧ (∀ other, other ≠ pid ->
         JsMap.get other (players game') = JsMap.get other (players game))
    ∧ JsMap.size (players game')
      = (if bool_decide (pid ∈ JsMap.keys (players game))
         then JsMap.size (players game) else S (JsMap.size (players game)))
    ∧ status game' = status game
    ∧ apples game' = apples game
    ∧ gridSize game' = gridSize game
    ∧ winnerId game' = winnerId game.
Proof.
  intros Hgame Hsize. rewrite (addPlayer_joins _ _ _ _ _ _ Hgame Hsize).
  eexists _, _. split; [done|]. split; [done|].
  cbn [players set_players status apples gridSize winnerId].
  split_and!; try done.
  - apply get_set_eq.
  - intros other Hne. by apply get_set_ne.
  - apply size_set.
Qed.

(** X3. A player who joins the match where it is the only player takes
    its own place: the match still has one player, whose snake is now the
    initial snake of the second seat. *)
Theorem addPlayer_rejoins (gameId pid sid : string) (uname : option string)
    (st : Store) (game : GameState) (old : Player) :
  activeGames st !! gameId = Some game ->
  players game = [(pid, old)] ->
  ∃ game',
    activeGames (snd (addPlayer gameId pid sid uname st)) !! gameId = Some game'
    ∧ players game'
      = [(pid, mkPlayer pid sid (default ""%string uname)
                 (createInitialSnake 1) false)].
Proof.
  intros Hgame Hplayers.
  rewrite (addPlayer_joins _ _ _ _ _ _ Hgame) by (rewrite Hplayers; cbn; lia).
  eexists. cbn [snd activeGames set_activeGames]. rewrite lookup_insert_eq.
  split; [done|]. cbn [players set_players]. rewrite Hplayers. cbn.
  by rewrite decide_True.
Qed.

(** X4. [removePlayer] takes the player out of the match and keeps the
    others; the match is deleted from the registry exactly when no player
    is left in it, also when the player was not in the match. The other
    matches are untouched, and a match that the registry does not have
    makes the call a no-op. *)
Theorem removePlayer_effect (gameId pid : string) (st : Store) :
  (activeGames st !! gameId = None -> removePlayer gameId pid st = st)
  ∧ ∀ game, activeGames st !! gameId = Some game ->
      JsMap.get pid (JsMap.delete pid (players game)) = None
      ∧ (∀ other, other ≠ pid ->
           JsMap.get other (JsMap.delete pid (players game))
           = JsMap.get other (players game))
      ∧ activeGames (removePlayer gameId pid st) !! gameId
        = (if bool_decide (JsMap.delete pid (players game) = [])
           then None
           else Some (set_players (JsMap.delete pid (players game)) game))
      ∧ (∀ other, other ≠ gameId ->
           activeGames (removePlayer gameId pid st) !! other
           = activeGames st !! other)
      ∧ randomCalls (removePlayer gameId pid st) = randomCalls st.
Proof.
  unfold removePlayer. split; [by intros ->|]. intros game ->.
  split; [apply get_delete_eq|]. split; [intros; by apply get_delete_ne|].
  cbn [players set_players]. unfold JsMap.size.
  destruct (JsMap.delete pid (players game)) as [|e rest].
  - rewrite (bool_decide_eq_true_2 (length [] = 0)) by done.
    rewrite bool_decide_eq_true_2 by done.
    unfold deleteGame, set_activeGames. cbn [activeGames randomCalls].
    split_and!; [by rewrite lookup_delete_eq| |done].
    intros other Hne. by rewrite lookup_delete_ne, lookup_insert_ne.
  - rewrite (bool_decide_eq_false_2 (length (e :: rest) = 0)) by done.
    rewrite bool_decide_eq_false_2 by done.
    unfold set_activeGames. cbn [activeGames randomCalls].
    split_and!; [by rewrite lookup_insert_eq| |done].
    intros other Hne. by rewrite lookup_insert_ne.
Qed.

(** X5. [removePlayer] twice is [removePlayer] once. *)
Theorem removePlayer_idempotent (gameId pid : string) (st : Store) :
  removePlayer gameId pid (removePlayer gameId pid st)
  = removePlayer gameId pid st.
Proof.
  destruct (activeGames st !! gameId) as [game|] eqn:Hgame.
  - destruct (bool_decide (JsMap.size (JsMap.delete pid (players game)) = 0))
      eqn:Hempty.
    + assert (removePlayer gameId pid st
              = deleteGame gameId
                  (set_activeGames
                     (<[gameId := set_players (JsMap.delete pid (players game)) game]>
                        (activeGames st)) st)) as ->.
      { unfold removePlayer. rewrite Hgame. cbn [players set_players].
        by rewrite Hempty. }
      unfold removePlayer, deleteGame, set_activeGames. cbn [activeGames].
      by rewrite lookup_delete_eq.
    + assert (removePlayer gameId pid st
              = set_activeGames
                  (<[gameId := set_players (JsMap.delete pid (players game)) game]>
                     (activeGames st)) st) as ->.
      { unfold removePlayer. rewrite Hgame. cbn [players set_players].
        by rewrite Hempty. }
      unfold removePlayer, set_activeGames. cbn [activeGames randomCalls].
      rewrite lookup_insert_eq. cbn [players set_players].
      rewrite delete_delete, Hempty.
      by rewrite insert_insert_eq.
  - assert (removePlayer gameId pid st = st) as Hnoop.
    { unfold removePlayer. by rewrite Hgame. }
    by rewrite !Hnoop.
Qed.

(** ** Spawning apples and starting a match *)

Section Spawning.

Variable random : nat -> Z.

(** [Math.floor (Math.random () * n)] is a whole number from [0] to
    [n - 1]. *)
Lemma random_floor_range (k : nat) (n : Z) :
  (0 < n)%Z -> (0 ≤ random_floor random k n < n)%Z.
Proof.
  intros Hn. unfold random_floor.
  pose proof (Z.mod_pos_bound (random k) (2 ^ 53) ltac:(done)) as Hmod.
  set (a := (random k `mod` 2 ^ 53)%Z) in *. split.
  - apply Z.div_pos; [nia|done].
  - apply Z.div_lt_upper_bound; [done|nia].
Qed.

Lemma spawn_loop_calls (remaining : nat) (occupied : gset (Z * Z))
    (grid : GridSize) (n : nat) :
  match spawn_loop random remaining occupied grid n with
  | (Some _, n') => n < n' ≤ n + 2 * remaining
  | (None, n') => n' = n + 2 * remaining
  end.
Proof.
  revert n. induction remaining as [|r IH]; intros n; simpl; [lia|].
  case_bool_decide; [|lia].
  specialize (IH (S (S n))).
  destruct (spawn_loop random r occupied grid (S (S n))) as [[a|] n']; lia.
Qed.

Lemma spawn_loop_in_grid (remaining : nat) (occupied : gset (Z * Z))
    (grid : GridSize) (n n' : nat) (a : Apple) :
  (0 < width grid)%Z -> (0 < height grid)%Z ->
  spawn_loop random remaining occupied grid n = (Some a, n') ->
  in_grid grid a.
Proof.
  intros Hw Hh. revert n. induction remaining as [|r IH]; intros n; simpl; [done|].
  case_bool_decide; [apply IH|]. intros [= <- _].
  pose proof (random_floor_range n _ Hw). pose proof (random_floor_range (S n) _ Hh).
  unfold in_grid, isOutOfBounds. cbn [x y].
  rewrite !bool_decide_eq_false_2 by lia. done.
Qed.

(** While every cell of the grid is taken, the loop gives up after its
    last attempt. *)
Lemma spawn_loop_full (remaining : nat) (occupied : gset (Z * Z))
    (grid : GridSize) (n : nat) :
  (0 < width grid)%Z -> (0 < height grid)%Z ->
  (∀ cx cy, (0 ≤ cx < width grid)%Z -> (0 ≤ cy < height grid)%Z ->
            (cx, cy) ∈ occupied) ->
  spawn_loop random remaining occupied grid n = (None, n + 2 * remaining).
Proof.
  intros Hw Hh Hfull. revert n.
  induction remaining as [|r IH]; intros n; simpl; [f_equal; lia|].
  rewrite bool_decide_eq_true_2.
  - rewrite IH. f_equal. lia.
  - apply Hfull; by apply random_floor_range.
Qed.

Lemma spawnApple_lookup (gameId : string) (st : Store) (game : GameState) :
  activeGames st !! gameId = Some game ->
  spawnApple random gameId st
  = mkStore (<[gameId := fst (spawnAppleIn random game (randomCalls st))]>
               (activeGames st))
            (snd (spawnAppleIn random game (randomCalls st))).
Proof.
  intros Hgame. unfold spawnApple. rewrite Hgame.
  by destruct (spawnAppleIn random game (randomCalls st)).
Qed.

(** What one call of [spawnApple] does to a match. *)
Lemma spawnAppleIn_spec (g : GameState) (n : nat) :
  (0 < width (gridSize g))%Z -> (0 < height (gridSize g))%Z ->
  (fst (spawnAppleIn random g n) = g
   ∧ snd (spawnAppleIn random g n) = n + 200)
  ∨ ∃ a, fst (spawnAppleIn random g n) = set_apples (apples g ++ [a]) g
         ∧ n < snd (spawnAppleIn random g n) ≤ n + 200
         ∧ in_grid (gridSize g) a
         ∧ (a ∉ apples g)
         ∧ ∀ p, p ∈ JsMap.values (players g) -> a ∉ segments (snake p).
Proof.
  intros Hw Hh. unfold spawnAppleIn.
  pose proof (spawn_loop_calls maxAttempts (occupiedPositions g) (gridSize g) n)
    as Hcalls.
  destruct (spawn_loop _ _ _ _ _) as [[a|] n'] eqn:Hloop; cbn [fst snd].
  - right. exists a. unfold maxAttempts in Hcalls. split_and!; try done; try lia.
    + by eapply spawn_loop_in_grid.
    + by eapply occupiedPositions_free, spawn_loop_free.
    + by eapply occupiedPositions_free, spawn_loop_free.
  - left. unfold maxAttempts in Hcalls. split; [done|lia].
Qed.

(** X6. [spawnApple] on a match of the registry, on a grid with cells:
    either the hundred attempts all drew a taken cell, the match is as
    before and [Math.random] was called 200 times; or one apple is
    added at the end of the apple list, inside the grid, on a cell
    that held no apple and no segment of any snake, dead or alive,
    after at most 200 calls of [Math.random]. The players, the status
    and the other matches are untouched. *)
Theorem spawnApple_effect (gameId : string) (st : Store) (game : GameState) :
  activeGames st !! gameId = Some game ->
  (0 < width (gridSize game))%Z ->
  (0 < height (gridSize game))%Z ->
  (spawnApple random gameId st
   = mkStore (<[gameId := game]> (activeGames st)) (randomCalls st + 200))
  ∨ ∃ a n',
      spawnApple random gameId st
      = mkStore (<[gameId := set_apples (apples game ++ [a]) game]>
                   (activeGames st)) n'
      ∧ randomCalls st < n' ≤ randomCalls st + 200
      ∧ in_grid (gridSize game) a
      ∧ (a ∉ apples game)
      ∧ ∀ p, p ∈ JsMap.values (players game) -> a ∉ segments (snake p).
Proof.
  intros Hgame Hw Hh. rewrite (spawnApple_lookup _ _ _ Hgame).
  destruct (spawnAppleIn_spec game (randomCalls st) Hw Hh)
    as [[-> ->] | (a & -> & Hcalls & Hrest)]; [by left|].
  right. by exists a, (snd (spawnAppleIn random game (randomCalls st))).
Qed.

(** X7. On a grid of which every cell holds an apple or a segment,
    [spawnApple] adds no apple: it gives up after a hundred attempts,
    that is 200 calls of [Math.random], and the match is as before. *)
Theorem spawnApple_full_grid (gameId : string) (st : Store) (game : GameState) :
  activeGames st !! gameId = Some game ->
  (0 < width (gridSize game))%Z ->
  (0 < height (gridSize game))%Z ->
  (∀ cx cy, (0 ≤ cx < width (gridSize game))%Z ->
            (0 ≤ cy < height (gridSize game))%Z ->
            (cx, cy) ∈ occupiedPositions game) ->
  spawnApple random gameId st
  = mkStore (<[gameId := game]> (activeGames st)) (randomCalls st + 200).
Proof.
  intros Hgame Hw Hh Hfull. rewrite (spawnApple_lookup _ _ _ Hgame).
  unfold spawnAppleIn. by rewrite spawn_loop_full.
Qed.

Lemma startGame_noop (gameId : string) (st : Store) :
  (activeGames st !! gameId = None
   ∨ ∃ game, activeGames st !! gameId = Some game ∧ status game ≠ WAITING) ->
  startGame random gameId st = st.
Proof.
  intros Hcase. unfold startGame.
  destruct (activeGames st !! gameId) as [game|] eqn:Hgame; [|done].
  destruct Hcase as [? | (game0 & [= <-] & Hstatus)]; [done|].
  by rewrite bool_decide_eq_false_2.
Qed.

(** X8. [startGame] does nothing to a match that is not [WAITING], or
    that the registry does not have; so starting a match twice is
    starting it once. *)
Theorem startGame_ignored (gameId : string) (st : Store) :
  (activeGames st !! gameId = None
   ∨ ∃ game, activeGames st !! gameId = Some game ∧ status game ≠ WAITING) ->
  startGame random gameId st = st.
Proof.
  unfold startGame. intros [-> | (game & -> & Hstatus)]; [done|].
  by rewrite bool_decide_eq_false_2.
Qed.

Lemma startGame_waiting (gameId : string) (st : Store) (game : GameState) :
  activeGames st !! gameId = Some game ->
  status game = WAITING ->
  startGame random gameId st
  = mkStore
      (<[gameId :=
           fst (spawnAppleIn random
                  (fst (spawnAppleIn random (set_status PLAYING game)
                          (randomCalls st)))
                  (snd (spawnAppleIn random (set_status PLAYING game)
                          (randomCalls st))))]> (activeGames st))
      (snd (spawnAppleIn random
              (fst (spawnAppleIn random (set_status PLAYING game)
                      (randomCalls st)))
              (snd (spawnAppleIn random (set_status PLAYING game)
                      (randomCalls st))))).
Proof.
  intros Hgame Hstatus. unfold startGame. rewrite Hgame.
  rewrite bool_decide_eq_true_2 by done. cbn [negb].
  erewrite (spawnApple_lookup gameId (set_activeGames _ _));
    [|apply lookup_insert_eq].
  erewrite spawnApple_lookup; [|apply lookup_insert_eq].
  cbn [activeGames randomCalls set_activeGames].
  by rewrite !insert_insert_eq.
Qed.

(** X9. [startGame] on a match that is [WAITING], whatever the number
    of its players and whether they are ready: the match is [PLAYING],
    its players are as before, and at most two apples are added at the
    end of its apple list, on distinct cells inside the grid that held
    no apple and no segment of a snake. *)
Theorem startGame_started (gameId : string) (st : Store) (game : GameState) :
  activeGames st !! gameId = Some game ->
  status game = WAITING ->
  (0 < width (gridSize game))%Z ->
  (0 < height (gridSize game))%Z ->
  ∃ game' new,
    activeGames (startGame random gameId st) !! gameId = Some game'
    ∧ status game' = PLAYING
    ∧ players game' = players game
    ∧ gridSize game' = gridSize game
    ∧ winnerId game' = winnerId game
    ∧ apples game' = apples game ++ new
    ∧ length new ≤ 2
    ∧ NoDup new
    ∧ (∀ a, a ∈ new ->
         in_grid (gridSize game) a
         ∧ (a ∉ apples game)
         ∧ ∀ p, p ∈ JsMap.values (players game) -> a ∉ segments (snake p))
    ∧ randomCalls st ≤ randomCalls (startGame random gameId st)
      ≤ randomCalls st + 400.
Proof.
  intros Hgame Hstatus Hw Hh. rewrite (startGame_waiting _ _ _ Hgame Hstatus).
  cbn [activeGames randomCalls]. rewrite lookup_insert_eq.
  set (g1 := set_status PLAYING game).
  destruct (spawnAppleIn_spec g1 (randomCalls st) Hw Hh)
    as [[-> ->] | (a & -> & Hn1 & Hin1 & Hfresh1 & Hseg1)].
  - destruct (spawnAppleIn_spec g1 (randomCalls st + 200) Hw Hh)
      as [[-> ->] | (b & -> & Hn2 & Hin2 & Hfresh2 & Hseg2)].
    + exists g1, []. rewrite app_nil_r.
      split_and!; try done; try (cbn; lia); try apply NoDup_nil_2.
      intros a Ha. by apply elem_of_nil in Ha.
    + eexists _, [b].
      split_and!; try done; try (cbn; lia); try apply NoDup_singleton.
      by intros a ->%list_elem_of_singleton.
  - set (g2 := set_apples (apples g1 ++ [a]) g1).
    destruct (spawnAppleIn_spec g2 (snd (spawnAppleIn random g1 (randomCalls st)))
                Hw Hh)
      as [[-> ->] | (b & -> & Hn2 & Hin2 & Hfresh2 & Hseg2)].
    + eexists _, [a].
      split_and!; try done; try (cbn; lia); try apply NoDup_singleton.
      by intros c ->%list_elem_of_singleton.
    + exists (set_apples (apples g2 ++ [b]) g2), [a; b].
      cbn [apples set_apples g2 g1 set_status] in *.
      rewrite not_elem_of_app, list_elem_of_singleton in Hfresh2.
      split_and!; try done; try (cbn; lia).
      * by rewrite <- app_assoc.
      * apply NoDup_cons. split; [|apply NoDup_singleton].
        intros ->%list_elem_of_singleton. by destruct Hfresh2.
      * intros c [->|Hc%list_elem_of_singleton]%elem_of_cons; [done|].
        subst c. by destruct Hfresh2.
Qed.

End Spawning.

(** ** Buffered direction changes *)

Lemma changeDirection_accepts (gameId pid : string) (d : Direction)
    (st : Store) (game : GameState) (player : Player) :
  activeGames st !! gameId = Some game ->
  status game = PLAYING ->
  JsMap.get pid (players game) = Some player ->
  isAlive (snake player) = true ->
  isOppositeDirection (direction (snake player)) d = false ->
  changeDirection gameId pid d st
  = mkStore
      (<[gameId :=
           set_players
             (JsMap.set pid (set_snake (set_nextDirection d (snake player)) player)
                        (players game))
             game]> (activeGames st))
      (randomCalls st).
Proof.
  intros Hgame Hstatus Hplayer Halive Hopp. unfold changeDirection.
  rewrite Hgame, Hplayer, Halive, Hopp.
  by rewrite bool_decide_eq_true_2 by done.
Qed.

(** X10. [changeDirection] does nothing when the registry does not have
    the match, when the match is not [PLAYING], when the match does not
    have the player, or when the snake of the player is dead. *)
Theorem changeDirection_ignored (gameId pid : string) (d : Direction) (st : Store) :
  (activeGames st !! gameId = None
   ∨ ∃ game, activeGames st !! gameId = Some game
             ∧ (status game ≠ PLAYING
                ∨ JsMap.get pid (players game) = None
                ∨ ∃ player, JsMap.get pid (players game) = Some player
                            ∧ isAlive (snake player) = false)) ->
  changeDirection gameId pid d st = st.
Proof.
  unfold changeDirection.
  intros [-> | (game & -> & [Hstatus | [-> | (player & -> & ->)]])]; try done.
  - by rewrite bool_decide_eq_false_2.
  - by destruct (negb _).
  - by destruct (negb _).
Qed.

(** X11. A request that is not the reverse of the direction of a living
    snake of a match that is [PLAYING] is buffered: [nextDirection] of
    the snake is the requested direction, while its direction, its
    segments and its life are as before, as are the other players, their
    order, the apples and the status of the match. *)
Theorem changeDirection_buffered (gameId pid : string) (d : Direction)
    (st : Store) (game : GameState) (player : Player) :
  activeGames st !! gameId = Some game ->
  status game = PLAYING ->
  JsMap.get pid (players game) = Some player ->
  isAlive (snake player) = true ->
  d ≠ opposite (direction (snake player)) ->
  ∃ game' player',
    activeGames (changeDirection gameId pid d st) !! gameId = Some game'
    ∧ JsMap.get pid (players game') = Some player'
    ∧ nextDirection (snake player') = d
    ∧ direction (snake player') = direction (snake player)
    ∧ segments (snake player') = segments (snake player)
    ∧ isAlive (snake player') = true
    ∧ player_id player' = player_id player
    ∧ (∀ other, other ≠ pid ->
         JsMap.get other (players game') = JsMap.get other (players game))
    ∧ JsMap.keys (players game') = JsMap.keys (players game)
    ∧ apples game' = apples game
    ∧ status game' = PLAYING
    ∧ winnerId game' = winnerId game.
Proof.
  intros Hgame Hstatus Hplayer Halive Hd.
  assert (isOppositeDirection (direction (snake player)) d = false) as Hopp.
  { destruct (isOppositeDirection _ d) eqn:Hopp; [|done].
    by apply isOppositeDirection_true in Hopp. }
  rewrite (changeDirection_accepts _ _ _ _ _ _ Hgame Hstatus Hplayer Halive Hopp).
  cbn [activeGames]. rewrite lookup_insert_eq. eexists _, _. split; [done|].
  cbn [players set_players apples status winnerId].
  split; [apply get_set_eq|]. split_and!; try done.
  - intros other Hne. by apply get_set_ne.
  - rewrite keys_set, bool_decide_eq_true_2; [done|].
    destruct (decide (pid ∈ JsMap.keys (players game))) as [|Hno]; [done|].
    apply get_None in Hno. congruence.
Qed.

(** X12. Of two requests for the same living snake before a tick, the
    later one wins when it is not the reverse of the direction of the
    snake, and is dropped otherwise: a request is measured against the
    direction of the snake, not against the request buffered before. *)
Theorem changeDirection_twice (gameId pid : string) (d1 d2 : Direction)
    (st : Store) (game : GameState) (player : Player) :
  activeGames st !! gameId = Some game ->
  status game = PLAYING ->
  JsMap.get pid (players game) = Some player ->
  isAlive (snake player) = true ->
  changeDirection gameId pid d2 (changeDirection gameId pid d1 st)
  = if isOppositeDirection (direction (snake player)) d2
    then changeDirection gameId pid d1 st
    else changeDirection gameId pid d2 st.
Proof.
  intros Hgame Hstatus Hplayer Halive.
  destruct (isOppositeDirection (direction (snake player)) d1) eqn:Hopp1.
  - assert (changeDirection gameId pid d1 st = st) as ->.
    { unfold changeDirection. rewrite Hgame, Hplayer, Halive, Hopp1.
      by rewrite bool_decide_eq_true_2 by done. }
    destruct (isOppositeDirection _ d2) eqn:Hopp2; [|done].
    unfold changeDirection. rewrite Hgame, Hplayer, Halive, Hopp2.
    by rewrite bool_decide_eq_true_2 by done.
  - rewrite (changeDirection_accepts _ _ d1 _ _ _ Hgame Hstatus Hplayer Halive Hopp1).
    destruct (isOppositeDirection _ d2) eqn:Hopp2.
    + unfold changeDirection. cbn [activeGames]. rewrite lookup_insert_eq.
      cbn [status set_players players]. rewrite get_set_eq. cbn.
      rewrite Halive, Hopp2. by rewrite bool_decide_eq_true_2 by done.
    + rewrite (changeDirection_accepts _ _ d2 _ _ _ Hgame Hstatus Hplayer Halive Hopp2).
      erewrite changeDirection_accepts;
        [|apply lookup_insert_eq|done|apply get_set_eq|done|done].
      cbn [activeGames randomCalls players set_players].
      by rewrite insert_insert_eq, set_set.
Qed.

(** ** The shape of the snakes *)

Lemma removelast_take {A : Type} (l : list A) :
  removelast l = take (length l - 1) l.
Proof. rewrite removelast_firstn_len. f_equal. lia. Qed.

Lemma chain_cons (a : Position) (l : list Position) :
  (∀ b, l !! 0 = Some b -> ∃ d, a = getNextPosition b d) ->
  chain l -> chain (a :: l).
Proof.
  intros Hlink Hchain [|i] c b; cbn.
  - intros [= <-]. apply Hlink.
  - apply Hchain.
Qed.

Lemma chain_removelast (l : list Position) : chain l -> chain (removelast l).
Proof.
  intros Hchain i a b. rewrite removelast_take. intros Ha Hb.
  apply lookup_take_Some in Ha as [Ha _]. apply lookup_take_Some in Hb as [Hb _].
  by apply (Hchain i).
Qed.

(** The initial snake of every seat. *)
Lemma createInitialSnake_inv (playerNumber : nat) :
  snake_inv {| width := 20; height := 20 |} (createInitialSnake playerNumber).
Proof.
  destruct playerNumber as [|n]; cbn.
  - split_and!.
    + cbn. lia.
    + compute_done.
    + by repeat constructor.
    + intros [|[|[|[|i]]]] a b; cbn; try done; intros [= <-] [= <-];
        by exists RIGHT.
    + done.
  - split_and!.
    + cbn. lia.
    + compute_done.
    + by repeat constructor.
    + intros [|[|[|[|i]]]] a b; cbn; try done; intros [= <-] [= <-];
        by exists LEFT.
    + done.
Qed.

Lemma opposite_ne (d : Direction) : d ≠ opposite d.
Proof. by destruct d. Qed.

(** A turn of the loop of [tick] keeps the shape of the snake. *)
Lemma turn_outcome_snake_inv (g : GameState) (p : Player) (sn : Snake) :
  turn_outcome g p sn ->
  snake_inv (gridSize g) (snake p) ->
  snake_inv (gridSize g) sn.
Proof.
  intros Hturn (Hlen & Hnodup & Hgrid & Hchain & Hdir).
  destruct Hturn as [Ha | Ha Hh | h Ha Hh Hb | h Ha Hh Hb _ | h Ha Hh Hb _].
  - done.
  - unfold newHeadOf in Hh. destruct (segments (snake p)); [|done]. cbn in Hlen. lia.
  - by split_and!.
  - unfold newHeadOf in Hh.
    destruct (segments (snake p)) as [|head tl] eqn:Hsegs; [done|].
    injection Hh as <-.
    unfold blocked in Hb. rewrite Hsegs in Hb.
    apply orb_false_iff in Hb as [Hb _]. apply orb_false_iff in Hb as [Hout Hself].
    apply collidesWithSnake_false in Hself.
    split_and!; cbn [segments unshift applyQueuedDirection set_segments
                     set_direction isAlive direction nextDirection];
      rewrite ?Hsegs.
    + cbn in *. lia.
    + by apply NoDup_cons.
    + by apply Forall_cons.
    + apply chain_cons; [|done]. intros b [= <-]. eauto.
    + intros _. split; [|apply opposite_ne]. unfold aligned. cbn. by rewrite Hsegs.
  - unfold newHeadOf in Hh.
    destruct (segments (snake p)) as [|head [|s2 tl]] eqn:Hsegs;
      [done|cbn in Hlen; lia|].
    injection Hh as <-.
    unfold blocked in Hb. rewrite Hsegs in Hb.
    apply orb_false_iff in Hb as [Hb _]. apply orb_false_iff in Hb as [Hout Hself].
    apply collidesWithSnake_false in Hself.
    set (h := getNextPosition head (nextDirection (snake p))) in *.
    assert (removelast (h :: head :: s2 :: tl) `sublist_of` (h :: head :: s2 :: tl))
      as Hsub by apply removelast_sublist.
    split_and!; cbn [segments pop unshift applyQueuedDirection set_segments
                     set_direction isAlive direction nextDirection];
      rewrite ?Hsegs.
    + rewrite length_removelast_cons. done.
    + eapply sublist_NoDup; [|done]. by apply NoDup_cons.
    + apply Forall_forall. intros c Hc. apply (elem_of_sublist _ _ _ Hc) in Hsub.
      apply elem_of_cons in Hsub as [->|Hc']; [done|].
      by apply (proj1 (Forall_forall _ _) Hgrid).
    + apply chain_removelast, chain_cons; [|done]. intros b [= <-]. eauto.
    + intros _. split; [|apply opposite_ne]. unfold aligned. cbn. by rewrite Hsegs.
Qed.

Section Invariants.

Variable random : nat -> Z.

(** The apples after a call of [spawnApple]. *)
Lemma spawnAppleIn_apples_inv (g : GameState) (n : nat) :
  gridSize g = {| width := 20; height := 20 |} ->
  NoDup (apples g) ->
  Forall (in_grid (gridSize g)) (apples g) ->
  NoDup (apples (fst (spawnAppleIn random g n)))
  ∧ Forall (in_grid (gridSize g)) (apples (fst (spawnAppleIn random g n)))
  ∧ length (apples (fst (spawnAppleIn random g n))) ≤ S (length (apples g)).
Proof.
  intros Hgrid Hnodup Hall.
  destruct (spawnAppleIn_spec random g n) as [[-> _] | (a & -> & _ & Hin & Hfresh & _)];
    try (by rewrite Hgrid).
  - split_and!; [done|done|lia].
  - cbn [apples set_apples]. split_and!.
    + apply NoDup_app. split_and!; [done| |apply NoDup_singleton].
      intros c Hc ->%list_elem_of_singleton. done.
    + apply Forall_app. split; [done|]. by apply Forall_singleton.
    + rewrite length_app. cbn. lia.
Qed.

Lemma tick_player_apples_inv (i : nat) (g : GameState) (n : nat) :
  gridSize g = {| width := 20; height := 20 |} ->
  NoDup (apples g) ->
  Forall (in_grid (gridSize g)) (apples g) ->
  NoDup (apples (fst (tick_player random i (g, n))))
  ∧ Forall (in_grid (gridSize g)) (apples (fst (tick_player random i (g, n))))
  ∧ length (apples (fst (tick_player random i (g, n)))) ≤ length (apples g).
Proof.
  intros Hgrid Hnodup Hall. turn_cases random i g n; cbn [fst]; try done.
  set (g1 := set_apples _ _).
  change (apples (update_snake i (unshift h) (fst (spawnAppleIn random g1 n))))
    with (apples (fst (spawnAppleIn random g1 n))).
  apply findIndex_Some in Hfind as (a & Hlookup & _).
  assert (S (length (apples g1)) = length (apples g)) as Hlen.
  { cbn [apples g1 set_apples]. rewrite length_delete by eauto.
    apply lookup_lt_Some in Hlookup. lia. }
  destruct (spawnAppleIn_apples_inv g1 n) as (H1 & H2 & H3); try done.
  - cbn [apples g1 set_apples]. eapply sublist_NoDup; [done|apply sublist_delete].
  - cbn [apples g1 set_apples]. by apply Forall_delete.
  - split_and!; [done|done|lia].
Qed.

Lemma tick_player_core (i : nat) (s : GameState * nat) :
  game_core (fst s) -> game_core (fst (tick_player random i s)).
Proof.
  destruct s as [g n]. cbn [fst].
  intros (Hsize & Hgrid & Hnodup & Hlen & Hall & Hsnakes).
  destruct (tick_player_frame random i (g, n)) as (Hgrid' & _ & _ & Hids).
  destruct (tick_player_apples_inv i g n Hgrid Hnodup Hall) as (H1 & H2 & H3).
  cbn [fst] in *. unfold game_core. rewrite Hgrid'. split_and!; try done; try lia.
  - apply (f_equal length) in Hids. rewrite !length_fmap in Hids.
    unfold JsMap.size, JsMap.values in *. rewrite !length_fmap in Hids. lia.
  - apply Forall_lookup. intros j q Hq.
    destruct (decide (i = j)) as [<-|Hne].
    + destruct (JsMap.values (players g) !! i) as [p|] eqn:Hp.
      * destruct (tick_player_self random i g n p Hp) as (sn & Hp' & Hturn).
        rewrite Hp' in Hq. injection Hq as <-. cbn [snake set_snake].
        eapply turn_outcome_snake_inv; [done|].
        by apply (proj1 (Forall_lookup _ _) Hsnakes i).
      * rewrite tick_player_absent in Hq by done. cbn [fst] in Hq. congruence.
    + rewrite (tick_player_other random i j (g, n)) in Hq by done.
      by apply (proj1 (Forall_lookup _ _) Hsnakes j).
Qed.

Lemma tick_game_core (s : GameState * nat) :
  game_core (fst s) -> game_core (fst (tick_game random s)).
Proof.
  intros Hcore. unfold tick_game.
  assert (game_core (fst (tick_upto random (JsMap.size (players (fst s))) s)))
    as Hupto.
  { induction (JsMap.size (players (fst s))) as [|k IH]; [done|].
    rewrite tick_upto_S. by apply tick_player_core. }
  destruct (tick_upto random _ s) as [g' n']. cbn [fst] in *.
  unfold game_core.
  destruct (checkGameOver_players g') as (-> & -> & ->). done.
Qed.

End Invariants.

(** ** What every reachable registry keeps *)

Lemma delete_sublist {V : Type} (k : string) (m : JsMap.t V) :
  JsMap.delete k m `sublist_of` m.
Proof.
  unfold JsMap.delete. induction m as [|e m IH]; simpl; [done|].
  destruct (negb _); [by apply sublist_skip|by apply sublist_cons].
Qed.

Lemma get_Some_elem {V : Type} (k : string) (v : V) (m : JsMap.t V) :
  JsMap.get k m = Some v -> (k, v) ∈ m.
Proof.
  unfold JsMap.get. destruct (find _ m) as [[k' v']|] eqn:Hfind; [|done].
  intros [= <-]. apply find_some in Hfind as [Hin Hk].
  apply bool_decide_eq_true in Hk. cbn in Hk. subst k'.
  by apply list_elem_of_In.
Qed.

Lemma players_Forall (P : Player -> Prop) (m : JsMap.t Player) :
  Forall P (JsMap.values m) ↔ Forall (fun e => P (snd e)) m.
Proof. apply Forall_fmap. Qed.

Lemma registry_inv_insert (gameId : string) (g : GameState) (st : Store) (n : nat) :
  registry_inv st -> game_inv g ->
  registry_inv (mkStore (<[gameId := g]> (activeGames st)) n).
Proof.
  intros Hst Hg id g'. cbn [activeGames]. rewrite lookup_insert.
  case_decide; [by intros [= <-]|]. apply Hst.
Qed.

Lemma registry_inv_delete (gameId : string) (st : Store) (n : nat) :
  registry_inv st -> registry_inv (mkStore (delete gameId (activeGames st)) n).
Proof.
  intros Hst id g'. cbn [activeGames]. rewrite lookup_delete.
  case_decide; [done|]. apply Hst.
Qed.

Lemma createGame_inv (gameId : string) (st : Store) :
  registry_inv st -> registry_inv (snd (createGame gameId st)).
Proof.
  intros Hst. apply registry_inv_insert; [done|].
  unfold game_inv, game_core.
  split_and!; try done; cbn; try lia; try apply NoDup_nil_2; by apply Forall_nil_2.
Qed.

Lemma addPlayer_inv (gameId pid sid : string) (uname : option string) (st : Store) :
  registry_inv st -> registry_inv (snd (addPlayer gameId pid sid uname st)).
Proof.
  intros Hst. unfold addPlayer.
  destruct (activeGames st !! gameId) as [g|] eqn:Hg; [|done].
  case_bool_decide as Hfull; [done|]. apply registry_inv_insert; [done|].
  destruct (Hst gameId g Hg)
    as ((Hsize & Hgrid & Hnodup & Hlen & Hall & Hsnakes) & Hready & Hwait).
  unfold game_inv, game_core.
  split_and!; try done; cbn [players set_players gridSize].
  - rewrite size_set. case_bool_decide; lia.
  - rewrite players_Forall in Hsnakes. rewrite players_Forall.
    apply set_Forall; [|done]. cbn. rewrite Hgrid. apply createInitialSnake_inv.
Qed.

Lemma removePlayer_inv (gameId pid : string) (st : Store) :
  registry_inv st -> registry_inv (removePlayer gameId pid st).
Proof.
  intros Hst. unfold removePlayer.
  destruct (activeGames st !! gameId) as [g|] eqn:Hg; [|done].
  destruct (Hst gameId g Hg)
    as ((Hsize & Hgrid & Hnodup & Hlen & Hall & Hsnakes) & Hready & Hwait).
  assert (registry_inv
            (set_activeGames
               (<[gameId := set_players (JsMap.delete pid (players g)) g]>
                  (activeGames st)) st)) as Hst'.
  { apply registry_inv_insert; [done|].
    pose proof (delete_sublist pid (players g)) as Hsub.
    unfold game_inv, game_core.
  split_and!; try done; cbn [players set_players gridSize].
    - apply sublist_length in Hsub. unfold JsMap.size in *. lia.
    - rewrite players_Forall in Hsnakes. rewrite players_Forall.
      apply Forall_forall. intros e He.
      apply (proj1 (Forall_forall _ _) Hsnakes). by eapply elem_of_sublist. }
  case_bool_decide; [by apply registry_inv_delete|done].
Qed.

Lemma changeDirection_inv (gameId pid : string) (d : Direction) (st : Store) :
  registry_inv st -> registry_inv (changeDirection gameId pid d st).
Proof.
  intros Hst. unfold changeDirection.
  destruct (activeGames st !! gameId) as [g|] eqn:Hg; [|done].
  destruct (negb _); [done|].
  destruct (JsMap.get pid (players g)) as [p|] eqn:Hp; [|done].
  destruct (negb _); [done|].
  destruct (isOppositeDirection _ _) eqn:Hopp; [done|].
  apply registry_inv_insert; [done|].
  destruct (Hst gameId g Hg)
    as ((Hsize & Hgrid & Hnodup & Hlen & Hall & Hsnakes) & Hready & Hwait).
  unfold game_inv, game_core.
  split_and!; try done; cbn [players set_players gridSize].
  - rewrite size_set, bool_decide_eq_true_2; [done|].
    destruct (decide (pid ∈ JsMap.keys (players g))) as [|Hno]; [done|].
    apply get_None in Hno. congruence.
  - rewrite players_Forall in Hsnakes. rewrite players_Forall.
    apply set_Forall; [|done]. cbn.
    apply get_Some_elem in Hp.
    destruct (proj1 (Forall_forall _ _) Hsnakes _ Hp) as (H1 & H2 & H3 & H4 & H5).
    split_and!; try done. intros Ha. split; [by apply H5|]. cbn.
    intros ->. by rewrite isOppositeDirection_opposite in Hopp.
Qed.

Section Reachable.

Variable random : nat -> Z.

Lemma startGame_inv (gameId : string) (st : Store) :
  registry_inv st -> registry_inv (startGame random gameId st).
Proof.
  intros Hst.
  destruct (activeGames st !! gameId) as [g|] eqn:Hg;
    [|by rewrite startGame_noop by by left].
  destruct (decide (status g = WAITING)) as [Hstatus|Hstatus];
    [|by rewrite startGame_noop by (right; eauto)].
  rewrite (startGame_waiting random _ _ _ Hg Hstatus).
  apply registry_inv_insert; [done|].
  destruct (Hst gameId g Hg)
    as ((Hsize & Hgrid & Hnodup & Hlen & Hall & Hsnakes) & Hready & Hwait).
  set (g1 := set_status PLAYING g).
  destruct (spawnAppleIn_players random g1 (randomCalls st)) as (Hp1 & Hg1 & Hs1 & _).
  destruct (spawnAppleIn_apples_inv random g1 (randomCalls st))
    as (Hn1 & Ha1 & Hl1); try done.
  destruct (spawnAppleIn random g1 (randomCalls st)) as [g2 n2]. cbn [fst snd] in *.
  destruct (spawnAppleIn_players random g2 n2) as (Hp2 & Hg2 & Hs2 & _).
  assert (gridSize g2 = {| width := 20; height := 20 |}) as Hgrid2
    by by rewrite Hg1.
  destruct (spawnAppleIn_apples_inv random g2 n2)
    as (Hn2 & Ha2 & Hl2); try done.
  { by rewrite Hg1. }
  destruct (spawnAppleIn random g2 n2) as [g3 n3]. cbn [fst snd] in *.
  specialize (Hwait Hstatus).
  unfold game_inv, game_core.
  rewrite Hp2, Hp1, Hg2, Hg1, Hs2, Hs1. cbn [players gridSize status g1 set_status].
  rewrite Hg1 in Ha2. cbn [apples gridSize g1 set_status] in Hl1, Ha2.
  rewrite Hwait in Hl1. cbn in Hl1. split_and!; try done. lia.
Qed.

Lemma tick_inv (gameId : string) (st : Store) :
  registry_inv st -> registry_inv (snd (tick random gameId st)).
Proof.
  intros Hst. unfold tick.
  destruct (activeGames st !! gameId) as [g|] eqn:Hg; [|done].
  case_bool_decide as Hstatus; [|done]. cbn [negb].
  destruct (Hst gameId g Hg) as (Hcore & Hready & Hwait).
  pose proof (tick_game_core random (g, randomCalls st) Hcore) as Hcore'.
  assert (status (fst (tick_game random (g, randomCalls st))) = PLAYING
          ∨ status (fst (tick_game random (g, randomCalls st))) = FINISHED)
    as Hstatus'.
  { unfold tick_game. cbn [fst].
    destruct (tick_upto_frame random (JsMap.size (players g)) (g, randomCalls st))
      as (_ & Hs & _).
    destruct (tick_upto random _ _) as [g' n']. cbn [fst] in *.
    unfold checkGameOver. destruct (alivePlayers g') as [|p [|q l]]; cbn; eauto.
    left. congruence. }
  destruct (tick_game random (g, randomCalls st)) as [g' n']. cbn [fst snd] in *.
  apply registry_inv_insert; [done|].
  unfold game_inv. split_and!; [done| |]; destruct Hstatus' as [-> | ->]; done.
Qed.

Lemma registry_reachable_inv (st : Store) :
  registry_reachable random st -> registry_wf st ∧ registry_inv st.
Proof.
  induction 1 as [| st gameId _ [IHw IHi] | st gameId _ [IHw IHi]
                  | st gameId pid sid uname _ [IHw IHi]
                  | st gameId pid _ [IHw IHi] | st gameId _ [IHw IHi]
                  | st gameId pid d _ [IHw IHi] | st gameId _ [IHw IHi]].
  - split; [apply registry_wf_empty|]. intros id g. cbn. by rewrite lookup_empty.
  - split; [by apply createGame_wf|by apply createGame_inv].
  - split; [by apply deleteGame_wf|by apply registry_inv_delete].
  - split; [by apply addPlayer_wf|by apply addPlayer_inv].
  - split; [by apply removePlayer_wf|by apply removePlayer_inv].
  - split; [by apply startGame_wf|by apply startGame_inv].
  - split; [by apply changeDirection_wf|by apply changeDirection_inv].
  - split; [by apply tick_wf|by apply tick_inv].
Qed.

End Reachable.

(** ** Properties of every reachable registry *)

Lemma in_grid_bounds (grid : GridSize) (c : Position) :
  in_grid grid c
  ↔ (0 ≤ x c < width grid)%Z ∧ (0 ≤ y c < height grid)%Z.
Proof.
  unfold in_grid, isOutOfBounds. rewrite !orb_false_iff, !bool_decide_eq_false. lia.
Qed.

Lemma step_back_is_reversal (c : Position) (d d' : Direction) :
  getNextPosition (getNextPosition c d) d' = c -> d' = opposite d.
Proof.
  destruct c as [cx cy], d, d'; cbn; intros [=]; try done; lia.
Qed.

(** The match is as before the call. *)
Ltac unchanged := cbn [snd fst negb] in *; simplify_eq; cbn; lia.

Section ReachableFacts.

Variable random : nat -> Z.

(** X13. In every state that the game service can reach, a match has
    at most two players, stored under distinct keys, each under its own
    identifier. *)
Theorem reachable_players (st : Store) (gameId : string) (g : GameState) :
  registry_reachable random st ->
  activeGames st !! gameId = Some g ->
  JsMap.size (players g) ≤ 2
  ∧ NoDup (JsMap.keys (players g))
  ∧ (∀ k p, (k, p) ∈ players g -> player_id p = k)
  ∧ NoDup (player_id <$> JsMap.values (players g)).
Proof.
  intros Hreach Hg. destruct (registry_reachable_inv random st Hreach) as [Hwf Hinv].
  destruct (Hinv gameId g Hg) as ((Hsize & _) & _).
  pose proof (Hwf gameId g Hg) as Hgwf.
  pose proof (game_wf_distinct_ids g Hgwf) as Hids.
  destruct Hgwf as (Hkeys & Hown & _).
  split_and!; try done. intros k p Hin.
  by apply (proj1 (Forall_forall _ _) Hown (k, p)).
Qed.

(** X14. In every reachable state the grid of a match is 20 by 20, and
    every segment of every snake, dead or alive, and every apple is on
    a cell of the grid. *)
Theorem reachable_on_grid (st : Store) (gameId : string) (g : GameState) :
  registry_reachable random st ->
  activeGames st !! gameId = Some g ->
  gridSize g = {| width := 20; height := 20 |}
  ∧ (∀ p c, p ∈ JsMap.values (players g) -> c ∈ segments (snake p) ->
            (0 ≤ x c < 20)%Z ∧ (0 ≤ y c < 20)%Z)
  ∧ (∀ a, a ∈ apples g -> (0 ≤ x a < 20)%Z ∧ (0 ≤ y a < 20)%Z).
Proof.
  intros Hreach Hg. destruct (registry_reachable_inv random st Hreach) as [_ Hinv].
  destruct (Hinv gameId g Hg) as ((_ & Hgrid & _ & _ & Happles & Hsnakes) & _).
  rewrite Hgrid in *. split; [done|]. split.
  - intros p c Hp Hc.
    destruct (proj1 (Forall_forall _ _) Hsnakes p Hp) as (_ & _ & Hin & _).
    by apply (in_grid_bounds {| width := 20; height := 20 |}),
             (proj1 (Forall_forall _ _) Hin).
  - intros a Ha.
    by apply (in_grid_bounds {| width := 20; height := 20 |}),
             (proj1 (Forall_forall _ _) Happles).
Qed.

(** X15. In every reachable state a snake, dead or alive, has at least
    four segments, hence a head; no two of its segments are on the same
    cell, and each segment is one step away from the next. *)
Theorem reachable_snake_shape (st : Store) (gameId : string) (g : GameState)
    (p : Player) :
  registry_reachable random st ->
  activeGames st !! gameId = Some g ->
  p ∈ JsMap.values (players g) ->
  4 ≤ length (segments (snake p))
  ∧ is_Some (newHeadOf p)
  ∧ NoDup (segments (snake p))
  ∧ ∀ i a b, segments (snake p) !! i = Some a ->
             segments (snake p) !! S i = Some b ->
             ∃ d, a = getNextPosition b d.
Proof.
  intros Hreach Hg Hp. destruct (registry_reachable_inv random st Hreach) as [_ Hinv].
  destruct (Hinv gameId g Hg) as ((_ & _ & _ & _ & _ & Hsnakes) & _).
  destruct (proj1 (Forall_forall _ _) Hsnakes p Hp) as (Hlen & Hnodup & _ & Hchain & _).
  split_and!; try done.
  unfold newHeadOf. destruct (segments (snake p)); [cbn in Hlen; lia|eauto].
Qed.

(** X16. In every reachable state the buffered direction of a living
    snake is not the reverse of its direction, its head is one step
    from its second segment in its direction, and so the cell that its
    head moves to at the next tick is not its second segment: a snake
    never turns back into its own neck. *)
Theorem reachable_no_reversal (st : Store) (gameId : string) (g : GameState)
    (p : Player) :
  registry_reachable random st ->
  activeGames st !! gameId = Some g ->
  p ∈ JsMap.values (players g) ->
  isAlive (snake p) = true ->
  nextDirection (snake p) ≠ opposite (direction (snake p))
  ∧ ∀ head neck tl, segments (snake p) = head :: neck :: tl ->
      head = getNextPosition neck (direction (snake p))
      ∧ newHeadOf p = Some (getNextPosition head (nextDirection (snake p)))
      ∧ getNextPosition head (nextDirection (snake p)) ≠ neck.
Proof.
  intros Hreach Hg Hp Halive.
  destruct (registry_reachable_inv random st Hreach) as [_ Hinv].
  destruct (Hinv gameId g Hg) as ((_ & _ & _ & _ & _ & Hsnakes) & _).
  destruct (proj1 (Forall_forall _ _) Hsnakes p Hp) as (_ & _ & _ & _ & Hdir).
  destruct (Hdir Halive) as [Haligned Hnext]. split; [done|].
  intros head neck tl Hsegs. unfold aligned in Haligned. unfold newHeadOf.
  rewrite Hsegs in *. split_and!; try done.
  rewrite Haligned. intros Hback. by apply step_back_is_reversal in Hback.
Qed.

(** X17. In every reachable state a match has at most two apples, on
    distinct cells, and none as long as it is [WAITING]. *)
Theorem reachable_apples (st : Store) (gameId : string) (g : GameState) :
  registry_reachable random st ->
  activeGames st !! gameId = Some g ->
  length (apples g) ≤ 2
  ∧ NoDup (apples g)
  ∧ (status g = WAITING -> apples g = []).
Proof.
  intros Hreach Hg. destruct (registry_reachable_inv random st Hreach) as [_ Hinv].
  by destruct (Hinv gameId g Hg) as ((_ & _ & Hnodup & Hlen & _) & _ & Hwait).
Qed.

(** X18. In every reachable state the status of a match is [WAITING],
    [PLAYING] or [FINISHED], never [READY], and a match with a winner
    is [FINISHED]. *)
Theorem reachable_status (st : Store) (gameId : string) (g : GameState) :
  registry_reachable random st ->
  activeGames st !! gameId = Some g ->
  status g ≠ READY
  ∧ ∀ w, winnerId g = Some w -> status g = FINISHED.
Proof.
  intros Hreach Hg. destruct (registry_reachable_inv random st Hreach) as [Hwf Hinv].
  destruct (Hinv gameId g Hg) as (_ & Hready & _).
  destruct (Hwf gameId g Hg) as (_ & _ & Hwin).
  split; [done|]. intros w Hw.
  destruct (decide (status g = FINISHED)) as [|Hne]; [done|].
  rewrite (Hwin Hne) in Hw. done.
Qed.

(** X19. No operation moves a match back in its life: after one call
    of any operation of the service, a match that is still in the
    registry is the fresh match of [createGame], or has a status that
    is the same or a later one ([WAITING], then [PLAYING], then
    [FINISHED]). *)
Theorem status_never_moves_back (st st' : Store) (gameId : string)
    (g g' : GameState) :
  registry_step random st st' ->
  activeGames st !! gameId = Some g ->
  activeGames st' !! gameId = Some g' ->
  g' = freshGame gameId
  ∨ status_rank (status g) ≤ status_rank (status g').
Proof.
  intros Hstep Hg Hg'.
  destruct Hstep as [st id | st id | st id pid sid uname | st id pid | st id
                     | st id pid d | st id].
  - unfold createGame in Hg'. cbn [snd activeGames set_activeGames] in Hg'.
    rewrite lookup_insert in Hg'. case_decide as Hid.
    + left. subst id. by injection Hg' as <-.
    + right. unchanged.
  - unfold deleteGame in Hg'. cbn [activeGames set_activeGames] in Hg'.
    rewrite lookup_delete in Hg'. case_decide; [done|]. right. unchanged.
  - right. unfold addPlayer in Hg'.
    destruct (activeGames st !! id) as [g0|] eqn:Hg0; [|unchanged].
    case_bool_decide; [unchanged|].
    cbn [snd activeGames set_activeGames] in Hg'. rewrite lookup_insert in Hg'.
    case_decide; unchanged.
  - right. unfold removePlayer in Hg'.
    destruct (activeGames st !! id) as [g0|] eqn:Hg0; [|unchanged].
    case_bool_decide.
    + unfold deleteGame in Hg'. cbn [activeGames set_activeGames] in Hg'.
      rewrite lookup_delete in Hg'. case_decide; [done|].
      rewrite lookup_insert_ne in Hg' by done. unchanged.
    + cbn [activeGames set_activeGames] in Hg'. rewrite lookup_insert in Hg'.
      case_decide; unchanged.
  - right. destruct (activeGames st !! id) as [g0|] eqn:Hg0;
      [|rewrite startGame_noop in Hg' by (by left); unchanged].
    destruct (decide (status g0 = WAITING)) as [Hwaiting|Hne];
      [|rewrite startGame_noop in Hg' by (right; eauto); unchanged].
    rewrite (startGame_waiting random _ _ _ Hg0 Hwaiting) in Hg'.
    cbn [activeGames] in Hg'. rewrite lookup_insert in Hg'.
    case_decide; [|unchanged]. subst id. apply (inj Some) in Hg'. subst g'.
    rewrite (proj1 (proj2 (proj2 (spawnAppleIn_players random _ _)))).
    rewrite (proj1 (proj2 (proj2 (spawnAppleIn_players random _ _)))).
    rewrite Hg in Hg0. apply (inj Some) in Hg0. subst g0.
    rewrite Hwaiting. cbn. lia.
  - right. unfold changeDirection in Hg'.
    destruct (activeGames st !! id) as [g0|] eqn:Hg0; [|unchanged].
    destruct (negb _); [unchanged|].
    destruct (JsMap.get pid (players g0)); [|unchanged].
    destruct (negb _); [unchanged|].
    destruct (isOppositeDirection _ _); [unchanged|].
    cbn [activeGames set_activeGames] in Hg'. rewrite lookup_insert in Hg'.
    case_decide; unchanged.
  - right. unfold tick in Hg'.
    destruct (activeGames st !! id) as [g0|] eqn:Hg0; [|unchanged].
    case_bool_decide as Hplaying; [|unchanged]. cbn [negb] in Hg'.
    unfold tick_game in Hg'. cbn [fst] in Hg'.
    destruct (tick_upto_frame random (JsMap.size (players g0)) (g0, randomCalls st))
      as (_ & Hs & _).
    destruct (tick_upto random _ _) as [g1 n1]. cbn [fst snd activeGames] in *.
    rewrite lookup_insert in Hg'. case_decide; [|unchanged].
    subst id. injection Hg' as <-. simplify_eq. rewrite Hplaying.
    unfold checkGameOver. destruct (alivePlayers g1) as [|? [|? ?]]; cbn;
      rewrite ?Hs, ?Hplaying; cbn; lia.
Qed.

End ReachableFacts.

(** ** More on a tick *)

Section TickMore.

Variable random : nat -> Z.

Lemma tick_player_keys (i : nat) (s : GameState * nat) :
  JsMap.keys (players (fst (tick_player random i s)))
  = JsMap.keys (players (fst s)).
Proof.
  destruct s as [g n]. turn_cases random i g n; cbn [fst];
    rewrite ?keys_update_snake; try done.
  unfold JsMap.keys. rewrite (proj1 (spawnAppleIn_players random _ n)).
  apply (keys_update_snake i applyQueuedDirection g).
Qed.

Lemma tick_game_keys (g : GameState) (n : nat) :
  JsMap.keys (players (fst (tick_game random (g, n)))) = JsMap.keys (players g).
Proof.
  rewrite tick_game_players.
  induction (JsMap.size (players g)) as [|k IH]; [done|].
  by rewrite tick_upto_S, tick_player_keys.
Qed.

(** X20. A tick of a match that is [PLAYING] changes nothing of a
    player but its snake, and keeps the buffered direction of the
    snake. A dead snake is left as it is. A living snake with a head
    turns to its buffered direction; if it dies in the tick its
    segments stay where they were; if it lives, its segments are the
    cell one step from the old head in that direction, followed by the
    old segments, all of them when that cell held an apple at its
    turn, and all but the last otherwise. *)
Theorem tick_moves_snake (gameId : string) (st : Store) (game : GameState)
    (i : nat) (p : Player) :
  activeGames st !! gameId = Some game ->
  status game = PLAYING ->
  JsMap.values (players game) !! i = Some p ->
  ∃ st' game' p',
    tick random gameId st = (true, st')
    ∧ activeGames st' !! gameId = Some game'
    ∧ JsMap.values (players game') !! i = Some p'
    ∧ p' = set_snake (snake p') p
    ∧ nextDirection (snake p') = nextDirection (snake p)
    ∧ (isAlive (snake p) = false -> snake p' = snake p)
    ∧ (isAlive (snake p) = true ->
       ∀ h, newHeadOf p = Some h ->
         direction (snake p') = nextDirection (snake p)
         ∧ (isAlive (snake p') = false ->
              segments (snake p') = segments (snake p))
         ∧ (isAlive (snake p') = true ->
              segments (snake p')
              = if bool_decide
                     (h ∈ apples (fst (tick_upto random i
                                         (game, randomCalls st))))
                then h :: segments (snake p)
                else removelast (h :: segments (snake p)))).
Proof.
  intros Hgame Hstatus Hp.
  rewrite (tick_playing random gameId st game Hgame Hstatus).
  destruct (tick_game_player random i game (randomCalls st) p Hp)
    as (sn & Hp' & Hturn).
  eexists _, _, _. split; [done|]. cbn [activeGames].
  split; [by rewrite lookup_insert_eq|]. split; [exact Hp'|].
  cbn [snake set_snake]. split; [done|].
  destruct Hturn as [Ha | Ha Hh | h' Ha Hh Hb | h' Ha Hh Hb Happle
                     | h' Ha Hh Hb Happle];
    (split; [done|]); (split; [intros; congruence|]).
  - intros. congruence.
  - intros _ h Hh'. congruence.
  - intros _ h Hh'. split; [done|]. split; [done|]. cbn. intros. congruence.
  - intros _ h Hh'. simplify_eq. split; [done|].
    split; [cbn; intros; congruence|]. intros _.
    by rewrite bool_decide_eq_true_2.
  - intros _ h Hh'. simplify_eq. split; [done|].
    split; [cbn; intros; congruence|]. intros _.
    by rewrite bool_decide_eq_false_2.
Qed.

(** X21. A tick neither adds nor removes a player, nor changes their
    order or their identifiers, and keeps the grid of the match. *)
Theorem tick_keeps_players (gameId : string) (st : Store) (game : GameState) :
  activeGames st !! gameId = Some game ->
  status game = PLAYING ->
  ∃ st' game',
    tick random gameId st = (true, st')
    ∧ activeGames st' !! gameId = Some game'
    ∧ JsMap.keys (players game') = JsMap.keys (players game)
    ∧ player_id <$> JsMap.values (players game')
      = player_id <$> JsMap.values (players game)
    ∧ gridSize game' = gridSize game
    ∧ ∀ other, other ≠ gameId ->
        activeGames st' !! other = activeGames st !! other.
Proof.
  intros Hgame Hstatus.
  rewrite (tick_playing random gameId st game Hgame Hstatus).
  eexists _, _. split; [done|]. cbn [activeGames].
  split; [by rewrite lookup_insert_eq|].
  split; [apply tick_game_keys|]. split_and!.
  - rewrite tick_game_players.
    apply (tick_upto_frame random _ (game, randomCalls st)).
  - unfold tick_game. cbn [fst].
    destruct (tick_upto_frame random (JsMap.size (players game))
                (game, randomCalls st)) as (Hgrid & _).
    destruct (tick_upto random _ _) as [g' n']. cbn [fst] in *.
    by rewrite (proj2 (proj2 (checkGameOver_players g'))).
  - intros other Hne. by rewrite lookup_insert_ne.
Qed.

Lemma tick_player_apples_length (i : nat) (g : GameState) (n : nat) :
  length (apples (fst (tick_player random i (g, n)))) ≤ length (apples g)
  ∧ (apples g = [] ->
     apples (fst (tick_player random i (g, n))) = []
     ∧ snd (tick_player random i (g, n)) = n).
Proof.
  turn_cases random i g n; cbn [fst snd]; try done.
  split; [|intros Hnone; by rewrite Hnone in Hfind].
  set (g1 := set_apples _ _).
  change (apples (update_snake i (unshift h) (fst (spawnAppleIn random g1 n))))
    with (apples (fst (spawnAppleIn random g1 n))).
  apply findIndex_Some in Hfind as (a & Hlookup & _).
  assert (S (length (apples g1)) = length (apples g)) as Hlen.
  { cbn [apples g1 set_apples]. rewrite length_delete by eauto.
    apply lookup_lt_Some in Hlookup. lia. }
  destruct (spawnAppleIn_apples random g1 n) as [->|(b & -> & _)]; clearbody g1; [lia|].
  rewrite length_app. cbn. lia.
Qed.

(** X22. A tick never makes the apple list longer; and on a match with
    no apple left, no apple appears and [Math.random] is not called:
    apples come only from [startGame] and from eaten apples. *)
Theorem tick_apples_never_grow (gameId : string) (st : Store) (game : GameState) :
  activeGames st !! gameId = Some game ->
  status game = PLAYING ->
  ∃ st' game',
    tick random gameId st = (true, st')
    ∧ activeGames st' !! gameId = Some game'
    ∧ length (apples game') ≤ length (apples game)
    ∧ (apples game = [] ->
         apples game' = [] ∧ randomCalls st' = randomCalls st).
Proof.
  intros Hgame Hstatus.
  rewrite (tick_playing random gameId st game Hgame Hstatus).
  eexists _, _. split; [done|]. cbn [activeGames randomCalls].
  split; [by rewrite lookup_insert_eq|].
  unfold tick_game. cbn [fst].
  assert (∀ k,
            length (apples (fst (tick_upto random k (game, randomCalls st))))
            ≤ length (apples game)
            ∧ (apples game = [] ->
               apples (fst (tick_upto random k (game, randomCalls st))) = []
               ∧ snd (tick_upto random k (game, randomCalls st))
                 = randomCalls st)) as Hupto.
  { induction k as [|k [IHlen IHnone]]; [done|]. rewrite tick_upto_S.
    destruct (tick_upto random k (game, randomCalls st)) as [g1 n1].
    cbn [fst snd] in *.
    destruct (tick_player_apples_length k g1 n1) as [Hlen Hnone]. split; [lia|].
    intros Hempty. destruct (IHnone Hempty) as [Hg1 ->]. by apply Hnone. }
  specialize (Hupto (JsMap.size (players game))).
  destruct (tick_upto random _ _) as [g' n']. cbn [fst snd] in *.
  by rewrite (proj1 (proj2 (checkGameOver_players g'))).
Qed.

End TickMore.

(** ** The initial snakes *)

(** X23. The snake that a player gets on joining, whatever its seat: it
    is alive, has four segments in a row on the 20 by 20 grid, each one
    step behind the one before when seen along the direction of the
    snake, and its buffered direction is its direction. The snake of the
    first seat shares no cell with the snake of any other seat. *)
Theorem createInitialSnake_shape (playerNumber : nat) :
  isAlive (createInitialSnake playerNumber) = true
  ∧ length (segments (createInitialSnake playerNumber)) = INITIAL_SNAKE_LENGTH
  ∧ nextDirection (createInitialSnake playerNumber)
    = direction (createInitialSnake playerNumber)
  ∧ NoDup (segments (createInitialSnake playerNumber))
  ∧ Forall (in_grid {| width := GRID_WIDTH; height := GRID_HEIGHT |})
           (segments (createInitialSnake playerNumber))
  ∧ (∀ i a b,
       segments (createInitialSnake playerNumber) !! i = Some a ->
       segments (createInitialSnake playerNumber) !! S i = Some b ->
       a = getNextPosition b (direction (createInitialSnake playerNumber)))
  ∧ (0 < playerNumber ->
     ∀ c, c ∈ segments (createInitialSnake 0) ->
          c ∉ segments (createInitialSnake playerNumber)).
Proof.
  destruct playerNumber as [|n].
  - split_and!; try done.
    + compute_done.
    + by repeat constructor.
    + intros [|[|[|[|i]]]] a b; cbn; try done; by intros [= <-] [= <-].
    + lia.
  - split_and!; try done.
    + compute_done.
    + by repeat constructor.
    + intros [|[|[|[|i]]]] a b; cbn; try done; by intros [= <-] [= <-].
    + intros _ c Hc Hc'. cbn in Hc, Hc'.
      repeat (apply elem_of_cons in Hc as [->|Hc]);
        [..|by apply elem_of_nil in Hc];
        repeat (apply elem_of_cons in Hc' as [Hc'|Hc']);
        try discriminate; by apply elem_of_nil in Hc'.
Qed.

(** ** More on the pairing queue *)

Lemma existsb_delete_false {A : Type} (f : A -> bool) (l : list A) (k : nat) (a : A) :
  l !! k = Some a -> f a = false -> existsb f (delete k l) = existsb f l.
Proof.
  revert k. induction l as [|b l IH]; intros [|k]; csimpl; try done.
  - intros [= ->] Ha. by rewrite Ha.
  - intros Hk Ha. by rewrite (IH k).
Qed.

Lemma isInQueue_true (pid : string) (st : MatchmakingService.State) :
  MatchmakingService.isInQueue pid st = true
  ↔ pid ∈ queue_ids (MatchmakingService.waitingPlayers st).
Proof.
  unfold MatchmakingService.isInQueue, queue_ids.
  rewrite existsb_exists, list_elem_of_fmap. split.
  - intros (e & He & Hpid). apply bool_decide_eq_true in Hpid.
    exists e. split; [done|]. by apply list_elem_of_In.
  - intros (e & -> & He). exists e. split; [by apply list_elem_of_In|].
    by apply bool_decide_eq_true.
Qed.

Lemma pairedGame_inv (gameId : string) (opponent : MatchmakingService.WaitingPlayer)
    (pid sid : string) (uname : option string) :
  game_inv (pairedGame gameId opponent pid sid uname).
Proof.
  unfold game_inv, game_core. cbn.
  split_and!; try done; try lia; try apply NoDup_nil_2.
  apply Forall_cons. split; [exact (createInitialSnake_inv 0)|].
  apply Forall_cons. split; [exact (createInitialSnake_inv 1)|]. apply Forall_nil_2.
Qed.

Section PairingMore.

Variable uuidv4 : nat -> string.

(** X24. The waiting queue never holds more than one entry: a request
    that finds somebody waiting is paired at once. *)
Theorem queue_at_most_one (st : MatchmakingService.State) :
  MatchmakingService.reachable uuidv4 st ->
  MatchmakingService.getQueueSize st ≤ 1.
Proof.
  unfold MatchmakingService.getQueueSize.
  induction 1 as [gs | st pid sid uname Hreach IH | st pid _ IH | st gs _ IH];
    cbn; try lia; try done.
  - pose proof (reachable_NoDup uuidv4 st Hreach) as Hnd.
    pose proof (removeEntry_removes pid _ Hnd) as Hout.
    pose proof (removeEntry_sublist pid (MatchmakingService.waitingPlayers st))
      as Hsub.
    apply sublist_length in Hsub.
    destruct (MatchmakingService.removeEntry pid
                (MatchmakingService.waitingPlayers st)) as [|opponent rest] eqn:Hq.
    + rewrite findMatch_waits by done. cbn. lia.
    + rewrite (findMatch_pairs uuidv4 pid sid uname st opponent rest Hq).
      * cbn in *. lia.
      * intros Heq. apply Hout. rewrite <- Heq. cbn. by left.
  - pose proof (removeEntry_sublist pid (MatchmakingService.waitingPlayers st))
      as Hsub.
    apply sublist_length in Hsub. lia.
Qed.

(** X25. A request that finds the queue empty, or holding only an
    entry of the same player, is put in the queue, alone, with the
    socket and the name of this request; [findMatch] returns [null],
    creates no match and does not call [uuidv4]. *)
Theorem findMatch_waits_alone (pid sid : string) (uname : option string)
    (st : MatchmakingService.State) :
  (MatchmakingService.waitingPlayers st = []
   ∨ ∃ e, MatchmakingService.waitingPlayers st = [e]
          ∧ MatchmakingService.playerId e = pid) ->
  MatchmakingService.findMatch uuidv4 pid sid uname st
  = (None,
     MatchmakingService.mkState
       [MatchmakingService.mkWaitingPlayer pid sid (default ""%string uname)]
       (MatchmakingService.uuidCalls st)
       (MatchmakingService.games st)).
Proof.
  intros Hqueue. apply findMatch_waits.
  destruct Hqueue as [-> | (e & -> & Hpid)]; [done|].
  unfold MatchmakingService.removeEntry. cbn.
  by rewrite bool_decide_eq_true_2.
Qed.

(** X26. Asking for a match and then leaving the queue, with nobody
    waiting, brings the module back to the state before the request. *)
Theorem findMatch_leaveQueue (pid sid : string) (uname : option string)
    (st : MatchmakingService.State) :
  MatchmakingService.waitingPlayers st = [] ->
  MatchmakingService.leaveQueue pid
    (snd (MatchmakingService.findMatch uuidv4 pid sid uname st))
  = st.
Proof.
  intros Hqueue. rewrite findMatch_waits by by rewrite Hqueue.
  unfold MatchmakingService.leaveQueue, MatchmakingService.removeEntry. cbn.
  rewrite bool_decide_eq_true_2 by done. cbn.
  destruct st as [queue k gs]. cbn in *. by subst queue.
Qed.

(** X27. Two players who ask for a match one after the other, with
    nobody waiting before, are paired: the first request returns
    [null], the second returns the identifier that [uuidv4] gives, under
    which the registry has the match of the first player, then the
    second, with the socket and the name of their requests; the queue
    is empty again. *)
Theorem findMatch_two_requests (pidA sidA pidB sidB : string)
    (unameA unameB : option string) (st : MatchmakingService.State) :
  MatchmakingService.waitingPlayers st = [] ->
  pidA ≠ pidB ->
  fst (MatchmakingService.findMatch uuidv4 pidA sidA unameA st) = None
  ∧ MatchmakingService.findMatch uuidv4 pidB sidB unameB
      (snd (MatchmakingService.findMatch uuidv4 pidA sidA unameA st))
    = (Some (uuidv4 (MatchmakingService.uuidCalls st)),
       MatchmakingService.mkState []
         (S (MatchmakingService.uuidCalls st))
         (mkStore
            (<[uuidv4 (MatchmakingService.uuidCalls st) :=
                 pairedGame (uuidv4 (MatchmakingService.uuidCalls st))
                   (MatchmakingService.mkWaitingPlayer pidA sidA
                      (default ""%string unameA))
                   pidB sidB unameB]>
               (activeGames (MatchmakingService.games st)))
            (randomCalls (MatchmakingService.games st)))).
Proof.
  intros Hqueue Hne. rewrite findMatch_waits by by rewrite Hqueue.
  split; [done|].
  rewrite (findMatch_pairs uuidv4 pidB sidB unameB _
             (MatchmakingService.mkWaitingPlayer pidA sidA (default ""%string unameA))
             []); try done.
  unfold MatchmakingService.removeEntry. cbn.
  by rewrite bool_decide_eq_false_2.
Qed.

(** X28. In a queue with one entry a player at most, [leaveQueue]
    leaves no entry of the player, keeps the entries of the others and
    touches no match; on a player who is not in the queue it changes
    nothing, so leaving twice is leaving once. *)
Theorem leaveQueue_effect (pid : string) (st : MatchmakingService.State) :
  NoDup (queue_ids (MatchmakingService.waitingPlayers st)) ->
  MatchmakingService.isInQueue pid (MatchmakingService.leaveQueue pid st) = false
  ∧ (∀ other, other ≠ pid ->
       MatchmakingService.isInQueue other (MatchmakingService.leaveQueue pid st)
       = MatchmakingService.isInQueue other st)
  ∧ MatchmakingService.games (MatchmakingService.leaveQueue pid st)
    = MatchmakingService.games st
  ∧ (MatchmakingService.isInQueue pid st = false ->
       MatchmakingService.leaveQueue pid st = st)
  ∧ MatchmakingService.leaveQueue pid (MatchmakingService.leaveQueue pid st)
    = MatchmakingService.leaveQueue pid st.
Proof.
  intros Hnd.
  assert (MatchmakingService.isInQueue pid (MatchmakingService.leaveQueue pid st)
          = false) as Hgone.
  { destruct (MatchmakingService.isInQueue pid _) eqn:Hin; [|done].
    apply isInQueue_true in Hin. by apply removeEntry_removes in Hin. }
  assert (∀ st0, MatchmakingService.isInQueue pid st0 = false ->
                 MatchmakingService.leaveQueue pid st0 = st0) as Habsent.
  { intros st0 Hno. unfold MatchmakingService.leaveQueue.
    rewrite removeEntry_absent; [by destruct st0|].
    intros Hin. apply isInQueue_true in Hin. congruence. }
  split_and!; try done.
  - intros other Hne.
    unfold MatchmakingService.leaveQueue, MatchmakingService.isInQueue,
      MatchmakingService.removeEntry. cbn.
    destruct (findIndex _ (MatchmakingService.waitingPlayers st)) as [k|] eqn:Hk;
      [|done].
    apply findIndex_Some in Hk as (e & He & Hpid).
    apply bool_decide_eq_true in Hpid.
    apply (existsb_delete_false _ _ _ e He).
    apply bool_decide_eq_false. congruence.
  - apply Habsent.
  - by apply Habsent.
Qed.

(** X29. The match that [findMatch] forms in a reachable state is
    stored under the identifier that [uuidv4] returned; it is
    [WAITING], without apples, and has two players: the first of the
    others who wait, who leaves the queue, then the player who asks,
    each stored under its own identifier with the initial snake of its
    place. The match is well formed and its two snakes share no cell.
    [findMatch] does not call [Math.random] and leaves the other matches
    of the registry as they are. *)
Theorem findMatch_forms_match (pid sid : string) (uname : option string)
    (st st' : MatchmakingService.State) (gameId : string) :
  MatchmakingService.reachable uuidv4 st ->
  MatchmakingService.findMatch uuidv4 pid sid uname st = (Some gameId, st') ->
  gameId = uuidv4 (MatchmakingService.uuidCalls st)
  ∧ MatchmakingService.uuidCalls st' = S (MatchmakingService.uuidCalls st)
  ∧ randomCalls (MatchmakingService.games st')
    = randomCalls (MatchmakingService.games st)
  ∧ (∀ other, other ≠ gameId ->
       activeGames (MatchmakingService.games st') !! other
       = activeGames (MatchmakingService.games st) !! other)
  ∧ ∃ game,
      activeGames (MatchmakingService.games st') !! gameId = Some game
      ∧ status game = WAITING
      ∧ apples game = []
      ∧ game_wf game
      ∧ game_inv game
      ∧ no_overlap game
      ∧ JsMap.size (players game) = 2
      ∧ ∃ opponent first second,
          MatchmakingService.removeEntry pid
            (MatchmakingService.waitingPlayers st)
          = opponent :: MatchmakingService.waitingPlayers st'
          ∧ MatchmakingService.playerId opponent ≠ pid
          ∧ JsMap.keys (players game)
            = [MatchmakingService.playerId opponent; pid]
          ∧ JsMap.values (players game) = [first; second]
          ∧ player_id first = MatchmakingService.playerId opponent
          ∧ socketId first = MatchmakingService.socketId opponent
          ∧ snake first = createInitialSnake 0
          ∧ player_id second = pid
          ∧ socketId second = sid
          ∧ snake second = createInitialSnake 1.
Proof.
  intros Hreach Hfind. pose proof (reachable_NoDup uuidv4 st Hreach) as Hnd.
  pose proof (removeEntry_removes pid _ Hnd) as Hout.
  destruct (MatchmakingService.removeEntry pid
              (MatchmakingService.waitingPlayers st)) as [|opponent rest] eqn:Hq.
  - by rewrite findMatch_waits in Hfind.
  - assert (MatchmakingService.playerId opponent ≠ pid) as Hne.
    { intros Heq. apply Hout. rewrite <- Heq. cbn. by left. }
    rewrite (findMatch_pairs uuidv4 pid sid uname st opponent rest Hq Hne) in Hfind.
    injection Hfind as <- <-. cbn.
    split_and!; try done.
    + intros other Hother. by rewrite lookup_insert_ne.
    + eexists. rewrite lookup_insert_eq. split; [done|].
      destruct (pairedGame_wf (uuidv4 (MatchmakingService.uuidCalls st))
                  opponent pid sid uname Hne) as [Hwf Hno].
      split_and!; try done; [apply pairedGame_inv|].
      eexists opponent, _, _. cbn. by split_and!.
Qed.

End PairingMore.

(** ** A buffered turn and the next tick *)

Lemma get_lookup {V : Type} (m : JsMap.t V) (i : nat) (k : string) (v : V) :
  NoDup (JsMap.keys m) -> m !! i = Some (k, v) -> JsMap.get k m = Some v.
Proof.
  unfold JsMap.get, JsMap.keys. revert i.
  induction m as [|[k' v'] m IH]; intros [|i] Hnd; cbn; try done.
  - intros [= -> ->]. by rewrite bool_decide_eq_true_2.
  - intros Hi. apply NoDup_cons in Hnd as [Hk' Hnd].
    rewrite bool_decide_eq_false_2; [by apply (IH i)|].
    intros ->. apply Hk'. apply list_elem_of_fmap. exists (k, v).
    split; [done|]. by eapply list_elem_of_lookup_2.
Qed.

Lemma set_lookup {V : Type} (m : JsMap.t V) (i : nat) (k : string) (v w : V) :
  NoDup (JsMap.keys m) -> m !! i = Some (k, v) ->
  JsMap.set k w m = <[i := (k, w)]> m.
Proof.
  unfold JsMap.keys. revert i.
  induction m as [|[k' v'] m IH]; intros [|i] Hnd; cbn; try done.
  - intros [= -> ->]. by rewrite decide_True.
  - intros Hi. apply NoDup_cons in Hnd as [Hk' Hnd].
    rewrite decide_False; [by rewrite (IH i)|].
    intros ->. apply Hk'. apply list_elem_of_fmap. exists (k, v).
    split; [done|]. by eapply list_elem_of_lookup_2.
Qed.

Section Compose.

Variable random : nat -> Z.

(** X30. A turn that [changeDirection] buffers takes effect at the
    next tick: after the request of a direction that is not the
    reverse of the direction of the living snake of a player, the tick
    leaves the snake with that direction, and, if the snake is alive
    after it, with its head one step from the old head in that
    direction. *)
Theorem turn_takes_effect (gameId pid : string) (d : Direction) (st : Store)
    (game : GameState) (i : nat) (p : Player) (head : Position)
    (tl : list Position) :
  activeGames st !! gameId = Some game ->
  status game = PLAYING ->
  NoDup (JsMap.keys (players game)) ->
  players game !! i = Some (pid, p) ->
  isAlive (snake p) = true ->
  segments (snake p) = head :: tl ->
  d ≠ opposite (direction (snake p)) ->
  ∃ st' game' p',
    tick random gameId (changeDirection gameId pid d st) = (true, st')
    ∧ activeGames st' !! gameId = Some game'
    ∧ JsMap.values (players game') !! i = Some p'
    ∧ player_id p' = player_id p
    ∧ direction (snake p') = d
    ∧ nextDirection (snake p') = d
    ∧ (isAlive (snake p') = true ->
         ∃ rest, segments (snake p') = getNextPosition head d :: rest)
    ∧ (isAlive (snake p') = false ->
         segments (snake p') = head :: tl).
Proof.
  intros Hgame Hstatus Hkeys Hi Halive Hsegs Hd.
  assert (isOppositeDirection (direction (snake p)) d = false) as Hopp.
  { destruct (isOppositeDirection _ d) eqn:Hopp; [|done].
    by apply isOppositeDirection_true in Hopp. }
  rewrite (changeDirection_accepts _ _ _ _ _ _ Hgame Hstatus
             (get_lookup _ _ _ _ Hkeys Hi) Halive Hopp).
  rewrite (set_lookup _ _ _ _ _ Hkeys Hi).
  set (p1 := set_snake (set_nextDirection d (snake p)) p).
  set (game1 := set_players (<[i := (pid, p1)]> (players game)) game).
  assert (JsMap.values (players game1) !! i = Some p1) as Hp1.
  { unfold JsMap.values. cbn [players game1 set_players].
    rewrite list_lookup_fmap, list_lookup_insert_eq; [done|].
    by eapply lookup_lt_Some. }
  erewrite tick_playing; [|apply lookup_insert_eq|done].
  cbn [activeGames randomCalls]. rewrite insert_insert_eq.
  destruct (tick_game_player random i game1 (randomCalls st) p1 Hp1)
    as (sn & Hp' & Hturn).
  eexists _, _, _. split; [done|]. cbn [activeGames].
  split; [by rewrite lookup_insert_eq|]. split; [exact Hp'|].
  cbn [snake set_snake player_id p1]. split; [done|].
  assert (newHeadOf p1 = Some (getNextPosition head d)) as Hhead.
  { unfold newHeadOf. cbn. by rewrite Hsegs. }
  destruct Hturn as [Ha | Ha Hh | h' Ha Hh Hb | h' Ha Hh Hb _ | h' Ha Hh Hb _];
    cbn in *; simplify_eq; split_and!; try done; try (intros; congruence);
    intros _.
  - eauto.
  - rewrite Hsegs. cbn. destruct tl; eauto.
Qed.

End Compose.

(** ** The properties on the example states *)

Import Examples.

Local Open Scope string_scope.

Lemma store_started_game :
  activeGames store_started !! "g" = Some game_started
  ∧ randomCalls store_started = 4%nat.
Proof. by vm_compute. Qed.

Lemma store_crossing_game :
  activeGames store_crossing !! "g" = Some game_crossing.
Proof. by vm_compute. Qed.

Lemma tick_not_playing_witness :
  tick random_6_5 "g" store_waiting = (false, store_waiting)
  ∧ tick random_6_5 "absent" store_waiting = (false, store_waiting).
Proof.
  split.
  - apply tick_not_playing. right. exists (set_status WAITING game_started).
    split; [reflexivity|discriminate].
  - apply tick_not_playing. left. reflexivity.
Defined.

Lemma changeDirection_reversal_dropped_witness :
  nextDirectionOf "g" "A" (changeDirection "g" "A" LEFT store_started) = Some RIGHT
  ∧ changeDirection "g" "A" LEFT store_started = store_started.
Proof.
  apply (changeDirection_reversal_dropped "g" "A" store_started game_started
           playerA LEFT); by vm_compute.
Defined.

(** C7, as the specification has it, fails: [createGame] on the
    identifier of a match that is being played replaces the match. *)
Lemma createGame_existing_counterexample :
  activeGames store_started !! "g" = Some game_started
  ∧ activeGames (snd (createGame "g" store_started)) !! "g" ≠ Some game_started.
Proof.
  split; [by vm_compute|].
  unfold createGame. cbn [snd activeGames set_activeGames].
  rewrite lookup_insert_eq. discriminate.
Qed.

(** C1, as the specification has it, fails. After eleven ticks [A] heads
    right and [B] heads up into the cell (13,5), where the tail of [A] is
    before the twelfth tick: [A] has moved when the turn of [B] comes, the
    cell is free, and [B] is alive after the tick. *)
Lemma pre_tick_collision_counterexample :
  ¬ pre_tick_collision_rule random_corner "g" store_crossing.
Proof.
  intros Hrule.
  assert (isAlive (snake (set_snake
            (mkSnake [mkPosition 13 5; mkPosition 13 6; mkPosition 13 7;
                      mkPosition 13 8] UP UP true) playerB_crossing)) = false)
    as Hdead; [|discriminate].
  apply (Hrule game_crossing
           (set_players
              [("A", set_snake
                       (mkSnake [mkPosition 17 5; mkPosition 16 5; mkPosition 15 5;
                                 mkPosition 14 5] RIGHT RIGHT true)
                       playerA_crossing);
               ("B", set_snake
                       (mkSnake [mkPosition 13 5; mkPosition 13 6; mkPosition 13 7;
                                 mkPosition 13 8] UP UP true)
                       playerB_crossing)]
              game_crossing)
           1%nat playerB_crossing _ (mkPosition 13 5)); try by vm_compute.
  exists 0%nat, playerA_crossing. split_and!; [done|reflexivity|reflexivity|].
  apply collidesWithSnake_true. reflexivity.
Qed.

Lemma tick_collision_in_turn_order_witness :
  ∃ st' game' p',
    tick random_corner "g" store_crossing = (true, st')
    ∧ activeGames st' !! "g" = Some game'
    ∧ JsMap.values (players game') !! 1%nat = Some p'
    ∧ (isAlive (snake p') = false
       ↔ isOutOfBounds (mkPosition 13 5) (gridSize game_crossing) = true
         ∨ mkPosition 13 5 ∈ segments (snake playerB_crossing)
         ∨ ∃ q, q ∈ JsMap.values
                      (players (fst (tick_upto random_corner 1
                                       (game_crossing, randomCalls store_crossing))))
                ∧ player_id q ≠ player_id playerB_crossing
                ∧ isAlive (snake q) = true
                ∧ mkPosition 13 5 ∈ segments (snake q))
    ∧ (∀ j : nat, (1 ≤ j)%nat ->
         JsMap.values (players (fst (tick_upto random_corner 1
                                      (game_crossing, randomCalls store_crossing)))) !! j
         = JsMap.values (players game_crossing) !! j)
    ∧ (∀ j : nat, (j < 1)%nat ->
         JsMap.values (players (fst (tick_upto random_corner 1
                                      (game_crossing, randomCalls store_crossing)))) !! j
         = JsMap.values (players game') !! j).
Proof.
  apply (tick_collision_in_turn_order random_corner "g" store_crossing game_crossing
           1 playerB_crossing (mkPosition 13 5)); by vm_compute.
Defined.

Lemma store_at_wall_tick :
  activeGames (snd (tick random_6_5 "g" store_at_wall)) !! "g"
  = Some game_after_wall.
Proof. by vm_compute. Qed.

Lemma tick_termination_witness :
  ∃ st' game',
    tick random_6_5 "g" store_at_wall = (true, st')
    ∧ activeGames st' !! "g" = Some game'
    ∧ status game' = FINISHED
    ∧ winnerId game' = Some "B".
Proof.
  destruct (tick_termination random_6_5 "g" store_at_wall game_at_wall
              eq_refl eq_refl eq_refl)
    as (st' & game' & Htick & Hgame & _ & Hone & _).
  exists st', game'. split; [exact Htick|]. split; [exact Hgame|].
  assert (st' = snd (tick random_6_5 "g" store_at_wall)) as Hst
    by (by rewrite Htick).
  rewrite Hst, store_at_wall_tick in Hgame. apply (inj Some) in Hgame.
  apply (Hone 1%nat playerB_after_wall).
  - rewrite <- Hgame. split; reflexivity.
  - rewrite <- Hgame. intros j q [Hj Hq].
    destruct j as [|[|j]]; cbn in Hj; [|done|done].
    apply (inj Some) in Hj. rewrite <- Hj in Hq. discriminate Hq.
Defined.

Lemma tick_segment_count_witness :
  ∃ st' game' p',
    tick random_6_5 "g" store_started = (true, st')
    ∧ activeGames st' !! "g" = Some game'
    ∧ JsMap.values (players game') !! 0 = Some p'
    ∧ player_id p' = player_id playerA
    ∧ (isAlive (snake p') = true ->
       (∀ h, newHeadOf playerA = Some h ->
             h ∈ apples (fst (tick_upto random_6_5 0
                                (game_started, randomCalls store_started))) ->
             length (segments (snake p')) = S (length (segments (snake playerA))))
       ∧ ((∀ h, newHeadOf playerA = Some h ->
                h ∉ apples (fst (tick_upto random_6_5 0
                                   (game_started, randomCalls store_started)))) ->
          length (segments (snake p')) = length (segments (snake playerA)))).
Proof.
  apply (tick_segment_count random_6_5 "g" store_started game_started 0 playerA);
    by vm_compute.
Defined.

(** The apples that count in C3 are those of the moment of the turn: [A]
    eats the apple at (6,5), its replacement is drawn at (14,15), the cell
    where the head of [B] moves next, and [B], whose turn comes second,
    eats it in the same tick and has five segments after it. *)
Lemma tick_eats_replacement_apple :
  startGame random_14_15 "g" store_lobby = store_started
  ∧ newHeadOf playerB = Some (mkPosition 14 15)
  ∧ (mkPosition 14 15 ∉ apples game_started)
  ∧ (fun game => (fun p => length (segments (snake p)))
                   <$> JsMap.values (players game))
      <$> activeGames (snd (tick random_14_15 "g" store_started)) !! "g"
    = Some [5%nat; 5%nat].
Proof.
  split_and!.
  - by vm_compute.
  - by vm_compute.
  - by intros [?|[?|?%elem_of_nil]%elem_of_cons]%elem_of_cons.
  - by vm_compute.
Qed.

Lemma tick_preserves_no_overlap_witness :
  ∃ st' game',
    tick random_6_5 "g" store_started = (true, st')
    ∧ activeGames st' !! "g" = Some game'
    ∧ distinct_ids game'
    ∧ no_overlap game'.
Proof.
  apply (tick_preserves_no_overlap random_6_5 "g" store_started game_started).
  - by vm_compute.
  - reflexivity.
  - unfold distinct_ids. compute_done.
  - unfold no_overlap. compute_done.
Defined.

Lemma findMatch_pairs_oldest_witness :
  ∃ st' game p0 p1,
    MatchmakingService.findMatch uuid_seq "C" "socket-c" (Some "carol") queue_A_B
    = (Some "match-0", st')
    ∧ MatchmakingService.waitingPlayers st' = [entryB]
    ∧ activeGames (MatchmakingService.games st') !! "match-0" = Some game
    ∧ status game = WAITING
    ∧ players game = [("A", p0); ("C", p1)]
    ∧ player_id p0 = "A"
    ∧ socketId p0 = "socket-a"
    ∧ snake p0 = createInitialSnake 0
    ∧ player_id p1 = "C"
    ∧ socketId p1 = "socket-c"
    ∧ snake p1 = createInitialSnake 1.
Proof.
  apply (findMatch_pairs_oldest uuid_seq "C" "socket-c" (Some "carol")
           queue_A_B entryA entryB); [reflexivity|discriminate|discriminate].
Defined.

Lemma findMatch_never_pairs_with_self_witness :
  NoDup (queue_ids (MatchmakingService.waitingPlayers matchmaking_A_waits))
  ∧ ∀ pid sid uname,
      (pid ∉ queue_ids (MatchmakingService.removeEntry pid
                          (MatchmakingService.waitingPlayers matchmaking_A_waits)))
      ∧ ∀ gameId st',
          MatchmakingService.findMatch uuid_seq pid sid uname matchmaking_A_waits
          = (Some gameId, st') ->
          ∃ game p0 p1,
            activeGames (MatchmakingService.games st') !! gameId = Some game
            ∧ JsMap.values (players game) = [p0; p1]
            ∧ player_id p1 = pid
            ∧ player_id p0 ≠ player_id p1.
Proof.
  apply (findMatch_never_pairs_with_self uuid_seq matchmaking_A_waits).
  apply MatchmakingService.reachable_findMatch, MatchmakingService.reachable_init.
Defined.

(** C8 on the code. The match is started with apples at (6,5) and
    (10,10). In the first tick the snake of [A] eats the apple at (6,5)
    and [Math.random] draws the cell (6,5) again, which [spawnApple] finds
    free, as the head of the snake is not yet on it. After the tick the
    apple list is as long as before, and holds an apple at (6,5), the
    cell of the eaten apple, under the head of the snake. *)
Theorem tick_respawns_on_eaten_cell :
  apples <$> activeGames store_started !! "g"
    = Some [mkPosition 6 5; mkPosition 10 10]
  ∧ fst (tick random_6_5 "g" store_started) = true
  ∧ apples <$> activeGames (snd (tick random_6_5 "g" store_started)) !! "g"
    = Some [mkPosition 10 10; mkPosition 6 5]
  ∧ (fun game => (fun p => segments (snake p)) <$> JsMap.values (players game))
      <$> activeGames (snd (tick random_6_5 "g" store_started)) !! "g"
    = Some [[mkPosition 6 5; mkPosition 5 5; mkPosition 4 5; mkPosition 3 5;
             mkPosition 2 5];
            [mkPosition 14 15; mkPosition 15 15; mkPosition 16 15;
             mkPosition 17 15]].
Proof. by vm_compute. Qed.

(** ** The further properties on the example states *)

Import MoreExamples.

Lemma store_one_game : activeGames store_one !! "g" = Some game_one.
Proof. by vm_compute. Qed.

Lemma store_lobby_game : activeGames store_lobby !! "g" = Some game_lobby.
Proof. by vm_compute. Qed.

Lemma game_started_keys : NoDup (JsMap.keys (players game_started)).
Proof. compute_done. Qed.

Lemma store_full_occupied (cx cy : Z) :
  (0 ≤ cx < 20)%Z -> (0 ≤ cy < 20)%Z -> (cx, cy) ∈ occupiedPositions game_full.
Proof.
  intros Hx Hy. unfold occupiedPositions. apply elem_of_union_r.
  apply elem_of_list_to_set, list_elem_of_fmap. exists (mkPosition cx cy).
  split; [done|]. apply list_elem_of_In. unfold game_full, all_cells. cbn [apples].
  apply in_flat_map. exists (Z.to_nat cx). split.
  - apply in_seq. lia.
  - apply list_elem_of_In, list_elem_of_fmap. exists (Z.to_nat cy). split.
    + f_equal; lia.
    + apply list_elem_of_In, in_seq. lia.
Qed.

Lemma ticks_reachable (random : nat -> Z) (n : nat) (gameId : string) (st : Store) :
  registry_reachable random st -> registry_reachable random (ticks random n gameId st).
Proof.
  revert st. induction n as [|n IH]; intros st Hst; [done|].
  cbn. by apply IH, reachable_tick.
Qed.

Lemma store_lobby_reachable (random : nat -> Z) :
  registry_reachable random store_lobby.
Proof.
  unfold store_lobby.
  do 2 apply reachable_addPlayer. apply reachable_createGame, reachable_empty.
Qed.

Lemma store_crossing_reachable : registry_reachable random_corner store_crossing.
Proof.
  unfold store_crossing.
  apply ticks_reachable, reachable_changeDirection, ticks_reachable,
    reachable_startGame, store_lobby_reachable.
Qed.

Lemma matchmaking_A_waits_reachable :
  MatchmakingService.reachable uuid_seq matchmaking_A_waits.
Proof.
  apply MatchmakingService.reachable_findMatch, MatchmakingService.reachable_init.
Qed.

Lemma matchmaking_B_pairs :
  MatchmakingService.findMatch uuid_seq "B" "socket-b" (Some "bob")
    matchmaking_A_waits
  = (Some "match-0",
     snd (MatchmakingService.findMatch uuid_seq "B" "socket-b" (Some "bob")
            matchmaking_A_waits)).
Proof. by vm_compute. Qed.

Lemma addPlayer_rejected_witness :
  addPlayer "g" "C" "socket-c" None store_started = (None, store_started).
Proof.
  apply addPlayer_rejected. right. exists game_started. by vm_compute.
Defined.

Lemma addPlayer_joined_witness :
  ∃ player game',
    addPlayer "g" "B" "socket-b" (Some "bob") store_one
    = (Some player,
       mkStore (<["g" := game']> (activeGames store_one)) (randomCalls store_one))
    ∧ snake player = createInitialSnake 1
    ∧ JsMap.get "B" (players game') = Some player.
Proof.
  destruct (addPlayer_joined "g" "B" "socket-b" (Some "bob") store_one game_one
              store_one_game ltac:(cbn; lia))
    as (player & game' & Hadd & Hplayer & Hget & _).
  exists player, game'. split; [exact Hadd|]. split; [|exact Hget].
  rewrite Hplayer. reflexivity.
Defined.

Lemma addPlayer_rejoins_witness :
  ∃ game',
    activeGames (snd (addPlayer "g" "A" "socket-2" None store_one)) !! "g"
    = Some game'
    ∧ players game'
      = [("A", mkPlayer "A" "socket-2" "" (createInitialSnake 1) false)].
Proof.
  apply (addPlayer_rejoins "g" "A" "socket-2" None store_one game_one playerA);
    by vm_compute.
Defined.

Lemma spawnApple_effect_witness :
  spawnApple random_6_5 "g" store_started
  = mkStore (<["g" := game_started]> (activeGames store_started))
            (randomCalls store_started + 200)
  ∨ ∃ a n',
      spawnApple random_6_5 "g" store_started
      = mkStore (<["g" := set_apples (apples game_started ++ [a]) game_started]>
                   (activeGames store_started)) n'
      ∧ (randomCalls store_started < n' ≤ randomCalls store_started + 200)%nat
      ∧ in_grid (gridSize game_started) a
      ∧ (a ∉ apples game_started)
      ∧ ∀ p, p ∈ JsMap.values (players game_started) -> a ∉ segments (snake p).
Proof.
  apply (spawnApple_effect random_6_5 "g" store_started game_started);
    by vm_compute.
Defined.

Lemma spawnApple_full_grid_witness :
  spawnApple random_6_5 "g" store_full
  = mkStore (<["g" := game_full]> (activeGames store_full))
            (randomCalls store_full + 200).
Proof.
  apply (spawnApple_full_grid random_6_5 "g" store_full game_full);
    [by vm_compute|done|done|apply store_full_occupied].
Defined.

Lemma startGame_ignored_witness :
  startGame random_6_5 "g" store_started = store_started.
Proof.
  apply startGame_ignored. right. exists game_started. by vm_compute.
Defined.

Lemma startGame_started_witness :
  ∃ game' new,
    activeGames (startGame random_6_5 "g" store_lobby) !! "g" = Some game'
    ∧ status game' = PLAYING
    ∧ apples game' = (apples game_lobby ++ new)%list
    ∧ (length new ≤ 2)%nat.
Proof.
  destruct (startGame_started random_6_5 "g" store_lobby game_lobby
              store_lobby_game eq_refl eq_refl eq_refl)
    as (game' & new & H1 & H2 & _ & _ & _ & H3 & H4 & _).
  exists game', new. exact (conj H1 (conj H2 (conj H3 H4))).
Defined.

Lemma changeDirection_ignored_witness :
  changeDirection "g" "A" UP store_waiting = store_waiting.
Proof.
  apply changeDirection_ignored. right.
  exists (set_status WAITING game_started). split; [by vm_compute|]. by left.
Defined.

Lemma changeDirection_buffered_witness :
  ∃ game' player',
    activeGames (changeDirection "g" "A" UP store_started) !! "g" = Some game'
    ∧ JsMap.get "A" (players game') = Some player'
    ∧ nextDirection (snake player') = UP
    ∧ direction (snake player') = RIGHT.
Proof.
  destruct (changeDirection_buffered "g" "A" UP store_started game_started playerA
              (proj1 store_started_game) eq_refl eq_refl eq_refl
              ltac:(discriminate))
    as (game' & player' & H1 & H2 & H3 & H4 & _).
  exists game', player'. exact (conj H1 (conj H2 (conj H3 H4))).
Defined.

Lemma changeDirection_twice_witness :
  changeDirection "g" "A" LEFT (changeDirection "g" "A" UP store_started)
  = changeDirection "g" "A" UP store_started.
Proof.
  apply (changeDirection_twice "g" "A" UP LEFT store_started game_started playerA);
    by vm_compute.
Defined.

Lemma reachable_players_witness :
  (JsMap.size (players game_crossing) ≤ 2)%nat
  ∧ NoDup (JsMap.keys (players game_crossing))
  ∧ (∀ k p, (k, p) ∈ players game_crossing -> player_id p = k)
  ∧ NoDup (player_id <$> JsMap.values (players game_crossing)).
Proof.
  apply (reachable_players random_corner store_crossing "g" game_crossing).
  - apply store_crossing_reachable.
  - by vm_compute.
Defined.

Lemma reachable_on_grid_witness :
  gridSize game_crossing = {| width := 20; height := 20 |}
  ∧ (∀ p c, p ∈ JsMap.values (players game_crossing) -> c ∈ segments (snake p) ->
            (0 ≤ x c < 20)%Z ∧ (0 ≤ y c < 20)%Z)
  ∧ (∀ a, a ∈ apples game_crossing -> (0 ≤ x a < 20)%Z ∧ (0 ≤ y a < 20)%Z).
Proof.
  apply (reachable_on_grid random_corner store_crossing "g" game_crossing).
  - apply store_crossing_reachable.
  - by vm_compute.
Defined.

Lemma reachable_snake_shape_witness :
  (4 ≤ length (segments (snake playerB_crossing)))%nat
  ∧ is_Some (newHeadOf playerB_crossing)
  ∧ NoDup (segments (snake playerB_crossing))
  ∧ ∀ (i : nat) a b, segments (snake playerB_crossing) !! i = Some a ->
                     segments (snake playerB_crossing) !! S i = Some b ->
                     ∃ d, a = getNextPosition b d.
Proof.
  apply (reachable_snake_shape random_corner store_crossing "g" game_crossing).
  - apply store_crossing_reachable.
  - by vm_compute.
  - cbn. right. by left.
Defined.

Lemma reachable_no_reversal_witness :
  nextDirection (snake playerB_crossing) ≠ opposite (direction (snake playerB_crossing))
  ∧ ∀ head neck tl, segments (snake playerB_crossing) = head :: neck :: tl ->
      head = getNextPosition neck (direction (snake playerB_crossing))
      ∧ newHeadOf playerB_crossing
        = Some (getNextPosition head (nextDirection (snake playerB_crossing)))
      ∧ getNextPosition head (nextDirection (snake playerB_crossing)) ≠ neck.
Proof.
  apply (reachable_no_reversal random_corner store_crossing "g" game_crossing).
  - apply store_crossing_reachable.
  - by vm_compute.
  - cbn. right. by left.
  - reflexivity.
Defined.

Lemma reachable_apples_witness :
  (length (apples game_crossing) ≤ 2)%nat
  ∧ NoDup (apples game_crossing)
  ∧ (status game_crossing = WAITING -> apples game_crossing = []).
Proof.
  apply (reachable_apples random_corner store_crossing "g" game_crossing).
  - apply store_crossing_reachable.
  - by vm_compute.
Defined.

Lemma reachable_status_witness :
  status game_crossing ≠ READY
  ∧ ∀ w, winnerId game_crossing = Some w -> status game_crossing = FINISHED.
Proof.
  apply (reachable_status random_corner store_crossing "g" game_crossing).
  - apply store_crossing_reachable.
  - by vm_compute.
Defined.

Lemma status_never_moves_back_witness :
  game_started = freshGame "g"
  ∨ (status_rank (status game_lobby) ≤ status_rank (status game_started))%nat.
Proof.
  apply (status_never_moves_back random_6_5 store_lobby store_started "g").
  - apply step_startGame.
  - by vm_compute.
  - by vm_compute.
Defined.

Lemma tick_moves_snake_witness :
  ∃ st' game' p',
    tick random_6_5 "g" store_started = (true, st')
    ∧ activeGames st' !! "g" = Some game'
    ∧ JsMap.values (players game') !! 0%nat = Some p'
    ∧ p' = set_snake (snake p') playerA.
Proof.
  destruct (tick_moves_snake random_6_5 "g" store_started game_started 0 playerA
              (proj1 store_started_game) eq_refl eq_refl)
    as (st' & game' & p' & H1 & H2 & H3 & H4 & _).
  exists st', game', p'. exact (conj H1 (conj H2 (conj H3 H4))).
Defined.

Lemma tick_keeps_players_witness :
  ∃ st' game',
    tick random_6_5 "g" store_started = (true, st')
    ∧ activeGames st' !! "g" = Some game'
    ∧ JsMap.keys (players game') = JsMap.keys (players game_started).
Proof.
  destruct (tick_keeps_players random_6_5 "g" store_started game_started
              (proj1 store_started_game) eq_refl)
    as (st' & game' & H1 & H2 & H3 & _).
  exists st', game'. exact (conj H1 (conj H2 H3)).
Defined.

Lemma tick_apples_never_grow_witness :
  ∃ st' game',
    tick random_6_5 "g" store_started = (true, st')
    ∧ activeGames st' !! "g" = Some game'
    ∧ (length (apples game') ≤ length (apples game_started))%nat.
Proof.
  destruct (tick_apples_never_grow random_6_5 "g" store_started game_started
              (proj1 store_started_game) eq_refl)
    as (st' & game' & H1 & H2 & H3 & _).
  exists st', game'. exact (conj H1 (conj H2 H3)).
Defined.

Lemma queue_at_most_one_witness :
  (MatchmakingService.getQueueSize matchmaking_A_waits ≤ 1)%nat.
Proof.
  apply (queue_at_most_one uuid_seq), matchmaking_A_waits_reachable.
Defined.

Lemma findMatch_waits_alone_witness :
  MatchmakingService.findMatch uuid_seq "A" "socket-2" (Some "ann")
    matchmaking_A_waits
  = (None,
     MatchmakingService.mkState
       [MatchmakingService.mkWaitingPlayer "A" "socket-2" "ann"]
       (MatchmakingService.uuidCalls matchmaking_A_waits)
       (MatchmakingService.games matchmaking_A_waits)).
Proof.
  apply (findMatch_waits_alone uuid_seq "A" "socket-2" (Some "ann")).
  right. exists entryA. by vm_compute.
Defined.

Lemma findMatch_leaveQueue_witness :
  MatchmakingService.leaveQueue "A"
    (snd (MatchmakingService.findMatch uuid_seq "A" "socket-a" None matchmaking_init))
  = matchmaking_init.
Proof. by apply findMatch_leaveQueue. Defined.

Lemma findMatch_two_requests_witness :
  fst (MatchmakingService.findMatch uuid_seq "A" "socket-a" None matchmaking_init)
  = None
  ∧ fst (MatchmakingService.findMatch uuid_seq "B" "socket-b" (Some "bob")
           (snd (MatchmakingService.findMatch uuid_seq "A" "socket-a" None
                   matchmaking_init)))
    = Some "match-0".
Proof.
  destruct (findMatch_two_requests uuid_seq "A" "socket-a" "B" "socket-b"
              None (Some "bob") matchmaking_init) as [H1 H2]; [done|done|].
  split; [done|]. by rewrite H2.
Defined.

Lemma leaveQueue_effect_witness :
  MatchmakingService.isInQueue "A" (MatchmakingService.leaveQueue "A" queue_A_B)
  = false.
Proof.
  apply (leaveQueue_effect "A" queue_A_B). compute_done.
Defined.

Lemma findMatch_forms_match_witness :
  ∃ game,
    activeGames
      (MatchmakingService.games
         (snd (MatchmakingService.findMatch uuid_seq "B" "socket-b" (Some "bob")
                 matchmaking_A_waits))) !! "match-0" = Some game
    ∧ status game = WAITING
    ∧ no_overlap game
    ∧ JsMap.size (players game) = 2%nat.
Proof.
  destruct (findMatch_forms_match uuid_seq "B" "socket-b" (Some "bob")
              matchmaking_A_waits
              (snd (MatchmakingService.findMatch uuid_seq "B" "socket-b"
                      (Some "bob") matchmaking_A_waits))
              "match-0" matchmaking_A_waits_reachable matchmaking_B_pairs)
    as (_ & _ & _ & _ & game & H1 & H2 & _ & _ & _ & H3 & H4 & _).
  exists game. exact (conj H1 (conj H2 (conj H3 H4))).
Defined.

Lemma turn_takes_effect_witness :
  ∃ st' game' p',
    tick random_6_5 "g" (changeDirection "g" "A" UP store_started) = (true, st')
    ∧ activeGames st' !! "g" = Some game'
    ∧ JsMap.values (players game') !! 0%nat = Some p'
    ∧ direction (snake p') = UP.
Proof.
  destruct (turn_takes_effect random_6_5 "g" "A" UP store_started game_started
              0 playerA (mkPosition 5 5)
              [mkPosition 4 5; mkPosition 3 5; mkPosition 2 5]
              (proj1 store_started_game) eq_refl game_started_keys
              eq_refl eq_refl eq_refl ltac:(discriminate))
    as (st' & game' & p' & H1 & H2 & H3 & _ & H4 & _).
  exists st', game', p'. exact (conj H1 (conj H2 (conj H3 H4))).
Defined.
